(** * Knover: the decoding engine ([knover/modules/generator.py]) and the
      negative-sample mixer ([knover/data/nsp_reader.py])

    A shallow embedding of [Generator.inference] and of
    [NSPReader._mix_negative_sample].

    Numbers.  The tensors of the program hold [float32] values.  They are
    modelled by exact rationals ([Q]); rounding, infinities and NaN are not
    part of that model, and equalities between scores are stated with [==].
    The [float16 -> float32] casts of the source are identities here.  The
    one place where a quantity of the order of 1 meets one of the order of
    [1e9] and is expected to come back, the penalties of lines 163-174, is
    also given with the rounding of [float32] ([Float32],
    [Generator.penalized_logits_f32]).

    Tensors.  A tensor of shape [candidates x vocab] is a [list (list Q)], one
    row per candidate; every operation of the loop body is row-wise except the
    beam-search merge and the [reduce_all] of the loop condition.  The tensor
    [state["is_finished"]] holds 0.0 or 1.0 per candidate: it is a [bool] in
    the model and [ind] gives back its numeric value where the source does
    arithmetic with it.

    Static graph.  [inference] builds a program: the body of
    [while_op.block()] is executed once by Python while the program is built
    (this is when line 214 can raise), and the built loop is run later. *)

From Stdlib Require Import String ZArith QArith Qminmax Qround Qabs List Bool Lia Lqa
  Permutation Sorted.
Import ListNotations.

Local Open Scope Q_scope.

(** ** Python exceptions *)

Inductive PyError : Type :=
| ValueError (msg : string)
| IndexError
| TypeError
| ZeroDivisionError
| ArgumentError (msg : string)
| OperatorError (op : string).

Definition Result (A : Type) : Type := (PyError + A)%type.

Definition ret {A : Type} (a : A) : Result A := inr a.

Definition bind {A B : Type} (m : Result A) (k : A -> Result B) : Result B :=
  match m with
  | inl e => inl e
  | inr a => k a
  end.

Notation "x <- m ;; k" := (bind m (fun x => k))
  (at level 61, m at next level, right associativity).

Definition raises {A : Type} (m : Result A) : bool :=
  match m with inl _ => true | inr _ => false end.

(** ** Numeric constants and comparisons *)

(** [1e9], [1e-9] and [1e3] of the source. *)
Definition big : Q := 1000000000 # 1.
Definition tiny : Q := 1 # 1000000000.
Definition bonus : Q := 1000 # 1.

(** [x < y] as the source's [less_than] / [<] on tensors. *)
Definition Qltb (x y : Q) : bool := negb (Qle_bool y x).

(** [cast(c, float32)] of a boolean condition, and the numeric value of an
    [is_finished] entry. *)
Definition ind (b : bool) : Q := if b then 1 else 0.

(** ** Single-precision numbers *)

(** The finite [float32] values are the rationals [n * 2^e] with
    [|n| < 2^24] and [-149 <= e <= 104].  A tensor entry is such a value or
    [None], which stands for the infinities and NaN; an operation is the exact
    one followed by rounding to the nearest value, ties to the even
    significand.  The sign of zero is not represented. *)
Module Float32.

Definition t : Type := option Q.

Definition pow2 (e : Z) : Q :=
  if (0 <=? e)%Z then inject_Z (2 ^ e) else 1 / inject_Z (2 ^ (- e)).

(** [floor (log2 m)] for [m > 0]. *)
Definition exponent (m : Q) : Z :=
  if Qle_bool 1 m then Z.log2 (Qfloor m) else (- Z.log2_up (Qceiling (/ m)))%Z.

(** The nearest integer, ties to even. *)
Definition nearest_even (q : Q) : Z :=
  let f := Qfloor q in
  match Qcompare (q - inject_Z f) (1 # 2) with
  | Lt => f
  | Gt => (f + 1)%Z
  | Eq => if Z.even f then f else (f + 1)%Z
  end.

(** The spacing of the values around [x]: 24 significant bits, and the
    spacing [2^-149] of the subnormal range below [2^-126]. *)
Definition ulp (x : Q) : Q := pow2 (Z.max (exponent (Qabs x)) (-126) - 23).

Definition nearest (x : Q) : Q :=
  if Qeq_bool x 0 then 0
  else inject_Z (nearest_even (x / ulp x)) * ulp x.

(** The largest finite value, [(2 - 2^-23) * 2^127]. *)
Definition max_finite : Q := inject_Z (2 ^ 128 - 2 ^ 104).

(** Rounding of an exact result; past [max_finite] it is an infinity. *)
Definition round (x : Q) : t :=
  let r := nearest x in
  if Qle_bool (Qabs r) max_finite then Some (Qred r) else None.

Definition lift2 (f : Q -> Q -> Q) (x y : t) : t :=
  match x, y with
  | Some a, Some b => round (f a b)
  | _, _ => None
  end.

Definition add : t -> t -> t := lift2 Qplus.
Definition sub : t -> t -> t := lift2 Qminus.
Definition mul : t -> t -> t := lift2 Qmult.

(** A row of numbers stored into a [float32] array. *)
Definition of_row (l : list Q) : list t := map round l.

End Float32.

(** ** Row operations *)

Module Paddle.

(** [elementwise_add], [-], [*] on two rows of the same length. *)
Fixpoint map2 {A B C : Type} (f : A -> B -> C) (a : list A) (b : list B) : list C :=
  match a, b with
  | x :: a', y :: b' => f x y :: map2 f a' b'
  | _, _ => []
  end.

Definition vadd (a b : list Q) : list Q := map2 Qplus a b.
Definition vsub (a b : list Q) : list Q := map2 Qminus a b.
Definition vmul (a b : list Q) : list Q := map2 Qmult a b.

(** A row scaled by a per-candidate scalar (broadcast of a [[B, 1]] tensor). *)
Definition vscale (c : Q) (a : list Q) : list Q := map (Qmult c) a.

(** [reduce_sum(x, dim=-1)]. *)
Definition reduce_sum (a : list Q) : Q := fold_right Qplus 0 a.

(** [cumsum(x, axis=1, exclusive=True)]: entry [r] is the sum of the entries
    before [r]. *)
Fixpoint cumsum_from (acc : Q) (a : list Q) : list Q :=
  match a with
  | [] => []
  | x :: a' => acc :: cumsum_from (acc + x) a'
  end.

Definition cumsum_exclusive (a : list Q) : list Q := cumsum_from 0 a.

(** [one_hot(id, depth)]. *)
Definition one_hot (id depth : nat) : list Q :=
  map (fun i => ind (Nat.eqb i id)) (seq 0 depth).

(** Sorting (value, index) pairs by descending value.  The order Paddle gives
    to equal values is the operator's own; here equal values keep their
    original order (the first index first).  The sorted values do not depend
    on that choice, and no property is stated on the order of ties. *)
Fixpoint insert_desc (x : Q * nat) (l : list (Q * nat)) : list (Q * nat) :=
  match l with
  | [] => [x]
  | y :: l' => if Qle_bool (fst y) (fst x) then x :: l else y :: insert_desc x l'
  end.

Definition sort_desc (l : list (Q * nat)) : list (Q * nat) :=
  fold_right insert_desc [] l.

(** The order [sort_desc] establishes: [x] may come before [y]. *)
Definition desc (x y : Q * nat) : Prop := fst y <= fst x.

Definition indexed (a : list Q) : list (Q * nat) := combine a (seq 0 (length a)).

(** [argsort(x, descending=True)]: the sorted values and the permutation. *)
Definition argsort_desc (a : list Q) : list Q * list nat :=
  split (sort_desc (indexed a)).

(** [topk(x, k)]: the [k] largest values, in descending order, and their
    indices. *)
Definition topk (a : list Q) (k : nat) : list Q * list nat :=
  split (firstn k (sort_desc (indexed a))).

(** [index_sample(x, i)]: the entry of the row at position [i]. *)
Definition index_sample (a : list nat) (i : nat) : nat := nth i a 0%nat.

(** [reduce_all(cast(x, bool))]. *)
Definition reduce_all (a : list bool) : bool := forallb (fun b => b) a.

End Paddle.

(** ** numpy arrays *)

Module Numpy.

(** Index resolution of [a[i]]: a negative index counts from the end, an index
    outside [-n .. n-1] raises [IndexError]. *)
Definition index (n : nat) (i : Z) : Result nat :=
  if ((0 <=? i) && (i <? Z.of_nat n))%Z then ret (Z.to_nat i)
  else if ((- Z.of_nat n <=? i) && (i <? 0))%Z then ret (Z.to_nat (Z.of_nat n + i))
  else inl IndexError.

Fixpoint set_nth (i : nat) (x : Q) (a : list Q) : list Q :=
  match a, i with
  | [], _ => []
  | _ :: a', O => x :: a'
  | y :: a', S i' => y :: set_nth i' x a'
  end.

(** [a[i] = x]. *)
Definition setitem (a : list Q) (i : Z) (x : Q) : Result (list Q) :=
  j <- index (length a) i ;; ret (set_nth j x a).

(** [np.zeros(n)]. *)
Definition zeros (n : nat) : list Q := repeat 0 n.

(** The indices [a[i]] accepts for an array of length [n]. *)
Definition in_range (n : nat) (i : Z) : Prop :=
  (- Z.of_nat n <= i < Z.of_nat n)%Z.

End Numpy.

(** ** The generator *)

Module Generator.

Import Paddle.

(** The fields set by [Generator.__init__]. *)
Record t : Type := {
  min_dec_len : Z;
  max_dec_len : Z;
  bos_id : Z;
  eos_id : Z;
  unk_id : Z;
  mask_id : option Z;
  vocab_size : nat;
  decoding_strategy : string;
  ignore_unk : bool;
  temperature : Q;
  num_samples : option Z;
  topk : Z;
  topp : Q;
  beam_size : Z;
  length_penalty : Q;
  length_average : bool;
  ngram_blocking : Z
}.

(** [add_cmdline_args]: the [choices] of [--decoding_strategy] and the
    defaults of the group.  No other argument of the group has [choices];
    [--topp] and [--beam_size] are converted by [float] and [int] only. *)
Definition decoding_strategy_choices : list string :=
  ["beam_search"; "topk_sampling"; "topp_sampling"]%string.

(** argparse refuses a value that is not among the [choices]. *)
Definition parse_decoding_strategy (s : string) : Result string :=
  if existsb (String.eqb s) decoding_strategy_choices then ret s
  else inl (ArgumentError s).

(** The generator built from the defaults of [add_cmdline_args]; the token ids
    and the vocabulary size come from elsewhere in [args]. *)
Definition defaults (bos eos unk : Z) (mask : option Z) (vocab : nat) : t := {|
  min_dec_len := 1;
  max_dec_len := 64;
  bos_id := bos;
  eos_id := eos;
  unk_id := unk;
  mask_id := mask;
  vocab_size := vocab;
  decoding_strategy := "topk_sampling";
  ignore_unk := true;
  temperature := 1;
  num_samples := None;
  topk := 10;
  topp := 9 # 10;
  beam_size := 10;
  length_penalty := 0;
  length_average := true;
  ngram_blocking := 0
|}.

(** The same generator with another [topp], another [beam_size]. *)
Definition with_topp (g : t) (x : Q) : t := {|
  min_dec_len := min_dec_len g; max_dec_len := max_dec_len g;
  bos_id := bos_id g; eos_id := eos_id g; unk_id := unk_id g;
  mask_id := mask_id g; vocab_size := vocab_size g;
  decoding_strategy := decoding_strategy g; ignore_unk := ignore_unk g;
  temperature := temperature g; num_samples := num_samples g;
  topk := topk g; topp := x; beam_size := beam_size g;
  length_penalty := length_penalty g; length_average := length_average g;
  ngram_blocking := ngram_blocking g
|}.

Definition with_beam_size (g : t) (b : Z) : t := {|
  min_dec_len := min_dec_len g; max_dec_len := max_dec_len g;
  bos_id := bos_id g; eos_id := eos_id g; unk_id := unk_id g;
  mask_id := mask_id g; vocab_size := vocab_size g;
  decoding_strategy := decoding_strategy g; ignore_unk := ignore_unk g;
  temperature := temperature g; num_samples := num_samples g;
  topk := topk g; topp := topp g; beam_size := b;
  length_penalty := length_penalty g; length_average := length_average g;
  ngram_blocking := ngram_blocking g
|}.

(** A strategy string no branch of lines 181-213 accepts. *)
Definition unknown_strategy (s : string) : Prop :=
  String.eqb s "beam_search" = false /\
  String.prefix "sampling" s = false /\
  String.prefix "topk_sampling" s = false /\
  String.prefix "topp_sampling" s = false.

(** The configurations the specification calls erroneous. *)
Definition configuration_error (g : t) : Prop :=
  unknown_strategy (decoding_strategy g) \/
  ~ (0 < topp g /\ topp g <= 1) \/
  (beam_size g < 1)%Z.

(** The branches of the strategy dispatch of the loop body (lines 181-214). *)
Inductive Strategy : Type :=
| BeamSearch
| Sampling
| TopkSampling
| ToppSampling.

(** [s.startswith(p)]. *)
Definition startswith (s p : string) : bool := String.prefix p s.

(** Lines 181-214: which branch a strategy string takes; the last [else]
    raises [ValueError(self.decoding_strategy)]. *)
Definition strategy_of (s : string) : Result Strategy :=
  if String.eqb s "beam_search" then ret BeamSearch
  else if startswith s "sampling" then ret Sampling
  else if startswith s "topk_sampling" then ret TopkSampling
  else if startswith s "topp_sampling" then ret ToppSampling
  else inl (ValueError s).

(** Lines 130-132. *)
Definition eos_penalty (g : t) : Result (list Q) :=
  Numpy.setitem (Numpy.zeros (vocab_size g)) (eos_id g) (- big).

(** Lines 134-139. *)
Definition token_penalty (g : t) : Result (list Q) :=
  let p0 := Numpy.zeros (vocab_size g) in
  p1 <- (if ignore_unk g then Numpy.setitem p0 (unk_id g) (- big) else ret p0) ;;
  match mask_id g with
  | Some m => if (0 <=? m)%Z then Numpy.setitem p1 m (- big) else ret p1
  | None => ret p1
  end.

(** The ids with which lines 130-138 can index an array of [vocab_size]
    entries: a negative [mask_id] is never used as an index. *)
Definition ids_in_range (g : t) : Prop :=
  Numpy.in_range (vocab_size g) (eos_id g) /\
  (ignore_unk g = true -> Numpy.in_range (vocab_size g) (unk_id g)) /\
  (forall m, mask_id g = Some m -> (0 <= m)%Z -> (m < Z.of_nat (vocab_size g))%Z).

(** What building the program fixes once and for all. *)
Record Plan : Type := {
  plan_beam_size : Z;
  plan_eos_penalty : list Q;
  plan_token_penalty : list Q;
  plan_strategy : Strategy
}.

(** Line 177, [logits / self.temperature]: dividing by the Python number 0
    raises [ZeroDivisionError] when the body is built. *)
Definition check_temperature (g : t) : Result unit :=
  if Qeq_bool (temperature g) 0 then inl ZeroDivisionError else ret tt.

(** [layers.topk(input, k)] refuses [k < 1] when the operator is added to the
    program; [OperatorError] stands for the exception of that check. *)
Definition check_topk (k : Z) : Result unit :=
  if (k <? 1)%Z then inl (OperatorError "topk") else ret tt.

(** The [topk] whose [k] comes from the configuration: line 182 under beam
    search, line 188 under top-k sampling. *)
Definition check_selection (g : t) (strat : Strategy) : Result unit :=
  match strat with
  | BeamSearch => check_topk (beam_size g)
  | TopkSampling => check_topk (topk g)
  | _ => ret tt
  end.

(** What Python executes once while the program is built, in the order of
    the source: lines 125-139, the division of line 177, the strategy
    dispatch of lines 181-214 and the check of the [topk] of the branch taken.
    [topp] is read, never tested; [beam_size] is tested by [topk] under beam
    search only. *)
Definition build (g : t) : Result Plan :=
  let beam := if String.eqb (decoding_strategy g) "beam_search"
              then beam_size g else 1%Z in
  eos_pen <- eos_penalty g ;;
  tok_pen <- token_penalty g ;;
  _ <- check_temperature g ;;
  strat <- strategy_of (decoding_strategy g) ;;
  _ <- check_selection g strat ;;
  ret {| plan_beam_size := beam;
         plan_eos_penalty := eos_pen;
         plan_token_penalty := tok_pen;
         plan_strategy := strat |}.

(** *** Operations the generator does not define

    [softmax], [log] and [pow] are Paddle's; [sampling_id] is
    [knover.modules.ops.sampling_id], which draws one index from a
    distribution: its random source is represented by letting the draw depend
    on the step and on the row as well. *)
Class Ops : Type := {
  softmax : list Q -> list Q;
  log : Q -> Q;
  pow : Q -> Q -> Q;
  sampling_id : Z -> nat -> list Q -> nat
}.

Section Step.

Context {ops : Ops}.

(** *** Penalties on the logits (lines 158-174), one row *)

(** Lines 163-171: [layers.case([(step_idx < min_len, min_len_penalty)],
    default=no_penalty)]. *)
Definition min_len_case (step min_len : Z) (logits eos_pen : list Q) : list Q :=
  if (step <? min_len)%Z then vadd logits eos_pen else logits.

(** Line 173: [state["is_finished"] * eos_penalty]. *)
Definition the_eos_penalty (fin : bool) (eos_pen : list Q) : list Q :=
  vscale (ind fin) eos_pen.

(** Lines 163-174, from the logits that enter the minimum-length case to the
    logits that enter the softmax. *)
Definition penalized_logits (step min_len : Z) (fin : bool)
    (eos_pen logits : list Q) : list Q :=
  vsub (min_len_case step min_len logits eos_pen) (the_eos_penalty fin eos_pen).

(** The same three steps on [float32] rows: [eos_pen] is the array of lines
    130-132 and [state["is_finished"]] holds the [float32] 0.0 or 1.0. *)
Definition min_len_case_f32 (step min_len : Z) (logits eos_pen : list Float32.t)
    : list Float32.t :=
  if (step <? min_len)%Z then map2 Float32.add logits eos_pen else logits.

Definition the_eos_penalty_f32 (fin : bool) (eos_pen : list Float32.t)
    : list Float32.t :=
  map (Float32.mul (Float32.round (ind fin))) eos_pen.

Definition penalized_logits_f32 (step min_len : Z) (fin : bool)
    (eos_pen logits : list Float32.t) : list Float32.t :=
  map2 Float32.sub (min_len_case_f32 step min_len logits eos_pen)
       (the_eos_penalty_f32 fin eos_pen).

(** Line 177.  The run only divides by a temperature that is not 0:
    [build] raises for a temperature of 0. *)
Definition get_probs (g : t) (logits : list Q) : list Q :=
  softmax (map (fun x => x / temperature g) logits).

(** *** Candidate selection (lines 181-218), one row *)

(** Lines 188-192: the distribution the top-k sample is drawn from. *)
Definition topk_sampling_probs (k : nat) (probs : list Q) : list Q :=
  let topk_probs := fst (Paddle.topk probs k) in
  let kth := last topk_probs 0 in
  let ge_cond := map (fun p => ind (Qle_bool kth p)) probs in
  let total := reduce_sum topk_probs in
  map2 (fun p c => p * c / total) probs ge_cond.

(** Lines 196-207: [candidate_probs = sorted_probs * lt_cond]. *)
Definition lt_cond (topp : Q) (sorted_probs : list Q) : list Q :=
  map (fun c => ind (Qltb c topp)) (cumsum_exclusive sorted_probs).

Definition candidate_probs (topp : Q) (probs : list Q) : list Q :=
  let sorted_probs := fst (argsort_desc probs) in
  vmul sorted_probs (lt_cond topp sorted_probs).

(** The tokens of the ranks that [lt_cond] keeps, in rank order. *)
Definition kept_tokens (topp : Q) (probs : list Q) : list nat :=
  let '(sorted_probs, sorted_idx) := argsort_desc probs in
  map snd (filter (fun ci => Qltb (fst ci) topp)
                  (combine (cumsum_exclusive sorted_probs) sorted_idx)).

(** Line 208: renormalisation of the kept ranks.  When no rank is kept
    ([topp <= 0]) the program divides 0 by 0; that case is not given a
    meaning here. *)
Definition topp_sampling_probs (topp : Q) (probs : list Q) : list Q :=
  let c := candidate_probs topp probs in
  map (fun x => x / reduce_sum c) c.

(** Lines 209-211: the sampled rank, then the token at that rank. *)
Definition topp_sampling_ids (step : Z) (row : nat) (topp : Q) (probs : list Q) : nat :=
  let sorted_idx := snd (argsort_desc probs) in
  index_sample sorted_idx (sampling_id step row (topp_sampling_probs topp probs)).

(** The [sampling_ids] of the three sampling branches (the beam-search branch
    draws nothing and never reads it). *)
Definition sampling_ids (g : t) (strat : Strategy) (step : Z) (row : nat)
    (probs : list Q) : nat :=
  match strat with
  | TopkSampling => sampling_id step row (topk_sampling_probs (Z.to_nat (topk g)) probs)
  | ToppSampling => topp_sampling_ids step row (topp g) probs
  | _ => sampling_id step row probs
  end.

(** What is expected of [sampling_id]: a draw returns a position of the
    distribution it is given. *)
Definition valid_sampler : Prop :=
  forall (step : Z) (row : nat) (d : list Q),
    d <> [] -> (sampling_id step row d < length d)%nat.

(** Lines 216-217, with [probs] the distribution restored from [old_probs]. *)
Definition sampling_scores (vocab id : nat) (probs : list Q) : list Q :=
  map2 (fun o p => o * p - (1 - o) * bonus) (one_hot id vocab) probs.

(** Lines 181-218: [(topk_scores, topk_indices)] of one row.  The check of
    [topk] on [k >= 1] is made once, in [build]; a row is only selected from
    under a plan that was built.  What [topk] does for a [k] above the
    vocabulary size is not modelled: properties are stated for [k] within
    it. *)
Definition select (g : t) (p : Plan) (step : Z) (row : nat) (probs : list Q)
    : list Q * list nat :=
  match plan_strategy p with
  | BeamSearch => Paddle.topk probs (Z.to_nat (plan_beam_size p))
  | strat =>
      let id := sampling_ids g strat step row probs in
      Paddle.topk (sampling_scores (vocab_size g) id probs) 1
  end.

(** *** Scores (lines 220-244), one proposal *)

(** Line 225. *)
Definition small_prob_cond (topk_score : Q) : Q := ind (Qltb topk_score tiny).

(** Line 226: the value whose logarithm is taken on line 227. *)
Definition clamp_small (topk_score : Q) : Q :=
  topk_score * (1 - small_prob_cond topk_score) + tiny * small_prob_cond topk_score.

(** Lines 230-240, with [l] the logarithm of line 227. *)
Definition accu_scores (g : t) (l pre_score pre_len cur_len : Q) : Q :=
  if length_average g then
    (l + pre_score * pre_len) / cur_len
  else if Qltb 0 (length_penalty g) then
    let pre_lp := pow ((5 + pre_len) / 6) (length_penalty g) in
    let cur_lp := pow ((5 + cur_len) / 6) (length_penalty g) in
    (l + pre_score * pre_lp) / cur_lp
  else
    l + pre_score.

(** Lines 241-243. *)
Definition mask_finished (accu pre_score : Q) (fin : bool) : Q :=
  accu * (1 - ind fin) + pre_score * ind fin.

(** Lines 220-244: [pre_len] is the step index before the increment of line
    221 and [cur_len] the step index after it. *)
Definition update_score (g : t) (step : Z) (fin : bool)
    (pre_score topk_score : Q) : Q :=
  let pre_len := inject_Z step in
  let cur_len := inject_Z (step + 1) in
  let small := small_prob_cond topk_score in
  let l := log (clamp_small topk_score) in
  let accu := accu_scores g l pre_score pre_len cur_len in
  let accu := mask_finished accu pre_score fin in
  accu * (1 - small) - big * small.

(** The score of a candidate that stays live and whose proposals stay at or
    above [1e-9], over consecutive steps from [step] on: [ls] are the
    logarithms of line 227, one per step. *)
Fixpoint accumulate (g : t) (step : Z) (score : Q) (ls : list Q) : Q :=
  match ls with
  | [] => score
  | l :: ls' =>
      accumulate g (step + 1)
        (accu_scores g l score (inject_Z step) (inject_Z (step + 1))) ls'
  end.

(** The score of one candidate over consecutive iterations of the loop, from
    [step] on: the update of lines 220-244 once per iteration, [steps] giving
    for each iteration the candidate's finished flag before it and the
    probability of the proposal that continues it. *)
Fixpoint scores_over (g : t) (step : Z) (score : Q) (steps : list (bool * Q)) : Q :=
  match steps with
  | [] => score
  | (fin, topk_score) :: steps' =>
      scores_over g (step + 1) (update_score g step fin score topk_score) steps'
  end.

End Step.

(** *** The model and the n-gram blocker

    [inference] receives the model as an argument and only calls the methods
    below.  A state is the dictionary returned by [_initialize_state]; the
    generator itself reads its ["is_finished"] entry and writes its
    ["parent_idx"] entry.  [pre_ids] comes grouped by input example (its LoD),
    [pre_scores] has one score per candidate. *)

(** One continuation chosen by the merge: token, accumulated score, and the
    row of the candidate it extends. *)
Record Selected : Type := {
  selected_id : nat;
  selected_score : Q;
  parent_idx : nat
}.

Class Model : Type := {
  State : Type;
  Inputs : Type;
  ModelInput : Type;
  DecOut : Type;
  Predictions : Type;
  initialize_state : Inputs -> Z -> State;
  prepare_timestep_input : State -> Z -> ModelInput * list (list Z) * list Q;
  generation_network : ModelInput -> DecOut;
  calc_logits : DecOut -> list (list Q);
  update_state : State -> ModelInput -> list (list Selected) -> Z -> State;
  is_finished : State -> list bool;
  set_parent_idx : State -> list nat -> State;
  inputs_parent_idx : Inputs -> list nat;
  inputs_token_ids : Inputs -> list (list Z);
  (** [beam_search_decode] and the dictionary of predictions (lines 275-286) *)
  finalize : Inputs -> State -> Z -> Z -> Predictions
}.

(** [knover.modules.ops.NGramBlockingProcessor]: [init], [apply], [update]. *)
Class NGramBlockingProcessor : Type := {
  NGramTable : Type;
  ngram_init : list (list Z) -> NGramTable;
  ngram_apply : NGramTable -> list (list Q) -> list bool -> list (list Q);
  ngram_update : NGramTable -> list nat -> list bool -> option (list nat) -> NGramTable
}.

Section Loop.

Context {ops : Ops} {model : Model} {blocker : NGramBlockingProcessor}.

(** [lod_reset(x, y)]: the rows of [x] grouped as [y] is. *)
Fixpoint lod_reset {A : Type} (x : list A) (lod : list nat) : list (list A) :=
  match lod with
  | [] => []
  | n :: lod' => firstn n x :: lod_reset (skipn n x) lod'
  end.

Definition proposals_of_row (row : nat) (ids : list nat) (scores : list Q)
    : list Selected :=
  map2 (fun i s => {| selected_id := i; selected_score := s; parent_idx := row |})
       ids scores.

(** [layers.beam_search] for one input example: the [beam_size] best
    proposals among those of all its candidates.  With [end_id=-1] no
    candidate is treated as ended by the operator.  The operator lists the
    selected proposals by parent candidate, the model by score: the same
    proposals, in an order that only matters when a source has several. *)
Definition beam_search_source (beam : nat) (props : list Selected) : list Selected :=
  let order := snd (argsort_desc (map selected_score props)) in
  map (fun i => nth i props {| selected_id := 0; selected_score := 0; parent_idx := 0 |})
      (firstn beam order).

(** Lines 245-254. *)
Definition beam_search (pre_ids : list (list Z)) (rows : list (list Selected))
    (beam : nat) : list (list Selected) :=
  map (fun grp => beam_search_source beam (concat grp))
      (lod_reset rows (map (@length Z) pre_ids)).

(** The variables of the while loop. *)
Record Loop : Type := {
  step_idx : Z;
  state : State;
  ngram : option NGramTable;
  cond : bool
}.

(** Lines 158-174 on the whole batch. *)
Definition batch_logits (g : t) (p : Plan) (l : Loop) (logits : list (list Q))
    : list (list Q) :=
  let fins := is_finished (state l) in
  let logits := map (fun r => vadd r (plan_token_penalty p)) logits in
  let logits := match ngram l with
                | Some tbl => ngram_apply tbl logits fins
                | None => logits
                end in
  map2 (fun r fin => penalized_logits (step_idx l) (min_dec_len g) fin
                       (plan_eos_penalty p) r) logits fins.

(** Lines 181-244 on the whole batch: the scored proposals of every row. *)
Fixpoint batch_proposals (g : t) (p : Plan) (step : Z) (row : nat)
    (probs : list (list Q)) (fins : list bool) (pre_scores : list Q)
    : list (list Selected) :=
  match probs, fins, pre_scores with
  | pr :: probs', fin :: fins', pre :: pre_scores' =>
      let '(topk_scores, topk_indices) := select g p step row pr in
      let accu := map (update_score g step fin pre) topk_scores in
      proposals_of_row row topk_indices accu
        :: batch_proposals g p step (S row) probs' fins' pre_scores'
  | _, _, _ => []
  end.

(** The body of the while loop (lines 152-273). *)
Definition body (g : t) (p : Plan) (l : Loop) : Loop :=
  let is_beam := String.eqb (decoding_strategy g) "beam_search" in
  let '(model_input, pre_ids, pre_scores) :=
    prepare_timestep_input (state l) (step_idx l) in
  let logits := calc_logits (generation_network model_input) in
  let probs := map (get_probs g) (batch_logits g p l logits) in
  let fins := is_finished (state l) in
  let step' := (step_idx l + 1)%Z in
  let rows := batch_proposals g p (step_idx l) 0 probs fins pre_scores in
  let selected := beam_search pre_ids rows (Z.to_nat (plan_beam_size p)) in
  let parents := map parent_idx (concat selected) in
  let st := if is_beam then set_parent_idx (state l) parents else state l in
  let st := update_state st model_input selected step' in
  let tbl := match ngram l with
             | Some tbl =>
                 Some (ngram_update tbl (map selected_id (concat selected))
                         (is_finished st) (if is_beam then Some parents else None))
             | None => None
             end in
  let length_cond := (step' <? max_dec_len g)%Z in
  let finish_cond := negb (reduce_all (is_finished st)) in
  {| step_idx := step'; state := st; ngram := tbl;
     cond := length_cond && finish_cond |}.

(** Lines 121-149: the loop variables before the loop; the table of the
    blocker exists exactly when [ngram_blocking > 0]. *)
Definition init (g : t) (inputs : Inputs) : Loop :=
  let step := 0%Z in
  let st := initialize_state inputs step in
  let st := if String.eqb (decoding_strategy g) "beam_search"
            then set_parent_idx st (inputs_parent_idx inputs) else st in
  {| step_idx := step;
     state := st;
     ngram := if (0 <? ngram_blocking g)%Z
              then Some (ngram_init (inputs_token_ids inputs)) else None;
     cond := (step <? max_dec_len g)%Z |}.

(** [layers.While(cond)]: the body runs as long as [cond] holds; [None] when
    the fuel is used up before [cond] turns false. *)
Fixpoint while_op (fuel : nat) (f : Loop -> Loop) (l : Loop) : option Loop :=
  if cond l then
    match fuel with
    | O => None
    | S fuel' => while_op fuel' f (f l)
    end
  else Some l.

(** The loop variables after [n] iterations. *)
Fixpoint iterate (n : nat) (f : Loop -> Loop) (l : Loop) : Loop :=
  match n with
  | O => l
  | S n' => iterate n' f (f l)
  end.

(** The test of lines 271-273 read as a stopping test: the step index has
    reached [max_dec_len] or every candidate is finished. *)
Definition stop_test (g : t) (l : Loop) : bool :=
  (step_idx l =? max_dec_len g)%Z || reduce_all (is_finished (state l)).

(** The loop performs exactly [n] iterations. *)
Definition runs (g : t) (p : Plan) (inputs : Inputs) (n : nat) : Prop :=
  cond (iterate n (body g p) (init g inputs)) = false /\
  forall k, (k < n)%nat -> cond (iterate k (body g p) (init g inputs)) = true.

(** The loop stops at the first state, the one before the first iteration
    included, at which the stopping test holds. *)
Definition stops_at_first_stop_state (g : t) (p : Plan) (inputs : Inputs) : Prop :=
  forall n, runs g p inputs n ->
    stop_test g (iterate n (body g p) (init g inputs)) = true /\
    forall k, (k < n)%nat ->
      stop_test g (iterate k (body g p) (init g inputs)) = false.

(** [inference]: an exception raised while the program is built, or the
    predictions of the run. *)
Definition inference (fuel : nat) (g : t) (inputs : Inputs)
    : Result (option Predictions) :=
  p <- build g ;;
  ret (match while_op fuel (body g p) (init g inputs) with
       | Some l => Some (finalize inputs (state l) (plan_beam_size p) (eos_id g))
       | None => None
       end).

End Loop.

End Generator.

(** ** The negative-sample mixer of the NSP reader *)

Module NSPReader.

(** A [Record] of the reader: the fields the mixer reads or sets.  [role_ids]
    is present when roles are used, [label] once it has been set. *)
Record record : Type := {
  token_ids : list Z;
  type_ids : list Z;
  pos_ids : list Z;
  role_ids : option (list Z);
  tgt_start_idx : Z;
  data_id : Z;
  label : option Z
}.

(** [r._replace(label=v)]. *)
Definition replace_label (r : record) (v : Z) : record := {|
  token_ids := token_ids r;
  type_ids := type_ids r;
  pos_ids := pos_ids r;
  role_ids := role_ids r;
  tgt_start_idx := tgt_start_idx r;
  data_id := data_id r;
  label := Some v
|}.

(** The attributes of the reader used by the mixer. *)
Record t : Type := {
  position_style : string;
  use_role : bool;
  mix_negative_sample : bool;
  neg_pool_size : Z
}.

(** [self.global_rng]: [shuffle] permutes a list in place and advances the
    generator. *)
Class RandomState : Type := {
  Rng : Type;
  shuffle : Rng -> list record -> list record * Rng
}.

(** Python slices [l[:i]] and [l[i:]]; a negative bound counts from the end
    and every bound is clipped to the list. *)
Definition clip {A : Type} (l : list A) (i : Z) : nat :=
  let n := Z.of_nat (length l) in
  Z.to_nat (if (i <? 0)%Z then Z.max 0 (n + i) else Z.min i n).

Definition slice_to {A : Type} (l : list A) (i : Z) : list A := firstn (clip l i) l.
Definition slice_from {A : Type} (l : list A) (i : Z) : list A := skipn (clip l i) l.

(** [pool[i] = x]. *)
Fixpoint set_nth {A : Type} (i : nat) (x : A) (l : list A) : list A :=
  match l, i with
  | [], _ => []
  | _ :: l', O => x :: l'
  | y :: l', S i' => y :: set_nth i' x l'
  end.

(** A record whose label is 1. *)
Definition is_positive (r : record) : bool :=
  match label r with
  | Some 1%Z => true
  | _ => false
  end.

(** The records the reader builds: one type and one position per token, and
    a response that starts inside the tokens. *)
Definition well_formed (r : record) : Prop :=
  length (type_ids r) = length (token_ids r) /\
  length (pos_ids r) = length (token_ids r) /\
  (0 <= tgt_start_idx r <= Z.of_nat (length (token_ids r)))%Z.

(** What is expected of [shuffle]: it permutes the list. *)
Definition valid_shuffle {rs : RandomState} : Prop :=
  forall (rng : Rng) (l : list record), Permutation (fst (shuffle rng l)) l.

(** What a generator has produced when it stops: the records yielded, then a
    normal end or an exception; the random generator as it is left. *)
Definition Yielded {R : Type} : Type := (list record * option PyError * R)%type.

Section Mixer.

Context {rs : RandomState}.
Variable self : t.

Definition no_record : record := {|
  token_ids := []; type_ids := []; pos_ids := []; role_ids := None;
  tgt_start_idx := 0; data_id := 0; label := None
|}.

(** Lines 66-82: the negative record made of the context of [ri] and the
    response of [rj].  Slicing a missing [role_ids] raises [TypeError]. *)
Definition neg_record (ri rj : record) : Result record :=
  let idx_i := tgt_start_idx ri in
  let idx_j := tgt_start_idx rj in
  let tokens := slice_to (token_ids ri) idx_i ++ slice_from (token_ids rj) idx_j in
  let types := slice_to (type_ids ri) idx_i ++ slice_from (type_ids rj) idx_j in
  let positions :=
    if String.eqb (position_style self) "continuous"
    then map Z.of_nat (seq 0 (length tokens))
    else slice_to (pos_ids ri) idx_i ++ slice_from (pos_ids rj) idx_j in
  roles <- (if use_role self then
              match role_ids ri, role_ids rj with
              | Some a, Some b => ret (Some (slice_to a idx_i ++ slice_from b idx_j))
              | _, _ => inl TypeError
              end
            else ret None) ;;
  ret {| token_ids := tokens; type_ids := types; pos_ids := positions;
         role_ids := roles; tgt_start_idx := idx_i; data_id := -1;
         label := Some 0%Z |}.

(** Lines 63-83: the [for i in range(num_samples)] loop, on the pool it
    updates in place and appends to. *)
Fixpoint mix_loop (num_samples : nat) (indices : list nat) (pool : list record)
    : Result (list record) :=
  match indices with
  | [] => ret pool
  | i :: indices' =>
      let pool := set_nth i (replace_label (nth i pool no_record) 1) pool in
      let j := ((i + 1) mod num_samples)%nat in
      neg <- neg_record (nth i pool no_record) (nth j pool no_record) ;;
      mix_loop num_samples indices' (pool ++ [neg])
  end.

(** Lines 55-86. *)
Definition _gen_from_pool (rng : Rng) (pool : list record) : @Yielded Rng :=
  let num_samples := length pool in
  if (num_samples =? 1)%nat then
    ([replace_label (nth 0 pool no_record) 1], None, rng)
  else
    let '(pool, rng) := shuffle rng pool in
    match mix_loop num_samples (seq 0 num_samples) pool with
    | inl e => ([], Some e, rng)
    | inr pool =>
        let '(pool, rng) := shuffle rng pool in
        (pool, None, rng)
    end.

(** Lines 88-98, on the records [reader()] yields; [pool] is the pool
    collected so far. *)
Fixpoint wrapper_loop (size : Z) (records pool : list record) (rng : Rng)
    : @Yielded Rng :=
  match records with
  | [] =>
      if (0 <? length pool)%nat then _gen_from_pool rng pool else ([], None, rng)
  | r :: records' =>
      let pool := pool ++ [r] in
      if (Z.of_nat (length pool) =? size)%Z then
        match _gen_from_pool rng pool with
        | (out, Some e, rng) => (out, Some e, rng)
        | (out, None, rng) =>
            let '(out', e, rng) := wrapper_loop size records' [] rng in
            (out ++ out', e, rng)
        end
      else wrapper_loop size records' pool rng
  end.

(** Lines 53-99: the reader returned by [_mix_negative_sample], run once. *)
Definition _mix_negative_sample (reader : list record) (size : Z) (rng : Rng)
    : @Yielded Rng :=
  wrapper_loop size reader [] rng.

(** Lines 101-104: the records [_batch_reader] hands to the batch reader of
    [DialogReader]. *)
Definition _batch_reader (reader : list record) (rng : Rng) : @Yielded Rng :=
  if mix_negative_sample self
  then _mix_negative_sample reader (neg_pool_size self) rng
  else (reader, None, rng).

End Mixer.

End NSPReader.

(** ** Concrete instances

    Instances of the interfaces above on which the definitions can be
    evaluated.  The transcendental operations are replaced by rational
    stand-ins; no property below depends on them. *)

Module Examples.

Import Paddle Generator.

(** A distribution that grows with the logits: weights [x - min + 1],
    normalised. *)
Definition linear_softmax (l : list Q) : list Q :=
  let m := fold_right Qmin (hd 0 l) l in
  let w := map (fun x => x - m + 1) l in
  map (fun x => x / reduce_sum w) w.

(** The draw that always takes the most probable index. *)
Definition greedy (_ : Z) (_ : nat) (d : list Q) : nat :=
  hd 0%nat (snd (Paddle.topk d 1)).

Definition rational_ops : Ops := {|
  softmax := linear_softmax;
  log := fun x => x - 1;
  pow := fun b e => 1 + e * (b - 1);
  sampling_id := greedy
|}.

(** The same with a logarithm stand-in that takes the values -1 and -2, at
    2/3 and 1/3. *)
Definition affine_ops : Ops := {|
  softmax := linear_softmax;
  log := fun x => 3 * x - 3;
  pow := fun b e => 1 + e * (b - 1);
  sampling_id := greedy
|}.

(** What the float32 softmax returns when one logit exceeds every other one
    by far more than the range of [exp]: probability 1 at the largest logit,
    0 elsewhere. *)
Definition saturating_softmax (l : list Q) : list Q :=
  one_hot (hd 0%nat (snd (Paddle.topk l 1))) (length l).

Definition saturating_ops : Ops := {|
  softmax := saturating_softmax;
  log := fun x => x - 1;
  pow := fun b e => 1 + e * (b - 1);
  sampling_id := greedy
|}.

(** A model whose logits do not change over time: a state holds the rows of
    logits, the finished flags and the scores; a candidate finishes when the
    token [eos] is selected for it. *)
Definition ToyState : Type := (list (list Q) * list bool * list Q)%type.

Definition toy_update (eos : nat) (st : ToyState) (selected : list (list Selected))
    : ToyState :=
  let '(logits, fins, scores) := st in
  (logits,
   map2 (fun fin sel => fin || existsb (fun c => Nat.eqb (selected_id c) eos) sel)
        fins selected,
   map (fun sel => selected_score (hd {| selected_id := 0; selected_score := 0;
                                         parent_idx := 0 |} sel)) selected).

Definition toy_model (eos : nat) : Model := {|
  State := ToyState;
  Inputs := ToyState;
  ModelInput := list (list Q);
  DecOut := list (list Q);
  Predictions := list bool * list Q;
  initialize_state := fun inputs _ => inputs;
  prepare_timestep_input := fun st _ =>
    let '(logits, fins, scores) := st in
    (logits, map (fun _ => [0%Z]) fins, scores);
  generation_network := fun x => x;
  calc_logits := fun x => x;
  update_state := fun st _ selected _ => toy_update eos st selected;
  is_finished := fun st => snd (fst st);
  set_parent_idx := fun st _ => st;
  inputs_parent_idx := fun _ => [];
  inputs_token_ids := fun _ => [];
  finalize := fun _ st _ _ => (snd (fst st), snd st)
|}.

(** A generator over a vocabulary of four tokens, token 3 ending a sequence
    and token 0 standing for the unknown word. *)
Definition generator (strategy : string) (min_len max_len : Z) (p : Q) (beam : Z)
    : Generator.t := {|
  min_dec_len := min_len; max_dec_len := max_len;
  bos_id := 1; eos_id := 3; unk_id := 0; mask_id := None; vocab_size := 4;
  decoding_strategy := strategy; ignore_unk := true; temperature := 1;
  num_samples := None; topk := 2; topp := p; beam_size := beam;
  length_penalty := 0; length_average := true; ngram_blocking := 0
|}.

(** Two candidates, each its own input example, with fixed logits. *)
Definition two_live : ToyState :=
  ([[0; 1; 2; 1]; [0; 3; 1; 2]], [false; false], [0; 0]).

(** One candidate that is finished before the first step. *)
Definition one_finished : ToyState :=
  ([[0; 1; 2; 1]], [true], [0]).

(** The plan [build] returns for [generator "topp_sampling" ...]. *)
Definition topp_plan : Plan := {|
  plan_beam_size := 1;
  plan_eos_penalty := [0; 0; 0; - big];
  plan_token_penalty := [- big; 0; 0; 0];
  plan_strategy := ToppSampling
|}.

(** Two records of a dialogue corpus. *)
Definition record_a : NSPReader.record := {|
  NSPReader.token_ids := [1; 5; 6; 2; 1; 7; 2]%Z;
  NSPReader.type_ids := [0; 0; 0; 0; 1; 1; 1]%Z;
  NSPReader.pos_ids := [0; 1; 2; 3; 4; 5; 6]%Z;
  NSPReader.role_ids := None;
  NSPReader.tgt_start_idx := 4;
  NSPReader.data_id := 0;
  NSPReader.label := None
|}.

Definition record_b : NSPReader.record := {|
  NSPReader.token_ids := [1; 8; 2; 1; 9; 9; 2]%Z;
  NSPReader.type_ids := [0; 0; 0; 1; 1; 1; 1]%Z;
  NSPReader.pos_ids := [0; 1; 2; 3; 4; 5; 6]%Z;
  NSPReader.role_ids := None;
  NSPReader.tgt_start_idx := 3;
  NSPReader.data_id := 1;
  NSPReader.label := None
|}.

Definition reader_config (size : Z) : NSPReader.t := {|
  NSPReader.position_style := "continuous";
  NSPReader.use_role := false;
  NSPReader.mix_negative_sample := true;
  NSPReader.neg_pool_size := size
|}.

(** The generators of the examples. *)
Definition g_topp : Generator.t := generator "topp_sampling" 3 5 (9 # 10) 10.
Definition g_topk : Generator.t := generator "topk_sampling" 1 2 (9 # 10) 10.
Definition g_unchecked : Generator.t := generator "topp_sampling" 1 5 (3 # 2) 0.
Definition g_unknown : Generator.t := generator "greedy" 1 5 (9 # 10) 10.

Definition g_beam : Generator.t := generator "beam_search" 1 5 (9 # 10) 2.

(** A generator without length averaging and with the length penalty 1. *)
Definition g_penalised : Generator.t := {|
  min_dec_len := 1; max_dec_len := 5;
  bos_id := 1; eos_id := 3; unk_id := 0; mask_id := Some 2%Z; vocab_size := 4;
  decoding_strategy := "beam_search"; ignore_unk := true; temperature := 1;
  num_samples := None; topk := 2; topp := 9 # 10; beam_size := 2;
  length_penalty := 1; length_average := false; ngram_blocking := 0
|}.

(** The plan [build] returns for [g_topk]. *)
Definition topk_plan : Plan := {|
  plan_beam_size := 1;
  plan_eos_penalty := [0; 0; 0; - big];
  plan_token_penalty := [- big; 0; 0; 0];
  plan_strategy := TopkSampling
|}.

(** The plan [build] returns for [g_beam]. *)
Definition beam_plan : Plan := {|
  plan_beam_size := 2;
  plan_eos_penalty := [0; 0; 0; - big];
  plan_token_penalty := [- big; 0; 0; 0];
  plan_strategy := BeamSearch
|}.

(** The toy model with token 3 ending a sequence, and its two inputs. *)
Definition model3 : Model := toy_model 3.
Definition live : @Inputs model3 := two_live.
Definition finished : @Inputs model3 := one_finished.

Definition no_blocker : NGramBlockingProcessor := {|
  NGramTable := unit;
  ngram_init := fun _ => tt;
  ngram_apply := fun _ logits _ => logits;
  ngram_update := fun _ _ _ _ => tt
|}.

(** A generator whose shuffle reverses the list. *)
Definition reversing_rng : NSPReader.RandomState := {|
  NSPReader.Rng := nat;
  NSPReader.shuffle := fun n pool => (rev pool, S n)
|}.

End Examples.

(** * Properties *)

Import Paddle.

(** ** Comparisons and constants *)

Lemma Qltb_lt (x y : Q) : Qltb x y = true <-> x < y.
Proof.
  unfold Qltb. rewrite negb_true_iff.
  split; intro H.
  - apply Qnot_le_lt. intro Hle. apply Qle_bool_iff in Hle. congruence.
  - destruct (Qle_bool y x) eqn:E; [|reflexivity].
    apply Qle_bool_iff in E. exfalso. apply (Qlt_not_le _ _ H E).
Qed.

Lemma Qltb_ge (x y : Q) : Qltb x y = false <-> y <= x.
Proof.
  unfold Qltb. rewrite negb_false_iff. apply Qle_bool_iff.
Qed.

Lemma tiny_pos : 0 < tiny.
Proof. reflexivity. Qed.

Lemma inject_Z_succ (z : Z) : inject_Z (z + 1) = inject_Z z + 1.
Proof.
  unfold inject_Z, Qplus. simpl. rewrite !Z.mul_1_r. reflexivity.
Qed.

(** ** Rows *)

Lemma map2_length {A B C : Type} (f : A -> B -> C) (a : list A) (b : list B) :
  length (map2 f a b) = Nat.min (length a) (length b).
Proof.
  revert b. induction a as [|x a IH]; intros [|y b]; simpl; auto.
Qed.

Lemma map2_nth {A B C : Type} (f : A -> B -> C) (a : list A) (b : list B)
    (i : nat) (da : A) (db : B) (dc : C) :
  (i < length a)%nat -> (i < length b)%nat ->
  nth i (map2 f a b) dc = f (nth i a da) (nth i b db).
Proof.
  revert b i. induction a as [|x a IH]; intros [|y b] [|i]; simpl; intros Ha Hb;
    try lia; auto.
  apply IH; lia.
Qed.

Lemma set_nth_length (i : nat) (x : Q) (a : list Q) :
  length (Numpy.set_nth i x a) = length a.
Proof.
  revert i. induction a as [|y a IH]; intros [|i]; simpl; auto.
Qed.

Lemma set_nth_same (i : nat) (x : Q) (a : list Q) :
  (i < length a)%nat -> nth i (Numpy.set_nth i x a) 0 = x.
Proof.
  revert i. induction a as [|y a IH]; intros [|i]; simpl; intro H; try lia; auto.
  apply IH. lia.
Qed.

Lemma set_nth_other (i j : nat) (x : Q) (a : list Q) :
  i <> j -> nth j (Numpy.set_nth i x a) 0 = nth j a 0.
Proof.
  revert i j. induction a as [|y a IH]; intros [|i] [|j]; simpl; intro H;
    try congruence; auto.
Qed.

Lemma zeros_nth (n i : nat) : nth i (Numpy.zeros n) 0 = 0.
Proof.
  unfold Numpy.zeros. revert i. induction n as [|n IH]; intros [|i]; simpl; auto.
Qed.

Lemma index_bound (n : nat) (i : Z) (j : nat) :
  Numpy.index n i = inr j -> (j < n)%nat.
Proof.
  unfold Numpy.index, ret.
  destruct ((0 <=? i) && (i <? Z.of_nat n))%Z eqn:E1.
  - intro H. injection H as <-. apply andb_true_iff in E1. lia.
  - destruct ((- Z.of_nat n <=? i) && (i <? 0))%Z eqn:E2; [|discriminate].
    intro H. injection H as <-. apply andb_true_iff in E2. lia.
Qed.

(** ** Sorting by descending value *)

Lemma insert_desc_perm (x : Q * nat) (l : list (Q * nat)) :
  Permutation (insert_desc x l) (x :: l).
Proof.
  induction l as [|y l IH]; simpl; [reflexivity|].
  destruct (Qle_bool (fst y) (fst x)); [reflexivity|].
  rewrite IH. apply perm_swap.
Qed.

Lemma sort_desc_perm (l : list (Q * nat)) : Permutation (sort_desc l) l.
Proof.
  induction l as [|x l IH]; simpl; [reflexivity|].
  rewrite insert_desc_perm. now constructor.
Qed.

Lemma insert_desc_sorted (x : Q * nat) (l : list (Q * nat)) :
  StronglySorted desc l -> StronglySorted desc (insert_desc x l).
Proof.
  induction l as [|y l IH]; simpl; intro Hs.
  - constructor; constructor.
  - inversion Hs as [|? ? Hl Hy]; subst.
    destruct (Qle_bool (fst y) (fst x)) eqn:E.
    + apply Qle_bool_iff in E. constructor; [assumption|].
      constructor; [exact E|].
      eapply Forall_impl; [|exact Hy].
      intros z Hz. unfold desc in *. eapply Qle_trans; eassumption.
    + constructor; [auto|].
      assert (Hxy : fst x <= fst y).
      { apply Qlt_le_weak, Qltb_lt. unfold Qltb. now rewrite E. }
      eapply Permutation_Forall; [symmetry; apply insert_desc_perm|].
      constructor; assumption.
Qed.

Lemma sort_desc_sorted (l : list (Q * nat)) : StronglySorted desc (sort_desc l).
Proof.
  induction l as [|x l IH]; simpl; [constructor|].
  now apply insert_desc_sorted.
Qed.

Lemma split_fst_snd {A B : Type} (l : list (A * B)) :
  split l = (map fst l, map snd l).
Proof.
  induction l as [|[a b] l IH]; simpl; [reflexivity|]. now rewrite IH.
Qed.

Lemma indexed_in (a : list Q) (v : Q) (i : nat) :
  In (v, i) (indexed a) <-> (i < length a)%nat /\ v = nth i a 0.
Proof.
  unfold indexed.
  assert (G : forall (s : nat) (l : list Q),
             In (v, i) (combine l (seq s (length l))) <->
             (s <= i < s + length l)%nat /\ v = nth (i - s) l 0).
  { intros s l. revert s. induction l as [|x l IH]; intro s; simpl.
    - split; [tauto|lia].
    - rewrite IH. split.
      + intros [H|[H1 H2]].
        * injection H as -> ->. rewrite Nat.sub_diag. split; [lia|reflexivity].
        * split; [lia|]. destruct (i - s)%nat as [|k] eqn:E; [lia|].
          replace (i - S s)%nat with k in H2 by lia. exact H2.
      + intros [H1 H2]. destruct (i - s)%nat as [|k] eqn:E.
        * left. f_equal; [auto|lia].
        * right. split; [lia|]. now replace (i - S s)%nat with k by lia. }
  rewrite G, Nat.sub_0_r. split; intros [H1 H2]; (split; [lia|assumption]).
Qed.

Lemma indexed_snd (a : list Q) : map snd (indexed a) = seq 0 (length a).
Proof.
  unfold indexed. generalize 0%nat.
  induction a as [|x a IH]; intro s; simpl; [reflexivity|]. now rewrite IH.
Qed.

Lemma indexed_length (a : list Q) : length (indexed a) = length a.
Proof.
  unfold indexed. rewrite length_combine, length_seq. lia.
Qed.

Lemma sort_desc_length (l : list (Q * nat)) : length (sort_desc l) = length l.
Proof. apply Permutation_length, sort_desc_perm. Qed.

Lemma sorted_nth (l : list (Q * nat)) (i j : nat) (d : Q * nat) :
  StronglySorted desc l -> (i <= j)%nat -> (j < length l)%nat ->
  desc (nth i l d) (nth j l d).
Proof.
  intros Hs. revert i j. induction Hs as [|x l Hs IH Hx]; intros i j Hij Hj.
  - simpl in Hj. lia.
  - destruct i as [|i], j as [|j]; simpl in *; try lia.
    + apply Qle_refl.
    + rewrite Forall_forall in Hx. apply Hx, nth_In. lia.
    + apply IH; lia.
Qed.

Lemma argsort_fst (a : list Q) :
  fst (argsort_desc a) = map fst (sort_desc (indexed a)).
Proof. unfold argsort_desc. now rewrite split_fst_snd. Qed.

Lemma argsort_snd (a : list Q) :
  snd (argsort_desc a) = map snd (sort_desc (indexed a)).
Proof. unfold argsort_desc. now rewrite split_fst_snd. Qed.

Lemma argsort_fst_length (a : list Q) : length (fst (argsort_desc a)) = length a.
Proof.
  now rewrite argsort_fst, length_map, sort_desc_length, indexed_length.
Qed.

Lemma argsort_snd_length (a : list Q) : length (snd (argsort_desc a)) = length a.
Proof.
  now rewrite argsort_snd, length_map, sort_desc_length, indexed_length.
Qed.

(** The indices returned by [argsort] are a permutation of the positions. *)
Lemma argsort_permutation (a : list Q) :
  Permutation (snd (argsort_desc a)) (seq 0 (length a)).
Proof.
  rewrite argsort_snd, <- indexed_snd.
  apply Permutation_map, sort_desc_perm.
Qed.

(** The value at rank [r] is the value of the token at rank [r]. *)
Lemma argsort_value (a : list Q) (r : nat) :
  (r < length a)%nat ->
  (nth r (snd (argsort_desc a)) 0 < length a)%nat /\
  nth r (fst (argsort_desc a)) 0 = nth (nth r (snd (argsort_desc a)) 0%nat) a 0.
Proof.
  intro Hr. rewrite argsort_fst, argsort_snd.
  set (l := sort_desc (indexed a)).
  assert (Hl : (r < length l)%nat).
  { unfold l. now rewrite sort_desc_length, indexed_length. }
  assert (Hin : In (nth r l (0, 0%nat)) (indexed a)).
  { eapply Permutation_in; [apply sort_desc_perm|]. now apply nth_In. }
  change 0 with (fst (0, 0%nat)) at 1.
  change 0%nat with (snd (0, 0%nat)) at 1 3.
  rewrite !map_nth.
  destruct (nth r l (0, 0%nat)) as [v i] eqn:E. simpl.
  apply indexed_in in Hin. exact Hin.
Qed.

(** Ranks are in descending order of value. *)
Lemma argsort_descending (a : list Q) (r r' : nat) :
  (r <= r')%nat -> (r' < length a)%nat ->
  nth r' (fst (argsort_desc a)) 0 <= nth r (fst (argsort_desc a)) 0.
Proof.
  intros Hrr Hr. rewrite argsort_fst.
  change 0 with (fst (0, 0%nat)). rewrite !map_nth.
  apply (sorted_nth (sort_desc (indexed a)) r r' (0, 0%nat)).
  - apply sort_desc_sorted.
  - exact Hrr.
  - now rewrite sort_desc_length, indexed_length.
Qed.

Lemma cumsum_from_length (acc : Q) (a : list Q) :
  length (cumsum_from acc a) = length a.
Proof.
  revert acc. induction a as [|x a IH]; intro acc; simpl; auto.
Qed.

Lemma cumsum_from_nth (acc : Q) (a : list Q) (r : nat) :
  (r < length a)%nat ->
  nth r (cumsum_from acc a) 0 == acc + reduce_sum (firstn r a).
Proof.
  revert acc r. induction a as [|x a IH]; intros acc [|r] Hr; simpl in *; try lia.
  - ring.
  - rewrite IH by lia. ring.
Qed.

(** Entry [r] of the exclusive cumulative sum is the sum of the entries of
    the ranks before [r]. *)
Lemma cumsum_exclusive_nth (a : list Q) (r : nat) :
  (r < length a)%nat ->
  nth r (cumsum_exclusive a) 0 == reduce_sum (firstn r a).
Proof.
  intro Hr. unfold cumsum_exclusive. rewrite cumsum_from_nth by assumption. ring.
Qed.

(** ** Top-p sampling *)

Section TopP.

Context {ops : Generator.Ops}.

Import Generator.

Lemma lt_cond_nth (topp : Q) (sorted_probs : list Q) (r : nat) :
  (r < length sorted_probs)%nat ->
  nth r (lt_cond topp sorted_probs) 0 =
  ind (Qltb (nth r (cumsum_exclusive sorted_probs) 0) topp).
Proof.
  intro Hr. unfold lt_cond.
  rewrite (nth_indep _ 0 (ind (Qltb 0 topp))).
  - apply (map_nth (fun c => ind (Qltb c topp))).
  - unfold cumsum_exclusive. now rewrite length_map, cumsum_from_length.
Qed.

Lemma candidate_probs_nth (topp : Q) (probs : list Q) (r : nat) :
  (r < length probs)%nat ->
  nth r (candidate_probs topp probs) 0 =
  nth r (fst (argsort_desc probs)) 0 *
  ind (Qltb (nth r (cumsum_exclusive (fst (argsort_desc probs))) 0) topp).
Proof.
  intro Hr. unfold candidate_probs, vmul.
  assert (Hs : (r < length (fst (argsort_desc probs)))%nat)
    by now rewrite argsort_fst_length.
  rewrite (map2_nth Qmult _ _ r 0 0 0).
  - now rewrite lt_cond_nth.
  - exact Hs.
  - unfold lt_cond, cumsum_exclusive. now rewrite length_map, cumsum_from_length.
Qed.

Lemma candidate_probs_length (topp : Q) (probs : list Q) :
  length (candidate_probs topp probs) = length probs.
Proof.
  unfold candidate_probs, vmul, lt_cond, cumsum_exclusive.
  rewrite map2_length, length_map, cumsum_from_length, argsort_fst_length. lia.
Qed.

(** C3.  Top-p sampling sorts the tokens by descending probability
    ([sorted_idx] is a permutation of the token ids, [sorted_probs] lists
    their probabilities in descending order), keeps the probability of a rank
    exactly when the sum of the probabilities of the ranks before it is
    strictly below [topp] and zeroes it otherwise, divides the kept
    probabilities by their sum, draws a rank from that distribution and
    returns the token [sorted_idx] holds at the drawn rank.  For the
    distribution a:0.5, b:0.3, c:0.15, d:0.05 and [topp = 0.9] the kept tokens
    are exactly a, b, c. *)
Theorem topp_sampling_keeps_prefix_below_topp
    (step : Z) (row : nat) (topp : Q) (probs : list Q) :
  let sorted_probs := fst (argsort_desc probs) in
  let sorted_idx := snd (argsort_desc probs) in
  let kept := candidate_probs topp probs in
  let dist := topp_sampling_probs topp probs in
  Permutation sorted_idx (seq 0 (length probs)) /\
  (forall r r', (r <= r')%nat -> (r' < length probs)%nat ->
     nth r' sorted_probs 0 <= nth r sorted_probs 0) /\
  (forall r, (r < length probs)%nat ->
     nth r sorted_probs 0 = nth (nth r sorted_idx 0%nat) probs 0 /\
     (reduce_sum (firstn r sorted_probs) < topp ->
        nth r kept 0 == nth r sorted_probs 0) /\
     (topp <= reduce_sum (firstn r sorted_probs) -> nth r kept 0 == 0) /\
     nth r dist 0 == nth r kept 0 / reduce_sum kept) /\
  topp_sampling_ids step row topp probs
    = nth (sampling_id step row dist) sorted_idx 0%nat /\
  kept_tokens (9 # 10) [1 # 2; 3 # 10; 3 # 20; 1 # 20] = [0; 1; 2]%nat.
Proof.
  intros sorted_probs sorted_idx kept dist.
  split; [apply argsort_permutation|].
  split; [intros r r' H1 H2; now apply argsort_descending|].
  split; [|split; [reflexivity|vm_compute; reflexivity]].
  intros r Hr.
  assert (Hs : (r < length sorted_probs)%nat)
    by (unfold sorted_probs; now rewrite argsort_fst_length).
  pose proof (cumsum_exclusive_nth sorted_probs r Hs) as Hc.
  split; [apply (argsort_value probs r Hr)|].
  split; [|split].
  - intro Hlt. unfold kept. rewrite candidate_probs_nth by assumption.
    fold sorted_probs.
    rewrite <- Hc in Hlt. apply Qltb_lt in Hlt. rewrite Hlt. simpl. ring.
  - intro Hge. unfold kept. rewrite candidate_probs_nth by assumption.
    fold sorted_probs.
    rewrite <- Hc in Hge. apply Qltb_ge in Hge. rewrite Hge. simpl. ring.
  - unfold dist, topp_sampling_probs. fold kept.
    rewrite (nth_indep _ 0 (0 / reduce_sum kept)).
    + rewrite (map_nth (fun x => x / reduce_sum kept)). reflexivity.
    + rewrite length_map. unfold kept. now rewrite candidate_probs_length.
Qed.

Lemma indexed_fst (a : list Q) : map fst (indexed a) = a.
Proof.
  unfold indexed. generalize 0%nat.
  induction a as [|x a IH]; intro n; simpl; [reflexivity|]. now rewrite IH.
Qed.

Lemma argsort_values_permutation (a : list Q) :
  Permutation (fst (argsort_desc a)) a.
Proof.
  rewrite argsort_fst. rewrite <- (indexed_fst a) at 2.
  apply Permutation_map, sort_desc_perm.
Qed.

Lemma reduce_sum_firstn_mono (a : list Q) (r r' : nat) :
  Forall (fun x => 0 <= x) a -> (r <= r')%nat ->
  reduce_sum (firstn r a) <= reduce_sum (firstn r' a).
Proof.
  intro Ha. revert r r'.
  induction Ha as [|x a Hx Ha IH]; intros r r' Hr.
  - rewrite !firstn_nil. apply Qle_refl.
  - destruct r as [|r], r' as [|r']; simpl; try lia.
    + apply Qle_refl.
    + assert (H0 : reduce_sum (firstn 0 a) <= reduce_sum (firstn r' a))
        by (apply IH; lia).
      simpl in H0. lra.
    + assert (H1 : reduce_sum (firstn r a) <= reduce_sum (firstn r' a))
        by (apply IH; lia).
      lra.
Qed.

(** For a distribution without negative entries the kept ranks form a prefix
    of the sort order: a rank before a kept rank is kept. *)
Lemma kept_ranks_form_prefix (topp : Q) (probs : list Q) (r r' : nat) :
  Forall (fun x => 0 <= x) probs -> (r <= r')%nat ->
  reduce_sum (firstn r' (fst (argsort_desc probs))) < topp ->
  reduce_sum (firstn r (fst (argsort_desc probs))) < topp.
Proof.
  intros Hpos Hr Hlt.
  eapply Qle_lt_trans; [|exact Hlt].
  apply reduce_sum_firstn_mono; [|exact Hr].
  eapply Permutation_Forall; [symmetry; apply argsort_values_permutation|exact Hpos].
Qed.

Lemma reduce_sum_scaled (c : Q) (a : list Q) :
  reduce_sum (map (fun x => x / c) a) == reduce_sum a / c.
Proof.
  induction a as [|x a IH]; simpl.
  - unfold Qdiv. ring.
  - rewrite IH. unfold Qdiv. ring.
Qed.

(** The distribution the rank is drawn from sums to 1 as soon as some
    probability is kept. *)
Lemma topp_sampling_probs_normalised (topp : Q) (probs : list Q) :
  ~ reduce_sum (candidate_probs topp probs) == 0 ->
  reduce_sum (topp_sampling_probs topp probs) == 1.
Proof.
  intro H. unfold topp_sampling_probs. rewrite reduce_sum_scaled.
  now field.
Qed.

End TopP.

(** ** Scores *)

Section Scores.

Context {ops : Generator.Ops}.

Import Generator.

Lemma small_prob_cond_small (s : Q) : s < tiny -> small_prob_cond s = 1.
Proof.
  intro H. unfold small_prob_cond. apply Qltb_lt in H. now rewrite H.
Qed.

Lemma small_prob_cond_large (s : Q) : tiny <= s -> small_prob_cond s = 0.
Proof.
  intro H. unfold small_prob_cond. apply Qltb_ge in H. now rewrite H.
Qed.

(** C6.  A proposal whose probability is strictly below [1e-9] is replaced by
    exactly [1e-9] before the logarithm of line 227 is taken, a proposal at or
    above [1e-9] is passed unchanged; so the argument of the logarithm is
    never below [1e-9], in particular never zero or negative, and no score is
    minus infinity.  The clamp is total: it has no failing case. *)
Theorem clamp_small_lifts_underflow (topk_score : Q) :
  (topk_score < tiny -> clamp_small topk_score == tiny) /\
  (tiny <= topk_score -> clamp_small topk_score == topk_score) /\
  tiny <= clamp_small topk_score /\
  0 < clamp_small topk_score.
Proof.
  assert (H1 : topk_score < tiny -> clamp_small topk_score == tiny).
  { intro H. unfold clamp_small. rewrite (small_prob_cond_small _ H). ring. }
  assert (H2 : tiny <= topk_score -> clamp_small topk_score == topk_score).
  { intro H. unfold clamp_small. rewrite (small_prob_cond_large _ H). ring. }
  assert (H3 : tiny <= clamp_small topk_score).
  { destruct (Qlt_le_dec topk_score tiny) as [H|H].
    - rewrite (H1 H). apply Qle_refl.
    - now rewrite (H2 H). }
  repeat split; try assumption.
  eapply Qlt_le_trans; [apply tiny_pos|exact H3].
Qed.

(** The value of lines 230-240.  With [L_prev] the step index before the step
    and [L_cur] the step index after it ([L_cur = L_prev + 1]), the score
    computed from the log-probability [l] and the previous score [S_prev] is
    [(l + S_prev * L_prev) / L_cur] when [length_average] is set; otherwise
    [(l + S_prev * lp L_prev) / lp L_cur] with
    [lp L = ((5 + L) / 6) ^ length_penalty] when [length_penalty > 0];
    otherwise [l + S_prev].  For a candidate that is not finished and a
    proposal at or above [1e-9] this is the score the whole update returns.
    Under length averaging the log-probabilities -1, -2, -1 over steps 0, 1, 2
    give -4/3, whatever the initial score. *)
Lemma accu_scores_follows_policy (g : t) (step : Z) (l S_prev : Q) :
  let L_prev := inject_Z step in
  let L_cur := inject_Z (step + 1) in
  let lp := fun L => pow ((5 + L) / 6) (length_penalty g) in
  L_cur = L_prev + 1 /\
  (length_average g = true ->
     accu_scores g l S_prev L_prev L_cur == (l + S_prev * L_prev) / L_cur) /\
  (length_average g = false -> 0 < length_penalty g ->
     accu_scores g l S_prev L_prev L_cur == (l + S_prev * lp L_prev) / lp L_cur) /\
  (length_average g = false -> ~ 0 < length_penalty g ->
     accu_scores g l S_prev L_prev L_cur == l + S_prev) /\
  (forall topk_score, tiny <= topk_score ->
     update_score g step false S_prev topk_score
     == accu_scores g (log (clamp_small topk_score)) S_prev L_prev L_cur) /\
  (length_average g = true ->
     forall S0, accumulate g 0 S0 [-(1); -(2); -(1)] == -(4 # 3)).
Proof.
  intros L_prev L_cur lp.
  split; [apply inject_Z_succ|].
  split; [intro Ha; unfold accu_scores; rewrite Ha; reflexivity|].
  split.
  { intros Ha Hp. unfold accu_scores. rewrite Ha.
    apply Qltb_lt in Hp. rewrite Hp. reflexivity. }
  split.
  { intros Ha Hp. unfold accu_scores. rewrite Ha.
    destruct (Qltb 0 (length_penalty g)) eqn:E.
    - apply Qltb_lt in E. contradiction.
    - reflexivity. }
  split.
  { intros s Hs. unfold update_score, mask_finished. cbv zeta.
    rewrite (small_prob_cond_large _ Hs). unfold ind. subst L_prev L_cur. ring. }
  intros Ha S0. unfold accumulate, accu_scores. rewrite Ha. simpl.
  unfold inject_Z. field.
Qed.

(** C4, as the code has it.  For a candidate whose [is_finished] flag is set,
    the masking of lines 241-243 returns the previous score whatever the new
    step contributed; the update returns that previous score for every
    proposal whose probability is at least [1e-9].  A proposal whose
    probability is below [1e-9] is given [-1e9] by line 244, whether the
    candidate is finished or not. *)
Theorem finished_score_is_frozen (g : t) (step : Z) (pre_score topk_score : Q) :
  (forall accu, mask_finished accu pre_score true == pre_score) /\
  (tiny <= topk_score ->
     update_score g step true pre_score topk_score == pre_score) /\
  (topk_score < tiny ->
     forall fin, update_score g step fin pre_score topk_score == - big).
Proof.
  split; [intro accu; unfold mask_finished, ind; ring|].
  split; intro H.
  - unfold update_score, mask_finished; cbv zeta.
    rewrite (small_prob_cond_large _ H). unfold ind. ring.
  - intro fin. unfold update_score, mask_finished; cbv zeta.
    rewrite (small_prob_cond_small _ H). unfold ind. ring.
Qed.

(** C1, as the code has it.  With [L_prev] the step index before the step,
    [L_cur = L_prev + 1] the step index after it and [l] the logarithm of
    line 227, the update of lines 220-244 gives a candidate that is not
    finished, for a proposal whose probability is at least [1e-9]:
    [(l + S_prev * L_prev) / L_cur] when [length_average] is set; otherwise
    [(l + S_prev * lp L_prev) / lp L_cur] with
    [lp L = ((5 + L) / 6) ^ length_penalty] when [length_penalty > 0];
    otherwise [l + S_prev].  For a proposal whose probability is below
    [1e-9] it gives [-1e9] instead, whatever the policy.  Under length
    averaging, a candidate that stays live over the steps 0, 1, 2 with
    proposals of log-probabilities -1, -2, -1 ends with the score -4/3,
    whatever its initial score. *)
Theorem update_score_follows_policy (g : t) (step : Z) (S_prev topk_score : Q) :
  let L_prev := inject_Z step in
  let L_cur := inject_Z (step + 1) in
  let lp := fun L => pow ((5 + L) / 6) (length_penalty g) in
  let l := log (clamp_small topk_score) in
  L_cur = L_prev + 1 /\
  (tiny <= topk_score ->
     (length_average g = true ->
        update_score g step false S_prev topk_score
        == (l + S_prev * L_prev) / L_cur) /\
     (length_average g = false -> 0 < length_penalty g ->
        update_score g step false S_prev topk_score
        == (l + S_prev * lp L_prev) / lp L_cur) /\
     (length_average g = false -> ~ 0 < length_penalty g ->
        update_score g step false S_prev topk_score == l + S_prev)) /\
  (topk_score < tiny ->
     update_score g step false S_prev topk_score == - big) /\
  (length_average g = true ->
     forall S0 p1 p2 p3,
       tiny <= p1 -> tiny <= p2 -> tiny <= p3 ->
       log (clamp_small p1) == -(1) -> log (clamp_small p2) == -(2) ->
       log (clamp_small p3) == -(1) ->
       scores_over g 0 S0 [(false, p1); (false, p2); (false, p3)] == -(4 # 3)).
Proof.
  intros L_prev L_cur lp l.
  assert (Hlive : forall k S p, tiny <= p ->
            update_score g k false S p
            == accu_scores g (log (clamp_small p)) S (inject_Z k) (inject_Z (k + 1))).
  { intros k S p Hp. unfold update_score, mask_finished. cbv zeta.
    rewrite (small_prob_cond_large _ Hp). unfold ind. ring. }
  split; [apply inject_Z_succ|].
  split.
  { intro Hs. rewrite (Hlive step S_prev topk_score Hs).
    split; [|split].
    - intro Ha. unfold accu_scores. rewrite Ha. reflexivity.
    - intros Ha Hp. unfold accu_scores. rewrite Ha.
      apply Qltb_lt in Hp. rewrite Hp. reflexivity.
    - intros Ha Hp. unfold accu_scores. rewrite Ha.
      destruct (Qltb 0 (length_penalty g)) eqn:E; [|reflexivity].
      apply Qltb_lt in E. contradiction. }
  split.
  { intro Hs. unfold update_score, mask_finished. cbv zeta.
    rewrite (small_prob_cond_small _ Hs). unfold ind. ring. }
  intros Ha S0 p1 p2 p3 H1 H2 H3 E1 E2 E3.
  unfold scores_over.
  rewrite (Hlive (0 + 1 + 1)%Z _ p3 H3).
  unfold accu_scores at 1. rewrite Ha, E3.
  rewrite (Hlive (0 + 1)%Z _ p2 H2).
  unfold accu_scores at 1. rewrite Ha, E2.
  rewrite (Hlive 0%Z _ p1 H1).
  unfold accu_scores at 1. rewrite Ha, E1.
  simpl. unfold inject_Z. field.
Qed.

End Scores.

(** ** Penalties on the logits *)

Section Penalties.

Import Generator.

Lemma vadd_nth (a b : list Q) (i : nat) :
  (i < length a)%nat -> (i < length b)%nat ->
  nth i (vadd a b) 0 = nth i a 0 + nth i b 0.
Proof. intros Ha Hb. unfold vadd. now apply map2_nth. Qed.

Lemma vsub_nth (a b : list Q) (i : nat) :
  (i < length a)%nat -> (i < length b)%nat ->
  nth i (vsub a b) 0 = nth i a 0 - nth i b 0.
Proof. intros Ha Hb. unfold vsub. now apply map2_nth. Qed.

Lemma vscale_nth (c : Q) (a : list Q) (i : nat) :
  (i < length a)%nat -> nth i (vscale c a) 0 = c * nth i a 0.
Proof.
  intro Ha. unfold vscale. rewrite (nth_indep _ 0 (c * 0)).
  - apply map_nth.
  - now rewrite length_map.
Qed.

Lemma rows_eq_nth (a b : list Q) :
  length a = length b ->
  (forall i, (i < length a)%nat -> nth i a 0 == nth i b 0) ->
  Forall2 Qeq a b.
Proof.
  revert b. induction a as [|x a IH]; intros [|y b] Hl H; simpl in Hl;
    try discriminate; constructor.
  - apply (H 0%nat). simpl. lia.
  - apply IH; [lia|]. intros i Hi. apply (H (S i)). simpl. lia.
Qed.

(** The penalty row of lines 130-132: [-1e9] at the end-of-sequence token,
    zero elsewhere. *)
Lemma eos_penalty_entries (g : t) (pen : list Q) (j : nat) :
  eos_penalty g = inr pen ->
  Numpy.index (vocab_size g) (eos_id g) = inr j ->
  length pen = vocab_size g /\
  nth j pen 0 = - big /\
  (forall i, i <> j -> nth i pen 0 = 0).
Proof.
  unfold eos_penalty, Numpy.setitem, Numpy.zeros, bind, ret.
  rewrite repeat_length. intros Hp Hj. rewrite Hj in Hp. injection Hp as <-.
  pose proof (index_bound _ _ _ Hj) as Hb.
  split; [now rewrite set_nth_length, repeat_length|].
  split.
  - apply set_nth_same. now rewrite repeat_length.
  - intros i Hi. rewrite set_nth_other by congruence. apply zeros_nth.
Qed.

Lemma min_len_case_length (step min_len : Z) (logits pen : list Q) :
  length pen = length logits ->
  length (min_len_case step min_len logits pen) = length logits.
Proof.
  intro H. unfold min_len_case, vadd. destruct (step <? min_len)%Z; [|reflexivity].
  rewrite map2_length. lia.
Qed.

(** The logits that enter the softmax, entry by entry. *)
Lemma penalized_logits_nth (step min_len : Z) (fin : bool) (pen logits : list Q)
    (i : nat) :
  length pen = length logits -> (i < length logits)%nat ->
  nth i (penalized_logits step min_len fin pen logits) 0
  = nth i (min_len_case step min_len logits pen) 0 - ind fin * nth i pen 0.
Proof.
  intros Hl Hi. unfold penalized_logits, the_eos_penalty.
  rewrite vsub_nth.
  - rewrite vscale_nth by lia. reflexivity.
  - rewrite min_len_case_length; assumption.
  - unfold vscale. rewrite length_map. lia.
Qed.

(** C5.  At every step whose index is strictly below [min_dec_len] the
    minimum-length case of lines 163-171 adds [-1e9] to the logit of the
    end-of-sequence token and leaves the other logits alone, and for a
    candidate that is not finished this penalised logit is the one the
    softmax receives; with [min_dec_len = 3] this holds at steps 0, 1 and 2.
    At a step at or after [min_dec_len] the case returns the logits unchanged:
    no such penalty is applied. *)
Theorem min_length_penalises_eos (g : t) (pen logits : list Q) (j : nat) :
  eos_penalty g = inr pen ->
  Numpy.index (vocab_size g) (eos_id g) = inr j ->
  length logits = vocab_size g ->
  forall step : Z,
  ((step < min_dec_len g)%Z ->
     nth j (min_len_case step (min_dec_len g) logits pen) 0
       == nth j logits 0 - big /\
     (forall i, i <> j ->
        nth i (min_len_case step (min_dec_len g) logits pen) 0 == nth i logits 0) /\
     nth j (penalized_logits step (min_dec_len g) false pen logits) 0
       == nth j logits 0 - big) /\
  ((min_dec_len g <= step)%Z ->
     min_len_case step (min_dec_len g) logits pen = logits /\
     nth j (penalized_logits step (min_dec_len g) false pen logits) 0
       == nth j logits 0) /\
  (min_dec_len g = 3%Z ->
     forall s, In s [0; 1; 2]%Z ->
     nth j (penalized_logits s (min_dec_len g) false pen logits) 0
       == nth j logits 0 - big).
Proof.
  intros Hp Hj Hl step.
  destruct (eos_penalty_entries g pen j Hp Hj) as (Hlen & Hpj & Hpo).
  pose proof (index_bound _ _ _ Hj) as Hb.
  assert (Hll : length pen = length logits) by congruence.
  assert (Hjl : (j < length logits)%nat) by lia.
  assert (Hpen : forall s, (s < min_dec_len g)%Z ->
            nth j (penalized_logits s (min_dec_len g) false pen logits) 0
            == nth j logits 0 - big).
  { intros s Hs. rewrite penalized_logits_nth by assumption.
    unfold min_len_case. apply Z.ltb_lt in Hs. rewrite Hs.
    rewrite vadd_nth by lia. rewrite Hpj. unfold ind. ring. }
  split; [|split].
  - intro Hs. split; [|split; [|now apply Hpen]].
    + unfold min_len_case. apply Z.ltb_lt in Hs. rewrite Hs.
      rewrite vadd_nth by lia. rewrite Hpj. ring.
    + intros i Hi. unfold min_len_case. apply Z.ltb_lt in Hs. rewrite Hs.
      destruct (Nat.lt_ge_cases i (length logits)) as [Hil|Hil].
      * rewrite vadd_nth by lia. rewrite (Hpo i Hi). ring.
      * rewrite !nth_overflow; [reflexivity|lia|].
        unfold vadd. rewrite map2_length. lia.
  - intro Hs. assert (E : (step <? min_dec_len g)%Z = false) by now apply Z.ltb_ge.
    split.
    + unfold min_len_case. now rewrite E.
    + rewrite penalized_logits_nth by assumption.
      unfold min_len_case. rewrite E. unfold ind. ring.
  - intros H3 s Hs. apply Hpen. rewrite H3. simpl in Hs.
    destruct Hs as [<-|[<-|[<-|[]]]]; reflexivity.
Qed.

(** Lines 163-174 in exact arithmetic.  For a candidate that is already
    finished, at a step whose index is strictly below [min_dec_len] the
    [-1e9] added by the minimum-length case and the [is_finished * (-1e9)]
    subtracted on lines 173-174 cancel: every logit, the end-of-sequence one
    included, comes out at the value it had when it entered the case.  The
    end-of-sequence logit is raised by [1e9] above that value only at a step
    at or after [min_dec_len]. *)
Lemma finished_cancels_min_length_penalty (g : t) (pen logits : list Q) (j : nat) :
  eos_penalty g = inr pen ->
  Numpy.index (vocab_size g) (eos_id g) = inr j ->
  length logits = vocab_size g ->
  forall step : Z,
  ((step < min_dec_len g)%Z ->
     Forall2 Qeq (penalized_logits step (min_dec_len g) true pen logits) logits /\
     nth j (penalized_logits step (min_dec_len g) true pen logits) 0
       == nth j logits 0 /\
     (forall raw tok_pen, logits = vadd raw tok_pen ->
        length raw = vocab_size g -> length tok_pen = vocab_size g ->
        nth j (penalized_logits step (min_dec_len g) true pen logits) 0
          == nth j raw 0 + nth j tok_pen 0)) /\
  ((min_dec_len g <= step)%Z ->
     nth j (penalized_logits step (min_dec_len g) true pen logits) 0
       == nth j logits 0 + big /\
     (forall i, i <> j -> (i < vocab_size g)%nat ->
        nth i (penalized_logits step (min_dec_len g) true pen logits) 0
          == nth i logits 0)).
Proof.
  intros Hp Hj Hl step.
  destruct (eos_penalty_entries g pen j Hp Hj) as (Hlen & Hpj & Hpo).
  pose proof (index_bound _ _ _ Hj) as Hb.
  assert (Hll : length pen = length logits) by congruence.
  assert (Hjl : (j < length logits)%nat) by lia.
  split.
  - intro Hs. apply Z.ltb_lt in Hs.
    assert (Hall : forall i, (i < length logits)%nat ->
              nth i (penalized_logits step (min_dec_len g) true pen logits) 0
              == nth i logits 0).
    { intros i Hi. rewrite penalized_logits_nth by assumption.
      unfold min_len_case. rewrite Hs. rewrite vadd_nth by lia.
      unfold ind. ring. }
    split; [|split].
    + apply rows_eq_nth.
      * unfold penalized_logits, the_eos_penalty, vsub, vscale.
        rewrite map2_length, length_map, min_len_case_length by assumption. lia.
      * intros i Hi. apply Hall.
        unfold penalized_logits, the_eos_penalty, vsub, vscale in Hi.
        rewrite map2_length, length_map, min_len_case_length in Hi by assumption.
        lia.
    + now apply Hall.
    + intros raw tok Hr Hr1 Hr2. rewrite (Hall j Hjl). rewrite Hr.
      rewrite vadd_nth by lia. reflexivity.
  - intro Hs. assert (E : (step <? min_dec_len g)%Z = false) by now apply Z.ltb_ge.
    split.
    + rewrite penalized_logits_nth by assumption.
      unfold min_len_case. rewrite E, Hpj. unfold ind. ring.
    + intros i Hi Hiv. rewrite penalized_logits_nth by (try assumption; lia).
      unfold min_len_case. rewrite E, (Hpo i Hi). unfold ind. ring.
Qed.

End Penalties.

(** ** The penalties of lines 163-174 in single precision *)

Section SinglePrecision.

Import Generator.

Lemma nearest_even_near (q : Q) (n : Z) :
  inject_Z n - (1 # 2) < q -> q < inject_Z n + (1 # 2) ->
  Float32.nearest_even q = n.
Proof.
  intros Hlo Hhi. unfold Float32.nearest_even.
  pose proof (Qfloor_le q) as Hf1. pose proof (Qlt_floor q) as Hf2.
  rewrite inject_Z_plus in Hf2. change (inject_Z 1) with 1 in Hf2.
  assert (Hc : (Qfloor q = n \/ Qfloor q = n - 1)%Z).
  { assert (H1 : inject_Z (Qfloor q) < inject_Z (n + 1)).
    { rewrite inject_Z_plus. change (inject_Z 1) with 1. lra. }
    assert (H2 : inject_Z (n + -1) < inject_Z (Qfloor q + 1)).
    { rewrite !inject_Z_plus. change (inject_Z 1) with 1.
      change (inject_Z (-1)) with (-(1)). lra. }
    rewrite <- Zlt_Qlt in H1, H2. lia. }
  assert (Hm : inject_Z (n - 1) == inject_Z n - 1).
  { unfold Z.sub. rewrite inject_Z_plus, inject_Z_opp.
    change (inject_Z 1) with 1. ring. }
  destruct (Qcompare_spec (q - inject_Z (Qfloor q)) (1 # 2)) as [H|H|H];
    destruct Hc as [E|E]; rewrite E in *; try lra; try reflexivity; lia.
Qed.

(** Between [2^29] and [2^30] the [float32] values are 64 apart. *)
Lemma ulp_binade_29 (v : Q) :
  inject_Z (2 ^ 29) <= Qabs v -> Qabs v < inject_Z (2 ^ 30) ->
  Float32.ulp v = 64.
Proof.
  intros Hlo Hhi. unfold Float32.ulp, Float32.exponent.
  assert (H1 : Qle_bool 1 (Qabs v) = true).
  { apply Qle_bool_iff.
    apply Qle_trans with (inject_Z (2 ^ 29)); [discriminate|exact Hlo]. }
  rewrite H1.
  assert (E : Z.log2 (Qfloor (Qabs v)) = 29%Z).
  { apply Z.log2_unique; [lia|]. split.
    - rewrite <- (Qfloor_Z (2 ^ 29)). now apply Qfloor_resp_le.
    - change (Z.succ 29) with 30%Z. rewrite Zlt_Qlt.
      apply Qle_lt_trans with (Qabs v); [apply Qfloor_le|exact Hhi]. }
  rewrite E. reflexivity.
Qed.

(** A number less than 32 away from a multiple [64 * n] of 64 with
    [2^23 < |n| < 2^24] is rounded to that multiple. *)
Lemma nearest_binade_29 (v : Q) (n : Z) :
  (2 ^ 23 < Z.abs n < 2 ^ 24)%Z ->
  inject_Z n * 64 - 32 < v -> v < inject_Z n * 64 + 32 ->
  Float32.nearest v = inject_Z n * 64.
Proof.
  intros Hn Hlo Hhi.
  assert (Hlo' : inject_Z (2 ^ 29) <= Qabs v).
  { destruct (Z.abs_spec n) as [[Hs Ea]|[Hs Ea]]; rewrite Ea in Hn.
    - apply Qle_trans with v; [|apply Qle_Qabs].
      assert (H : inject_Z (2 ^ 23 + 1) <= inject_Z n) by (rewrite <- Zle_Qle; lia).
      change (inject_Z (2 ^ 23 + 1)) with 8388609 in H.
      change (inject_Z (2 ^ 29)) with 536870912. lra.
    - apply Qle_trans with (- v); [|rewrite <- Qabs_opp; apply Qle_Qabs].
      assert (H : inject_Z n <= inject_Z (- (2 ^ 23 + 1)))
        by (rewrite <- Zle_Qle; lia).
      change (inject_Z (- (2 ^ 23 + 1))) with (-(8388609)) in H.
      change (inject_Z (2 ^ 29)) with 536870912. lra. }
  assert (Hhi' : Qabs v < inject_Z (2 ^ 30)).
  { apply Qabs_Qlt_condition.
    assert (H : inject_Z (- (2 ^ 24 - 1)) <= inject_Z n)
      by (rewrite <- Zle_Qle; lia).
    assert (H0 : inject_Z n <= inject_Z (2 ^ 24 - 1)) by (rewrite <- Zle_Qle; lia).
    change (inject_Z (- (2 ^ 24 - 1))) with (-(16777215)) in H.
    change (inject_Z (2 ^ 24 - 1)) with 16777215 in H0.
    change (inject_Z (2 ^ 30)) with 1073741824. lra. }
  unfold Float32.nearest.
  assert (Hz : Qeq_bool v 0 = false).
  { destruct (Qeq_bool v 0) eqn:E; [|reflexivity].
    apply Qeq_bool_eq in E. rewrite E in Hlo'. vm_compute in Hlo'. now elim Hlo'. }
  rewrite Hz, (ulp_binade_29 v Hlo' Hhi').
  rewrite (nearest_even_near (v / 64) n); [reflexivity| |].
  - apply Qlt_shift_div_l; [reflexivity|]. lra.
  - apply Qlt_shift_div_r; [reflexivity|]. lra.
Qed.

(** [x + (-1e9)] is [-1e9] in [float32] for every [x] with [|x| < 32]. *)
Lemma round_near_minus_big (x : Q) :
  -(32) < x -> x < 32 -> Float32.round (x + - big) = Some (- big).
Proof.
  intros Hlo Hhi. unfold Float32.round.
  rewrite (nearest_binade_29 _ (-15625000)).
  - reflexivity.
  - lia.
  - change (inject_Z (-15625000)) with (-(15625000)). unfold big. lra.
  - change (inject_Z (-15625000)) with (-(15625000)). unfold big. lra.
Qed.

(** [x - (-1e9)] is [1e9] in [float32] for every [x] with [|x| < 32]. *)
Lemma round_near_big (x : Q) :
  -(32) < x -> x < 32 -> Float32.round (x - - big) = Some big.
Proof.
  intros Hlo Hhi. unfold Float32.round.
  rewrite (nearest_binade_29 _ 15625000).
  - reflexivity.
  - lia.
  - change (inject_Z 15625000) with 15625000. unfold big. lra.
  - change (inject_Z 15625000) with 15625000. unfold big. lra.
Qed.

(** Rounding does not depend on the fraction that represents a number. *)
Lemma ulp_comp (x y : Q) : x == y -> Float32.ulp x = Float32.ulp y.
Proof.
  intro H. unfold Float32.ulp, Float32.exponent.
  assert (E1 : Qle_bool 1 (Qabs x) = Qle_bool 1 (Qabs y)) by now rewrite H.
  assert (E2 : Qfloor (Qabs x) = Qfloor (Qabs y)) by now rewrite H.
  assert (E3 : Qceiling (/ Qabs x) = Qceiling (/ Qabs y)) by now rewrite H.
  now rewrite E1, E2, E3.
Qed.

Lemma nearest_even_comp (x y : Q) :
  x == y -> Float32.nearest_even x = Float32.nearest_even y.
Proof.
  intro H. unfold Float32.nearest_even.
  assert (E1 : Qfloor x = Qfloor y) by now rewrite H.
  assert (E2 : Qcompare (x - inject_Z (Qfloor x)) (1 # 2)
               = Qcompare (y - inject_Z (Qfloor y)) (1 # 2)) by now rewrite E1, H.
  now rewrite E2, E1.
Qed.

Lemma nearest_comp (x y : Q) : x == y -> Float32.nearest x == Float32.nearest y.
Proof.
  intro H. unfold Float32.nearest. rewrite (ulp_comp x y H).
  rewrite (nearest_even_comp (x / Float32.ulp y) (y / Float32.ulp y))
    by now rewrite H.
  assert (E : Qeq_bool x 0 = Qeq_bool y 0) by now rewrite H.
  rewrite E. reflexivity.
Qed.

Lemma round_comp (x y : Q) : x == y -> Float32.round x = Float32.round y.
Proof.
  intro H. unfold Float32.round. pose proof (nearest_comp x y H) as Hn.
  assert (E : Qle_bool (Qabs (Float32.nearest x)) Float32.max_finite
              = Qle_bool (Qabs (Float32.nearest y)) Float32.max_finite)
    by now rewrite Hn.
  cbv zeta. rewrite E, (Qred_complete _ _ Hn). reflexivity.
Qed.

Lemma of_row_nth (l : list Q) (i : nat) :
  (i < length l)%nat ->
  nth i (Float32.of_row l) None = Float32.round (nth i l 0).
Proof.
  intro H. unfold Float32.of_row.
  rewrite (nth_indep _ None (Float32.round 0)) by now rewrite length_map.
  apply map_nth.
Qed.

Lemma of_row_length (l : list Q) : length (Float32.of_row l) = length l.
Proof. unfold Float32.of_row. apply length_map. Qed.

(** The [float32] logits that enter the softmax, entry by entry. *)
Lemma penalized_logits_f32_nth (step min_len : Z) (fin : bool)
    (pen logits : list Float32.t) (i : nat) :
  length pen = length logits -> (i < length logits)%nat ->
  nth i (penalized_logits_f32 step min_len fin pen logits) None
  = Float32.sub (nth i (min_len_case_f32 step min_len logits pen) None)
                (Float32.mul (Float32.round (ind fin)) (nth i pen None)).
Proof.
  intros Hl Hi. unfold penalized_logits_f32, the_eos_penalty_f32.
  rewrite (@map2_nth Float32.t Float32.t Float32.t _ _ _ i None
             (Float32.mul (Float32.round (ind fin)) None) None).
  - now rewrite map_nth.
  - unfold min_len_case_f32. destruct (step <? min_len)%Z; [|exact Hi].
    rewrite map2_length. lia.
  - rewrite length_map. lia.
Qed.

(** C10, as the code has it.  The tensors hold [float32] values, and for a
    candidate that is already finished the [-1e9] of the minimum-length case
    and the [is_finished * (-1e9)] of lines 173-174 do not cancel exactly.
    For an end-of-sequence logit [x] with [|x| < 32] when it enters the case,
    at a step whose index is strictly below [min_dec_len] the sum
    [x + (-1e9)] is rounded to [-1e9] and the subtraction leaves [0.0], not
    [x]; every other logit that holds a [float32] value is left as it is.  The
    end-of-sequence logit is not raised to [1e9] during the minimum-length
    phase; it is [1e9] at every step at or after [min_dec_len]. *)
Theorem finished_eos_logit_in_float32 (g : t) (pen : list Q)
    (logits : list Float32.t) (j : nat) (x : Q) :
  eos_penalty g = inr pen ->
  Numpy.index (vocab_size g) (eos_id g) = inr j ->
  length logits = vocab_size g ->
  nth j logits None = Some x ->
  -(32) < x -> x < 32 ->
  forall step : Z,
  ((step < min_dec_len g)%Z ->
     nth j (min_len_case_f32 step (min_dec_len g) logits (Float32.of_row pen)) None
       = Some (- big) /\
     nth j (penalized_logits_f32 step (min_dec_len g) true
              (Float32.of_row pen) logits) None = Some 0) /\
  ((min_dec_len g <= step)%Z ->
     nth j (penalized_logits_f32 step (min_dec_len g) true
              (Float32.of_row pen) logits) None = Some big) /\
  (forall i y, i <> j -> nth i logits None = Some y ->
     Float32.round y = Some y ->
     nth i (penalized_logits_f32 step (min_dec_len g) true
              (Float32.of_row pen) logits) None = Some y).
Proof.
  intros Hp Hj Hl Hx Hlo Hhi step.
  destruct (eos_penalty_entries g pen j Hp Hj) as (Hlen & Hpj & Hpo).
  pose proof (index_bound _ _ _ Hj) as Hb.
  assert (Hll : length (Float32.of_row pen) = length logits)
    by (rewrite of_row_length; congruence).
  assert (Hjl : (j < length logits)%nat) by lia.
  assert (Hrj : nth j (Float32.of_row pen) None = Some (- big)).
  { rewrite of_row_nth by lia. rewrite Hpj. vm_compute. reflexivity. }
  assert (Hro : forall i, i <> j -> (i < length logits)%nat ->
            nth i (Float32.of_row pen) None = Some 0).
  { intros i Hi Hil. rewrite of_row_nth by lia. rewrite (Hpo i Hi).
    vm_compute. reflexivity. }
  assert (Hmb : Float32.mul (Float32.round (ind true)) (Some (- big)) = Some (- big))
    by (vm_compute; reflexivity).
  assert (Hm0 : Float32.mul (Float32.round (ind true)) (Some 0) = Some 0)
    by (vm_compute; reflexivity).
  assert (Hcase : (step < min_dec_len g)%Z ->
            nth j (min_len_case_f32 step (min_dec_len g) logits
                     (Float32.of_row pen)) None = Some (- big)).
  { intro Hs. unfold min_len_case_f32. apply Z.ltb_lt in Hs. rewrite Hs.
    rewrite (@map2_nth Float32.t Float32.t Float32.t _ _ _ j None None None) by lia.
    rewrite Hx, Hrj. apply round_near_minus_big; assumption. }
  split; [|split].
  - intro Hs. split; [now apply Hcase|].
    rewrite penalized_logits_f32_nth by assumption.
    rewrite (Hcase Hs), Hrj, Hmb. vm_compute. reflexivity.
  - intro Hs. assert (E : (step <? min_dec_len g)%Z = false) by now apply Z.ltb_ge.
    rewrite penalized_logits_f32_nth by assumption.
    unfold min_len_case_f32. rewrite E, Hx, Hrj, Hmb.
    apply round_near_big; assumption.
  - intros i y Hi Hy Hr.
    assert (Hil : (i < length logits)%nat).
    { destruct (Nat.lt_ge_cases i (length logits)) as [H|H]; [exact H|].
      rewrite nth_overflow in Hy by exact H. discriminate. }
    rewrite penalized_logits_f32_nth by assumption.
    rewrite (Hro i Hi Hil), Hm0.
    assert (Hc : nth i (min_len_case_f32 step (min_dec_len g) logits
                          (Float32.of_row pen)) None = Some y).
    { unfold min_len_case_f32. destruct (step <? min_dec_len g)%Z; [|exact Hy].
      rewrite (@map2_nth Float32.t Float32.t Float32.t _ _ _ i None None None) by lia.
      rewrite Hy, (Hro i Hi Hil). unfold Float32.add, Float32.lift2.
      rewrite (round_comp (y + 0) y) by ring. exact Hr. }
    rewrite Hc. unfold Float32.sub, Float32.lift2.
    rewrite (round_comp (y - 0) y) by ring. exact Hr.
Qed.

End SinglePrecision.

(** ** The pseudo beam-search step of the sampling strategies *)

Section SamplingStep.

Context {ops : Generator.Ops}.

Import Generator.

Lemma one_hot_nth (id depth i : nat) :
  (i < depth)%nat -> nth i (one_hot id depth) 0 = ind (Nat.eqb i id).
Proof.
  intro Hi. unfold one_hot.
  rewrite (nth_indep _ 0 (ind (Nat.eqb 0 id))) by now rewrite length_map, length_seq.
  rewrite (map_nth (fun k => ind (Nat.eqb k id))). now rewrite seq_nth.
Qed.

Lemma one_hot_length (id depth : nat) : length (one_hot id depth) = depth.
Proof. unfold one_hot. now rewrite length_map, length_seq. Qed.

Lemma sampling_scores_length (vocab id : nat) (probs : list Q) :
  length probs = vocab -> length (sampling_scores vocab id probs) = vocab.
Proof.
  intro H. unfold sampling_scores. rewrite map2_length, one_hot_length. lia.
Qed.

Lemma sampling_scores_nth (vocab id i : nat) (probs : list Q) :
  length probs = vocab -> (i < vocab)%nat ->
  nth i (sampling_scores vocab id probs) 0
  == if Nat.eqb i id then nth i probs 0 else - bonus.
Proof.
  intros Hl Hi. unfold sampling_scores.
  rewrite (map2_nth _ _ _ i 0 0 0) by (rewrite ?one_hot_length; lia).
  rewrite one_hot_nth by assumption.
  destruct (Nat.eqb i id); unfold ind; ring.
Qed.

(** [topk] with [k = 1] returns a largest entry and its position. *)
Lemma topk_one (a : list Q) :
  a <> [] ->
  exists v i, Paddle.topk a 1 = ([v], [i]) /\ (i < length a)%nat /\
              v = nth i a 0 /\
              forall k, (k < length a)%nat -> nth k a 0 <= v.
Proof.
  intro Ha. unfold Paddle.topk.
  pose proof (sort_desc_sorted (indexed a)) as Hs.
  pose proof (sort_desc_perm (indexed a)) as Hp.
  destruct (sort_desc (indexed a)) as [|[v i] rest] eqn:E.
  - apply Permutation_length in Hp. rewrite indexed_length in Hp.
    destruct a; [congruence|discriminate].
  - exists v, i. split; [reflexivity|].
    assert (Hin : In (v, i) (indexed a)).
    { eapply Permutation_in; [exact Hp|]. now left. }
    apply indexed_in in Hin. destruct Hin as [Hi Hv].
    split; [exact Hi|]. split; [exact Hv|].
    intros k Hk.
    assert (Hk' : In (nth k a 0, k) ((v, i) :: rest)).
    { eapply Permutation_in; [symmetry; exact Hp|]. now apply indexed_in. }
    destruct Hk' as [Hk'|Hk'].
    + injection Hk' as -> _. apply Qle_refl.
    + inversion Hs as [|? ? _ Hall]; subst.
      rewrite Forall_forall in Hall. apply (Hall _ Hk').
Qed.

Lemma topk_sampling_probs_length (k : nat) (probs : list Q) :
  length (topk_sampling_probs k probs) = length probs.
Proof.
  unfold topk_sampling_probs. rewrite map2_length, length_map. lia.
Qed.

Lemma topp_sampling_probs_length (topp : Q) (probs : list Q) :
  length (topp_sampling_probs topp probs) = length probs.
Proof.
  unfold topp_sampling_probs. now rewrite length_map, candidate_probs_length.
Qed.

Lemma nonempty_length {A : Type} (l : list A) : l <> [] <-> (0 < length l)%nat.
Proof. destruct l; simpl; split; intro H; try congruence; lia. Qed.

(** Every sampling branch returns a token of the vocabulary. *)
Lemma sampling_ids_in_vocab (g : t) (strat : Strategy) (step : Z) (row : nat)
    (probs : list Q) :
  valid_sampler -> probs <> [] ->
  (sampling_ids g strat step row probs < length probs)%nat.
Proof.
  intros Hv Hp. apply nonempty_length in Hp.
  destruct strat; simpl.
  - apply Hv. now apply nonempty_length.
  - apply Hv. now apply nonempty_length.
  - rewrite <- (topk_sampling_probs_length (Z.to_nat (topk g)) probs).
    apply Hv. apply nonempty_length. now rewrite topk_sampling_probs_length.
  - unfold topp_sampling_ids, index_sample.
    apply argsort_value.
    rewrite <- (topp_sampling_probs_length (topp g) probs).
    apply Hv. apply nonempty_length. now rewrite topp_sampling_probs_length.
Qed.

(** What a plan that was built tells of the generator. *)
Lemma build_inversion (g : t) (p : Plan) :
  build g = inr p ->
  eos_penalty g = inr (plan_eos_penalty p) /\
  token_penalty g = inr (plan_token_penalty p) /\
  check_temperature g = inr tt /\
  strategy_of (decoding_strategy g) = inr (plan_strategy p) /\
  check_selection g (plan_strategy p) = inr tt /\
  plan_beam_size p = (if String.eqb (decoding_strategy g) "beam_search"
                      then beam_size g else 1%Z).
Proof.
  unfold build, bind, ret.
  destruct (eos_penalty g) as [|ep] eqn:E1; [discriminate|].
  destruct (token_penalty g) as [|tp] eqn:E2; [discriminate|].
  destruct (check_temperature g) as [|[]] eqn:E3; [discriminate|].
  destruct (strategy_of (decoding_strategy g)) as [e|strat] eqn:E4; [discriminate|].
  destruct (check_selection g strat) as [|[]] eqn:E5; [discriminate|].
  intro H. injection H as <-. simpl. auto 10.
Qed.

Lemma build_sampling_beam (g : t) (p : Plan) :
  build g = inr p -> plan_strategy p <> BeamSearch -> plan_beam_size p = 1%Z.
Proof.
  intros H Hs. destruct (build_inversion g p H) as (_ & _ & _ & E & _ & Hb).
  rewrite Hb.
  destruct (String.eqb (decoding_strategy g) "beam_search") eqn:Eb; [|reflexivity].
  unfold strategy_of, ret in E. rewrite Eb in E. congruence.
Qed.

(** The one-hot scores of lines 216-218 put the sampled token first. *)
Lemma sampling_scores_top (vocab id : nat) (probs : list Q) :
  length probs = vocab -> (id < vocab)%nat ->
  Forall (fun x => 0 <= x) probs ->
  exists s, Paddle.topk (sampling_scores vocab id probs) 1 = ([s], [id]) /\
            s == nth id probs 0.
Proof.
  intros Hl Hid Hpos.
  assert (Hne : sampling_scores vocab id probs <> []).
  { apply nonempty_length. rewrite sampling_scores_length by assumption. lia. }
  destruct (topk_one _ Hne) as (v & i & Ht & Hi & Hv & Hmax).
  rewrite sampling_scores_length in Hi, Hmax by assumption.
  assert (Hge : nth id probs 0 <= v).
  { pose proof (Hmax id Hid) as Hm.
    rewrite sampling_scores_nth in Hm by assumption.
    now rewrite Nat.eqb_refl in Hm. }
  assert (H0 : 0 <= nth id probs 0).
  { rewrite Forall_forall in Hpos. apply Hpos, nth_In. lia. }
  assert (Hii : i = id).
  { destruct (Nat.eqb i id) eqn:E; [now apply Nat.eqb_eq|].
    exfalso. pose proof (sampling_scores_nth vocab id i probs Hl Hi) as Hn.
    rewrite E, <- Hv in Hn. rewrite Hn in Hge.
    unfold bonus in Hge. lra. }
  subst i. exists v. split; [exact Ht|].
  rewrite Hv, sampling_scores_nth by assumption. now rewrite Nat.eqb_refl.
Qed.

(** C7.  Under plain, top-k and top-p sampling (a built plan whose strategy
    is not beam search, a draw that returns a position of its distribution, a
    softmax output of vocabulary length with no negative entry) the beam size
    is 1 and the selection step returns exactly one proposal: the sampled
    token, scored with that token's probability in the full softmax
    distribution [get_probs g logits], not in the truncated and renormalised
    distribution the draw was made from.  The beam-search merge of a source
    that has this single candidate then selects exactly that token, with the
    score the update computes from that probability. *)
Theorem sampling_step_selects_sampled_token (g : t) (p : Plan) (step : Z)
    (row : nat) (logits : list Q) (fin : bool) (pre_id : Z) (pre_score : Q) :
  valid_sampler ->
  build g = inr p ->
  plan_strategy p <> BeamSearch ->
  let probs := get_probs g logits in
  length probs = vocab_size g ->
  (0 < vocab_size g)%nat ->
  Forall (fun x => 0 <= x) probs ->
  let id := sampling_ids g (plan_strategy p) step row probs in
  plan_beam_size p = 1%Z /\
  (id < vocab_size g)%nat /\
  exists s,
    select g p step row probs = ([s], [id]) /\
    s == nth id probs 0 /\
    beam_search [[pre_id]]
      (batch_proposals g p step row [probs] [fin] [pre_score])
      (Z.to_nat (plan_beam_size p))
    = [[ {| selected_id := id;
            selected_score := update_score g step fin pre_score s;
            parent_idx := row |} ]].
Proof.
  intros Hv Hb Hs probs Hl Hvoc Hpos id.
  assert (Hne : probs <> []) by (apply nonempty_length; lia).
  assert (Hid : (id < vocab_size g)%nat).
  { rewrite <- Hl. now apply sampling_ids_in_vocab. }
  pose proof (build_sampling_beam g p Hb Hs) as Hbeam.
  split; [exact Hbeam|]. split; [exact Hid|].
  destruct (sampling_scores_top (vocab_size g) id probs Hl Hid Hpos) as (s & Ht & Hsv).
  exists s.
  assert (Hsel : select g p step row probs = ([s], [id])).
  { unfold select. destruct (plan_strategy p) eqn:E; try congruence; exact Ht. }
  split; [exact Hsel|]. split; [exact Hsv|].
  rewrite Hbeam. unfold batch_proposals. rewrite Hsel. reflexivity.
Qed.

End SamplingStep.

(** ** The decoding loop *)

Section Termination.

Context {ops : Generator.Ops} {model : Generator.Model}
        {blocker : Generator.NGramBlockingProcessor}.

Import Generator.

Lemma body_step_idx (g : t) (p : Plan) (l : Loop) :
  step_idx (body g p l) = (step_idx l + 1)%Z.
Proof.
  unfold body. destruct (prepare_timestep_input (state l) (step_idx l)) as [[mi ids] sc].
  reflexivity.
Qed.

Lemma body_cond (g : t) (p : Plan) (l : Loop) :
  cond (body g p l)
  = (step_idx l + 1 <? max_dec_len g)%Z
    && negb (reduce_all (is_finished (state (body g p l)))).
Proof.
  unfold body. destruct (prepare_timestep_input (state l) (step_idx l)) as [[mi ids] sc].
  reflexivity.
Qed.

Lemma iterate_succ (n : nat) (f : Loop -> Loop) (l : Loop) :
  iterate (S n) f l = f (iterate n f l).
Proof.
  revert l. induction n as [|n IH]; intro l; [reflexivity|].
  change (iterate (S (S n)) f l) with (iterate (S n) f (f l)).
  rewrite IH. reflexivity.
Qed.

Lemma iterate_step_idx (g : t) (p : Plan) (n : nat) (l : Loop) :
  step_idx (iterate n (body g p) l) = (step_idx l + Z.of_nat n)%Z.
Proof.
  induction n as [|n IH]; [simpl; lia|].
  rewrite iterate_succ, body_step_idx, IH. lia.
Qed.

(** After an iteration, the loop goes on exactly when the stopping test of
    lines 271-273 fails. *)
Lemma cond_after_iteration (g : t) (p : Plan) (n : nat) (l : Loop) :
  (step_idx l + Z.of_nat (S n) <= max_dec_len g)%Z ->
  cond (iterate (S n) (body g p) l)
  = negb (stop_test g (iterate (S n) (body g p) l)).
Proof.
  intro Hle. unfold stop_test. rewrite iterate_step_idx.
  rewrite iterate_succ, body_cond, iterate_step_idx, <- iterate_succ.
  rewrite negb_orb. f_equal.
  replace (step_idx l + Z.of_nat n + 1)%Z with (step_idx l + Z.of_nat (S n))%Z by lia.
  destruct (Z.ltb_spec (step_idx l + Z.of_nat (S n)) (max_dec_len g));
    destruct (Z.eqb_spec (step_idx l + Z.of_nat (S n)) (max_dec_len g));
    simpl; try reflexivity; lia.
Qed.

(** From any loop state whose condition implies that the step index is below
    [max_dec_len], the loop leaves after at most [max_dec_len - step_idx]
    iterations, for every fuel at least that number. *)
Lemma while_op_terminates (g : t) (p : Plan) (m : nat) (l : Loop) :
  (max_dec_len g - step_idx l <= Z.of_nat m)%Z ->
  (cond l = true -> (step_idx l < max_dec_len g)%Z) ->
  exists n, (n <= m)%nat /\
    cond (iterate n (body g p) l) = false /\
    (forall k, (k < n)%nat -> cond (iterate k (body g p) l) = true) /\
    (forall fuel, (n <= fuel)%nat ->
       while_op fuel (body g p) l = Some (iterate n (body g p) l)).
Proof.
  revert l. induction m as [|m IH]; intros l Hm Hc.
  - exists 0%nat. destruct (cond l) eqn:E; [specialize (Hc eq_refl); lia|].
    split; [lia|]. split; [exact E|]. split; [intros k Hk; lia|].
    intros fuel _. destruct fuel; simpl; now rewrite E.
  - destruct (cond l) eqn:E.
    + specialize (Hc eq_refl).
      destruct (IH (body g p l)) as (n & Hn & Hf & Ht & Hw).
      * rewrite body_step_idx. lia.
      * rewrite body_cond, body_step_idx. intro H.
        apply andb_true_iff in H. destruct H as [H _]. apply Z.ltb_lt in H. lia.
      * exists (S n). split; [lia|]. split; [exact Hf|]. split.
        -- intros [|k] Hk; [exact E|]. apply Ht. lia.
        -- intros [|fuel] Hfuel; [lia|]. simpl. rewrite E. apply Hw. lia.
    + exists 0%nat. split; [lia|]. split; [exact E|]. split; [intros k Hk; lia|].
      intros fuel _. destruct fuel; simpl; now rewrite E.
Qed.

(** C2, as the code has it.  For [max_dec_len >= 0] the loop always
    terminates: it performs some number [n <= max_dec_len] of iterations and
    any fuel of at least [max_dec_len] steps reaches the final state.  The
    step index starts at 0, is [k] after [k] iterations and so stays within
    [0 .. max_dec_len].  No iteration is performed exactly when
    [max_dec_len = 0]: before the first iteration only the step index is
    tested (line 149).  After each iteration the loop goes on exactly when the
    step index is below [max_dec_len] and some candidate is not finished; so
    when at least one iteration was performed, the final state is the first
    state after an iteration whose step index is [max_dec_len] or whose
    candidates are all finished. *)
Theorem decoding_loop_terminates (g : t) (p : Plan) (inputs : Inputs) :
  (0 <= max_dec_len g)%Z ->
  let start := init g inputs in
  let after := fun k => iterate k (body g p) start in
  exists n,
    runs g p inputs n /\
    (Z.of_nat n <= max_dec_len g)%Z /\
    (forall fuel, (Z.to_nat (max_dec_len g) <= fuel)%nat ->
       while_op fuel (body g p) start = Some (after n)) /\
    step_idx start = 0%Z /\
    (forall k, step_idx (after (S k)) = (step_idx (after k) + 1)%Z) /\
    (forall k, (k <= n)%nat ->
       step_idx (after k) = Z.of_nat k /\
       (0 <= step_idx (after k) <= max_dec_len g)%Z) /\
    (n = 0%nat <-> max_dec_len g = 0%Z) /\
    (forall k, (1 <= k)%nat -> (k < n)%nat -> stop_test g (after k) = false) /\
    ((1 <= n)%nat -> stop_test g (after n) = true).
Proof.
  intros Hmax start after.
  assert (Hs0 : step_idx start = 0%Z) by reflexivity.
  assert (Hc0 : cond start = (0 <? max_dec_len g)%Z) by reflexivity.
  destruct (while_op_terminates g p (Z.to_nat (max_dec_len g)) start)
    as (n & Hn & Hf & Ht & Hw).
  { rewrite Hs0. lia. }
  { rewrite Hc0, Hs0. intro H. now apply Z.ltb_lt. }
  assert (Hidx : forall k, step_idx (after k) = Z.of_nat k).
  { intro k. unfold after. rewrite iterate_step_idx, Hs0. lia. }
  exists n.
  split; [split; assumption|].
  split; [lia|].
  split; [intros fuel Hfuel; apply Hw; lia|].
  split; [exact Hs0|].
  split; [intro k; rewrite !Hidx; lia|].
  split; [intros k Hk; rewrite Hidx; lia|].
  split.
  { split.
    - intros ->. change (cond start = false) in Hf.
      rewrite Hc0 in Hf. apply Z.ltb_ge in Hf. lia.
    - intro H0. destruct n as [|n]; [reflexivity|].
      specialize (Ht 0%nat ltac:(lia)). change (cond start = true) in Ht.
      rewrite Hc0 in Ht. apply Z.ltb_lt in Ht. lia. }
  split.
  - intros [|k] Hk1 Hkn; [lia|].
    specialize (Ht (S k) Hkn). unfold after.
    rewrite cond_after_iteration in Ht by (rewrite Hs0; lia).
    now apply negb_true_iff in Ht.
  - intro Hn1. destruct n as [|n]; [lia|]. unfold after.
    rewrite cond_after_iteration in Hf by (rewrite Hs0; lia).
    now apply negb_false_iff in Hf.
Qed.

(** ** Errors raised while the program is built *)

Lemma strategy_of_unknown (s : string) :
  unknown_strategy s -> strategy_of s = inl (ValueError s).
Proof.
  intros (H1 & H2 & H3 & H4). unfold strategy_of, startswith.
  now rewrite H1, H2, H3, H4.
Qed.

Lemma strategy_of_known (s : string) :
  ~ unknown_strategy s -> exists strat, strategy_of s = inr strat.
Proof.
  intro H. unfold strategy_of, startswith, ret.
  destruct (String.eqb s "beam_search") eqn:E1; [eauto|].
  destruct (String.prefix "sampling" s) eqn:E2; [eauto|].
  destruct (String.prefix "topk_sampling" s) eqn:E3; [eauto|].
  destruct (String.prefix "topp_sampling" s) eqn:E4; [eauto|].
  exfalso. apply H. repeat split; assumption.
Qed.

Lemma check_temperature_nonzero (g : t) :
  ~ temperature g == 0 -> check_temperature g = inr tt.
Proof.
  intro H. unfold check_temperature.
  destruct (Qeq_bool (temperature g) 0) eqn:E; [|reflexivity].
  apply Qeq_bool_iff in E. contradiction.
Qed.

Lemma check_temperature_zero (g : t) :
  temperature g == 0 -> check_temperature g = inl ZeroDivisionError.
Proof.
  intro H. unfold check_temperature. apply Qeq_bool_iff in H. now rewrite H.
Qed.

(** C8, as the code has it.  A decoding strategy that no branch of the
    dispatch accepts makes [inference] raise while the program is built,
    before any iteration of the loop and whatever the fuel and the inputs;
    the exception is [ValueError] of that strategy when the penalty rows can
    be built (the token ids index the vocabulary) and the temperature is not
    0; [IndexError] and [ZeroDivisionError] are raised earlier in the source
    otherwise.  Under beam search a
    [beam_size] below 1 makes [inference] raise while the program is built
    as well.  The command line refuses every strategy outside its three
    choices.  [topp] is never tested: changing it changes neither the plan
    nor whether [inference] raises.  Under every strategy other than
    ["beam_search"], [beam_size] is not looked at and 1 is used. *)
Theorem unknown_strategy_fails_while_building (g : t) :
  (unknown_strategy (decoding_strategy g) ->
     (forall fuel inputs, raises (inference fuel g inputs) = true) /\
     (forall eos_pen tok_pen fuel inputs,
        eos_penalty g = inr eos_pen -> token_penalty g = inr tok_pen ->
        ~ temperature g == 0 ->
        inference fuel g inputs = inl (ValueError (decoding_strategy g)))) /\
  (decoding_strategy g = "beam_search"%string -> (beam_size g < 1)%Z ->
     forall fuel inputs, raises (inference fuel g inputs) = true) /\
  (forall s, ~ In s decoding_strategy_choices ->
     parse_decoding_strategy s = inl (ArgumentError s)) /\
  (forall x, build (with_topp g x) = build g) /\
  (forall x fuel inputs,
     raises (inference fuel (with_topp g x) inputs)
     = raises (inference fuel g inputs)) /\
  (decoding_strategy g <> "beam_search"%string ->
     forall b, build (with_beam_size g b) = build g) /\
  (decoding_strategy g <> "beam_search"%string ->
     forall p, build g = inr p -> plan_beam_size p = 1%Z).
Proof.
  split.
  { intro Hu. pose proof (strategy_of_unknown _ Hu) as Hs. split.
    - intros fuel inputs. unfold inference, build, bind.
      destruct (eos_penalty g); [reflexivity|].
      destruct (token_penalty g); [reflexivity|].
      destruct (check_temperature g); [reflexivity|].
      now rewrite Hs.
    - intros e tk fuel inputs He Hk Ht. unfold inference, build, bind.
      now rewrite He, Hk, (check_temperature_nonzero g Ht), Hs. }
  split.
  { intros Hs Hb fuel inputs. unfold inference, build, bind.
    destruct (eos_penalty g); [reflexivity|].
    destruct (token_penalty g); [reflexivity|].
    destruct (check_temperature g); [reflexivity|].
    rewrite Hs. simpl. unfold check_topk.
    apply Z.ltb_lt in Hb. now rewrite Hb. }
  split.
  { intros s Hs. unfold parse_decoding_strategy.
    destruct (existsb (String.eqb s) decoding_strategy_choices) eqn:E; [|reflexivity].
    exfalso. apply Hs. apply existsb_exists in E. destruct E as (c & Hc & Hsc).
    apply String.eqb_eq in Hsc. now subst. }
  split; [intro x; reflexivity|].
  split.
  { intros x fuel inputs. unfold inference.
    change (build (with_topp g x)) with (build g).
    destruct (build g); reflexivity. }
  split.
  { intros Hb b. unfold build, bind, ret, check_temperature, strategy_of. simpl.
    change (eos_penalty (with_beam_size g b)) with (eos_penalty g).
    change (token_penalty (with_beam_size g b)) with (token_penalty g).
    destruct (String.eqb_spec (decoding_strategy g) "beam_search"); [contradiction|].
    destruct (eos_penalty g); [reflexivity|].
    destruct (token_penalty g); [reflexivity|].
    destruct (Qeq_bool (temperature g) 0); [reflexivity|].
    destruct (startswith (decoding_strategy g) "sampling"); [reflexivity|].
    destruct (startswith (decoding_strategy g) "topk_sampling"); [reflexivity|].
    destruct (startswith (decoding_strategy g) "topp_sampling"); reflexivity. }
  intros Hb p Hp.
  destruct (build_inversion g p Hp) as (_ & _ & _ & _ & _ & Hbeam).
  rewrite Hbeam.
  destruct (String.eqb_spec (decoding_strategy g) "beam_search"); [contradiction|].
  reflexivity.
Qed.

End Termination.

(** ** The negative-sample mixer *)

Section SinglePool.

Context {rs : NSPReader.RandomState}.

Import NSPReader.

Lemma gen_from_single_pool (self : t) (rng : Rng) (pool : list record) :
  length pool = 1%nat ->
  _gen_from_pool self rng pool = ([replace_label (nth 0 pool no_record) 1], None, rng).
Proof.
  intro H. unfold _gen_from_pool. rewrite H. reflexivity.
Qed.

(** C9.  A pool of exactly one record makes [_gen_from_pool] yield that
    record with its label set to 1, every other field unchanged, and end
    normally: no exception is raised and the random generator is not used.
    With mixing enabled, a reader that yields a single record therefore hands
    the batch reader that record labelled 1, whatever the pool size; and with
    a pool size of 1 every record of the reader is its own pool and comes out
    labelled 1. *)
Theorem single_record_pool_is_labelled_positive (self : t) (rng : Rng) (r : record) :
  _gen_from_pool self rng [r] = ([replace_label r 1], None, rng) /\
  label (replace_label r 1) = Some 1%Z /\
  (token_ids (replace_label r 1), type_ids (replace_label r 1),
   pos_ids (replace_label r 1), role_ids (replace_label r 1),
   tgt_start_idx (replace_label r 1), data_id (replace_label r 1))
  = (token_ids r, type_ids r, pos_ids r, role_ids r, tgt_start_idx r, data_id r) /\
  (mix_negative_sample self = true ->
     _batch_reader self [r] rng = ([replace_label r 1], None, rng)) /\
  (forall records,
     _mix_negative_sample self records 1 rng
     = (map (fun x => replace_label x 1) records, None, rng)).
Proof.
  split; [reflexivity|]. split; [reflexivity|]. split; [reflexivity|].
  split.
  - intro Hm. unfold _batch_reader, _mix_negative_sample. rewrite Hm.
    unfold wrapper_loop. cbn [app length Z.of_nat Pos.of_succ_nat].
    destruct (1 =? neg_pool_size self)%Z; reflexivity.
  - intro records. unfold _mix_negative_sample.
    induction records as [|x records IH]; [reflexivity|].
    simpl. simpl in IH. rewrite IH. reflexivity.
Qed.

End SinglePool.

(** ** The properties on concrete inputs *)

Section Concrete.

Import Generator Examples.

Local Open Scope string_scope.

Local Existing Instance rational_ops.
Local Existing Instance model3.
Local Existing Instance no_blocker.

Lemma greedy_valid : valid_sampler.
Proof.
  intros step row d Hd. simpl. unfold greedy.
  destruct (topk_one d Hd) as (v & i & Ht & Hi & _). now rewrite Ht.
Qed.

Lemma build_topp : build g_topp = inr topp_plan.
Proof. reflexivity. Qed.

Lemma accu_scores_follows_policy_witness :
  length_average g_topp = true /\
  accu_scores g_topp (-(1)) (-(3 # 2)) (inject_Z 2) (inject_Z (2 + 1))
  == (-(1) + -(3 # 2) * inject_Z 2) / inject_Z (2 + 1).
Proof.
  split; [reflexivity|].
  apply (proj1 (proj2 (accu_scores_follows_policy g_topp 2 (-(1)) (-(3 # 2))))).
  reflexivity.
Defined.

Lemma clamp_small_lifts_underflow_witness :
  0 < tiny /\ clamp_small 0 == tiny.
Proof.
  split; [reflexivity|].
  apply (proj1 (clamp_small_lifts_underflow 0)). reflexivity.
Defined.

Lemma finished_score_is_frozen_witness :
  tiny <= 1 /\ update_score g_topp 4 true (-(1 # 2)) 1 == -(1 # 2).
Proof.
  split; [discriminate|].
  apply (proj1 (proj2 (finished_score_is_frozen g_topp 4 (-(1 # 2)) 1))).
  discriminate.
Defined.

(** C4 as stated fails under beam search.  A finished candidate with the
    score -1/2 at step 4, past [min_dec_len]: its end-of-sequence logit is
    raised by [1e9], the softmax gives that token the probability 1 and every
    other token 0, and [topk] proposes two tokens.  The proposal that repeats
    the end-of-sequence token keeps -1/2; the second one, of probability 0
    whichever token it is, comes out of the update with [-1e9]. *)
Lemma finished_score_changes_on_underflow :
  let logits := penalized_logits 4 (min_dec_len g_beam) true
                  (plan_eos_penalty beam_plan)
                  (vadd [0; 1; 2; 1] (plan_token_penalty beam_plan)) in
  let probs := @get_probs saturating_ops g_beam logits in
  let proposals := nth 0 (@batch_proposals saturating_ops g_beam beam_plan 4 0
                            [probs] [true] [-(1 # 2)]) [] in
  build g_beam = inr beam_plan /\
  (min_dec_len g_beam <= 4)%Z /\
  probs = [0; 0; 0; 1] /\
  length proposals = 2%nat /\
  nth 0 (map selected_id proposals) 0%nat = 3%nat /\
  nth (nth 1 (map selected_id proposals) 0%nat) probs 0 = 0 /\
  nth 0 (map selected_score proposals) 0 == -(1 # 2) /\
  nth 1 (map selected_score proposals) 0 == - big /\
  ~ nth 1 (map selected_score proposals) 0 == -(1 # 2).
Proof.
  cbv zeta.
  split; [reflexivity|]. split; [discriminate|].
  split; [vm_compute; reflexivity|]. split; [vm_compute; reflexivity|].
  split; [vm_compute; reflexivity|]. split; [vm_compute; reflexivity|].
  split; [vm_compute; reflexivity|]. split; [vm_compute; reflexivity|].
  vm_compute. discriminate.
Qed.

Lemma update_score_follows_policy_witness :
  length_average g_topp = true /\
  tiny <= 2 # 3 /\ tiny <= 1 # 3 /\
  @log affine_ops (clamp_small (2 # 3)) == -(1) /\
  @log affine_ops (clamp_small (1 # 3)) == -(2) /\
  @update_score affine_ops g_topp 0 false 0 (2 # 3)
  == (@log affine_ops (clamp_small (2 # 3)) + 0 * inject_Z 0) / inject_Z (0 + 1) /\
  @scores_over affine_ops g_topp 0 0 [(false, 2 # 3); (false, 1 # 3); (false, 2 # 3)]
  == -(4 # 3).
Proof.
  assert (H1 : tiny <= 2 # 3) by discriminate.
  assert (H2 : tiny <= 1 # 3) by discriminate.
  assert (E1 : @log affine_ops (clamp_small (2 # 3)) == -(1)) by reflexivity.
  assert (E2 : @log affine_ops (clamp_small (1 # 3)) == -(2)) by reflexivity.
  split; [reflexivity|]. split; [exact H1|]. split; [exact H2|].
  split; [exact E1|]. split; [exact E2|]. split.
  - apply (proj1 (proj1 (proj2
             (@update_score_follows_policy affine_ops g_topp 0 0 (2 # 3))) H1)).
    reflexivity.
  - apply (proj2 (proj2 (proj2
             (@update_score_follows_policy affine_ops g_topp 0 0 (2 # 3))))
             eq_refl 0 (2 # 3) (1 # 3) (2 # 3) H1 H2 H1 E1 E2 E1).
Defined.

(** C1 as stated fails under beam search.  A candidate that is not finished,
    with the score -3/2 at step 2, whose softmax gives token 1 the
    probability 1 and every other token 0: [topk] proposes two tokens, the
    first follows the policy, and the second, of probability 0 whichever
    token it is, comes out of the update with [-1e9] where the policy gives
    [(log 1e-9 + (-3/2) * 2) / 3]. *)
Lemma live_score_is_replaced_on_underflow :
  let logits := penalized_logits 2 (min_dec_len g_beam) false
                  (plan_eos_penalty beam_plan)
                  (vadd [0; 200; 0; 0] (plan_token_penalty beam_plan)) in
  let probs := @get_probs saturating_ops g_beam logits in
  let proposals := nth 0 (@batch_proposals saturating_ops g_beam beam_plan 2 0
                            [probs] [false] [-(3 # 2)]) [] in
  let policy := fun p => (@log saturating_ops (clamp_small p) + -(3 # 2) * inject_Z 2)
                         / inject_Z (2 + 1) in
  build g_beam = inr beam_plan /\
  length_average g_beam = true /\
  probs = [0; 1; 0; 0] /\
  length proposals = 2%nat /\
  nth 0 (map selected_id proposals) 0%nat = 1%nat /\
  nth (nth 1 (map selected_id proposals) 0%nat) probs 0 = 0 /\
  nth 0 (map selected_score proposals) 0 == policy 1 /\
  nth 1 (map selected_score proposals) 0 == - big /\
  ~ nth 1 (map selected_score proposals) 0 == policy 0 /\
  @update_score saturating_ops g_beam 2 false (-(3 # 2)) 0 == - big.
Proof.
  cbv zeta.
  split; [reflexivity|]. split; [reflexivity|].
  split; [vm_compute; reflexivity|]. split; [vm_compute; reflexivity|].
  split; [vm_compute; reflexivity|]. split; [vm_compute; reflexivity|].
  split; [vm_compute; reflexivity|]. split; [vm_compute; reflexivity|].
  split; [vm_compute; discriminate|]. vm_compute. reflexivity.
Qed.

Lemma finished_eos_logit_in_float32_witness :
  eos_penalty g_topp = inr [0; 0; 0; - big] /\
  Numpy.index (vocab_size g_topp) (eos_id g_topp) = inr 3%nat /\
  nth 3 (Float32.of_row [- big; 1; 2; 1]) None = Some 1 /\
  (2 < min_dec_len g_topp)%Z /\
  nth 3 (penalized_logits_f32 2 (min_dec_len g_topp) true
           (Float32.of_row [0; 0; 0; - big]) (Float32.of_row [- big; 1; 2; 1])) None
  = Some 0.
Proof.
  assert (Hx : nth 3 (Float32.of_row [- big; 1; 2; 1]) None = Some 1)
    by (vm_compute; reflexivity).
  split; [reflexivity|]. split; [reflexivity|]. split; [exact Hx|].
  split; [reflexivity|].
  apply (proj2 (proj1
           (finished_eos_logit_in_float32 g_topp [0; 0; 0; - big]
              (Float32.of_row [- big; 1; 2; 1]) 3 1
              eq_refl eq_refl eq_refl Hx eq_refl eq_refl 2) eq_refl)).
Defined.

(** C10 as stated fails in [float32].  A finished candidate at step 2, below
    [min_dec_len = 3], whose end-of-sequence logit is 1 after the token
    penalty: [1 + (-1e9)] is rounded to [-1e9], and the logit reaches the
    softmax as 0, not 1.  A logit of 100 comes back as 128. *)
Lemma finished_eos_logit_is_absorbed_in_float32 :
  let logits := Float32.of_row [- big; 1; 2; 1] in
  let out := penalized_logits_f32 2 (min_dec_len g_topp) true
               (Float32.of_row [0; 0; 0; - big]) logits in
  eos_penalty g_topp = inr [0; 0; 0; - big] /\
  Numpy.index (vocab_size g_topp) (eos_id g_topp) = inr 3%nat /\
  (2 < min_dec_len g_topp)%Z /\
  nth 3 logits None = Some 1 /\
  Float32.add (Some 1) (Some (- big)) = Some (- big) /\
  nth 3 out None = Some 0 /\
  nth 3 out None <> nth 3 logits None /\
  Float32.sub (Float32.add (Some 100) (Some (- big)))
              (Float32.mul (Some 1) (Some (- big))) = Some 128.
Proof.
  cbv zeta.
  split; [reflexivity|]. split; [reflexivity|]. split; [reflexivity|].
  split; [vm_compute; reflexivity|]. split; [vm_compute; reflexivity|].
  split; [vm_compute; reflexivity|]. split; [vm_compute; discriminate|].
  vm_compute. reflexivity.
Qed.

Lemma min_length_penalises_eos_witness :
  eos_penalty g_topp = inr [0; 0; 0; - big] /\
  Numpy.index (vocab_size g_topp) (eos_id g_topp) = inr 3%nat /\
  (2 < min_dec_len g_topp)%Z /\
  nth 3 (penalized_logits 2 (min_dec_len g_topp) false [0; 0; 0; - big] [0; 1; 2; 1]) 0
  == nth 3 [0; 1; 2; 1] 0 - big.
Proof.
  split; [reflexivity|]. split; [reflexivity|]. split; [reflexivity|].
  apply (proj2 (proj2 (proj1
           (min_length_penalises_eos g_topp [0; 0; 0; - big] [0; 1; 2; 1] 3
              eq_refl eq_refl eq_refl 2) eq_refl))).
Defined.

Lemma finished_cancels_min_length_penalty_witness :
  eos_penalty g_topp = inr [0; 0; 0; - big] /\
  Numpy.index (vocab_size g_topp) (eos_id g_topp) = inr 3%nat /\
  (2 < min_dec_len g_topp)%Z /\
  nth 3 (penalized_logits 2 (min_dec_len g_topp) true [0; 0; 0; - big] [0; 1; 2; 1]) 0
  == nth 3 [0; 1; 2; 1] 0.
Proof.
  split; [reflexivity|]. split; [reflexivity|]. split; [reflexivity|].
  apply (proj1 (proj2 (proj1
           (finished_cancels_min_length_penalty g_topp [0; 0; 0; - big] [0; 1; 2; 1] 3
              eq_refl eq_refl eq_refl 2) eq_refl))).
Defined.

Lemma topp_sampling_keeps_prefix_below_topp_witness :
  let probs := [3 # 20; 1 # 2; 1 # 20; 3 # 10] in
  reduce_sum (firstn 2 (fst (argsort_desc probs))) < 9 # 10 /\
  nth 2 (candidate_probs (9 # 10) probs) 0 == nth 2 (fst (argsort_desc probs)) 0.
Proof.
  split; [reflexivity|].
  apply (proj1 (proj2 (proj1 (proj2 (proj2
           (topp_sampling_keeps_prefix_below_topp 0 0 (9 # 10)
              [3 # 20; 1 # 2; 1 # 20; 3 # 10]))) 2%nat ltac:(simpl; lia)))).
  reflexivity.
Defined.

Lemma sampling_step_selects_sampled_token_witness :
  valid_sampler /\
  build g_topp = inr topp_plan /\
  plan_strategy topp_plan <> BeamSearch /\
  Forall (fun x => 0 <= x) (get_probs g_topp [0; 1; 2; 1]) /\
  plan_beam_size topp_plan = 1%Z.
Proof.
  assert (Hpos : Forall (fun x => 0 <= x) (get_probs g_topp [0; 1; 2; 1])).
  { vm_compute. repeat constructor; discriminate. }
  split; [exact greedy_valid|]. split; [reflexivity|].
  split; [discriminate|]. split; [exact Hpos|].
  apply (sampling_step_selects_sampled_token g_topp topp_plan 0 0 [0; 1; 2; 1]
           false 1 0 greedy_valid eq_refl ltac:(discriminate) eq_refl
           ltac:(simpl; lia) Hpos).
Defined.

Lemma decoding_loop_terminates_witness :
  (0 <= max_dec_len g_topp)%Z /\
  exists n, (Z.of_nat n <= max_dec_len g_topp)%Z /\
    while_op 5 (body g_topp topp_plan) (init g_topp live)
    = Some (iterate n (body g_topp topp_plan) (init g_topp live)).
Proof.
  assert (H : (0 <= max_dec_len g_topp)%Z) by (simpl; lia).
  split; [exact H|].
  destruct (decoding_loop_terminates g_topp topp_plan live H)
    as (n & _ & Hn & Hw & _).
  exists n. split; [exact Hn|]. apply Hw. simpl. lia.
Defined.

(** C2 as stated fails: with one candidate that is finished before the first
    step and [max_dec_len = 2], the stopping test holds at step 0 and the
    loop still performs one iteration. *)
Lemma loop_runs_once_when_all_finished_at_entry :
  exists p, build g_topk = inr p /\
    stop_test g_topk (init g_topk finished) = true /\
    runs g_topk p finished 1 /\
    ~ stops_at_first_stop_state g_topk p finished.
Proof.
  eexists. split; [reflexivity|].
  split; [reflexivity|].
  assert (Hr : runs g_topk
                 {| plan_beam_size := 1; plan_eos_penalty := [0; 0; 0; - big];
                    plan_token_penalty := [- big; 0; 0; 0];
                    plan_strategy := TopkSampling |} finished 1).
  { split; [vm_compute; reflexivity|].
    intros k Hk. assert (k = 0%nat) as -> by lia. reflexivity. }
  split; [exact Hr|].
  intro H. destruct (H 1%nat Hr) as [_ H0].
  specialize (H0 0%nat ltac:(lia)). vm_compute in H0. discriminate.
Qed.

Lemma one_is_not_zero : ~ 1 == 0.
Proof. intro H. discriminate H. Qed.

Lemma unknown_strategy_fails_while_building_witness :
  unknown_strategy (decoding_strategy g_unknown) /\
  ~ temperature g_unknown == 0 /\
  inference 5 g_unknown live = inl (ValueError "greedy").
Proof.
  assert (H : unknown_strategy (decoding_strategy g_unknown))
    by (repeat split; reflexivity).
  split; [exact H|]. split; [exact one_is_not_zero|].
  apply (proj2 (proj1 (unknown_strategy_fails_while_building g_unknown) H)
           [0; 0; 0; - big] [- big; 0; 0; 0] 5%nat live eq_refl eq_refl
           one_is_not_zero).
Defined.

(** C8 as stated fails: with [topp = 1.5] and [beam_size = 0] under top-p
    sampling, a configuration error of the specification, the program is
    built and runs to its predictions. *)
Lemma unchecked_topp_and_beam_size_run :
  configuration_error g_unchecked /\
  raises (inference 5 g_unchecked live) = false /\
  ~ (configuration_error g_unchecked ->
     raises (inference 5 g_unchecked live) = true).
Proof.
  assert (Hc : configuration_error g_unchecked).
  { right. left. intros [_ H]. vm_compute in H. apply H. reflexivity. }
  assert (Hr : raises (inference 5 g_unchecked live) = false)
    by (vm_compute; reflexivity).
  split; [exact Hc|]. split; [exact Hr|].
  intro H. rewrite (H Hc) in Hr. discriminate.
Qed.

Lemma single_record_pool_is_labelled_positive_witness :
  NSPReader.mix_negative_sample (reader_config 65536) = true /\
  NSPReader._batch_reader (rs := reversing_rng) (reader_config 65536) [record_a] 7%nat
  = ([NSPReader.replace_label record_a 1], None, 7%nat).
Proof.
  split; [reflexivity|].
  apply (proj1 (proj2 (proj2 (proj2
           (single_record_pool_is_labelled_positive (rs := reversing_rng)
              (reader_config 65536) 7%nat record_a))))).
  reflexivity.
Defined.

(** A pool of two records, for comparison: both come out labelled 1,
    together with two negative records labelled 0 whose context is one
    record's and whose response is the other's. *)
Example two_record_pool :
  map NSPReader.label
    (fst (fst (NSPReader._gen_from_pool (rs := reversing_rng) (reader_config 65536)
                 7%nat [record_a; record_b])))
  = [Some 0; Some 0; Some 1; Some 1]%Z /\
  map NSPReader.token_ids
    (fst (fst (NSPReader._gen_from_pool (rs := reversing_rng) (reader_config 65536)
                 7%nat [record_a; record_b])))
  = [[1; 5; 6; 2; 1; 9; 9; 2]; [1; 8; 2; 1; 7; 2];
     [1; 5; 6; 2; 1; 7; 2]; [1; 8; 2; 1; 9; 9; 2]]%Z.
Proof. split; reflexivity. Qed.

(** Top-p on a distribution that is not given in sorted order: the kept
    tokens are mapped back through the sort permutation. *)
Example kept_tokens_unsorted :
  kept_tokens (9 # 10) [3 # 20; 1 # 2; 1 # 20; 3 # 10] = [1; 3; 0]%nat.
Proof. reflexivity. Qed.

End Concrete.

(** * Further properties of the generator *)

Section Building.

Import Generator.

Lemma index_in_range (n : nat) (i : Z) :
  Numpy.in_range n i -> exists j, Numpy.index n i = inr j /\ (j < n)%nat.
Proof.
  unfold Numpy.in_range, Numpy.index, ret. intro H.
  destruct ((0 <=? i) && (i <? Z.of_nat n))%Z eqn:E1.
  - eexists. split; [reflexivity|]. apply andb_true_iff in E1. lia.
  - destruct ((- Z.of_nat n <=? i) && (i <? 0))%Z eqn:E2.
    + eexists. split; [reflexivity|]. apply andb_true_iff in E2. lia.
    + apply andb_false_iff in E1. apply andb_false_iff in E2.
      rewrite !Z.leb_gt, !Z.ltb_ge in *. lia.
Qed.

Lemma index_out_of_range (n : nat) (i : Z) :
  ~ Numpy.in_range n i -> Numpy.index n i = inl IndexError.
Proof.
  unfold Numpy.in_range, Numpy.index, ret. intro H.
  destruct ((0 <=? i) && (i <? Z.of_nat n))%Z eqn:E1.
  - apply andb_true_iff in E1. exfalso. apply H. lia.
  - destruct ((- Z.of_nat n <=? i) && (i <? 0))%Z eqn:E2; [|reflexivity].
    apply andb_true_iff in E2. exfalso. apply H. lia.
Qed.

Lemma setitem_in_range (a : list Q) (i : Z) (x : Q) :
  Numpy.in_range (length a) i ->
  exists j, Numpy.index (length a) i = inr j /\
            Numpy.setitem a i x = inr (Numpy.set_nth j x a).
Proof.
  intro H. destruct (index_in_range _ _ H) as (j & Hj & _).
  exists j. split; [exact Hj|]. unfold Numpy.setitem, bind, ret. now rewrite Hj.
Qed.

Lemma setitem_out_of_range (a : list Q) (i : Z) (x : Q) :
  ~ Numpy.in_range (length a) i -> Numpy.setitem a i x = inl IndexError.
Proof.
  intro H. unfold Numpy.setitem, bind. now rewrite (index_out_of_range _ _ H).
Qed.

Lemma setitem_error (a : list Q) (i : Z) (x : Q) (e : PyError) :
  Numpy.setitem a i x = inl e -> e = IndexError /\ ~ Numpy.in_range (length a) i.
Proof.
  intro H. destruct (Z_lt_dec i (- Z.of_nat (length a))) as [Hl|Hl];
    [|destruct (Z_lt_dec i (Z.of_nat (length a))) as [Hu|Hu]].
  - assert (Hn : ~ Numpy.in_range (length a) i) by (unfold Numpy.in_range; lia).
    rewrite (setitem_out_of_range _ _ _ Hn) in H. injection H as <-. auto.
  - assert (Hr : Numpy.in_range (length a) i) by (unfold Numpy.in_range; lia).
    destruct (setitem_in_range a i x Hr) as (j & _ & Hs). congruence.
  - assert (Hn : ~ Numpy.in_range (length a) i) by (unfold Numpy.in_range; lia).
    rewrite (setitem_out_of_range _ _ _ Hn) in H. injection H as <-. auto.
Qed.

Lemma zeros_length (n : nat) : length (Numpy.zeros n) = n.
Proof. apply repeat_length. Qed.

Lemma index_success_in_range (n : nat) (i : Z) (j : nat) :
  Numpy.index n i = inr j -> Numpy.in_range n i.
Proof.
  unfold Numpy.index, Numpy.in_range, ret.
  destruct ((0 <=? i) && (i <? Z.of_nat n))%Z eqn:E1.
  - intros _. apply andb_true_iff in E1. lia.
  - destruct ((- Z.of_nat n <=? i) && (i <? 0))%Z eqn:E2; [|discriminate].
    intros _. apply andb_true_iff in E2. lia.
Qed.

Lemma setitem_success_in_range (a b : list Q) (i : Z) (x : Q) :
  Numpy.setitem a i x = inr b ->
  Numpy.in_range (length a) i /\ length b = length a.
Proof.
  unfold Numpy.setitem, bind, ret.
  destruct (Numpy.index (length a) i) as [e|j] eqn:E; [discriminate|].
  intro H. injection H as <-. split.
  - eapply index_success_in_range; eassumption.
  - apply set_nth_length.
Qed.

Lemma eos_penalty_error (g : t) (e : PyError) :
  eos_penalty g = inl e ->
  e = IndexError /\ ~ Numpy.in_range (vocab_size g) (eos_id g).
Proof.
  intro H. unfold eos_penalty in H. apply setitem_error in H.
  now rewrite zeros_length in H.
Qed.

Lemma eos_penalty_success (g : t) (pen : list Q) :
  eos_penalty g = inr pen -> Numpy.in_range (vocab_size g) (eos_id g).
Proof.
  intro H. unfold eos_penalty in H. apply setitem_success_in_range in H.
  rewrite zeros_length in H. tauto.
Qed.

(** The row the token penalty is built from after the unknown-word step. *)
Lemma unk_step (g : t) :
  (forall e, (if ignore_unk g
              then Numpy.setitem (Numpy.zeros (vocab_size g)) (unk_id g) (- big)
              else inr (Numpy.zeros (vocab_size g))) = inl e ->
     e = IndexError /\ ignore_unk g = true /\
     ~ Numpy.in_range (vocab_size g) (unk_id g)) /\
  (forall p1, (if ignore_unk g
               then Numpy.setitem (Numpy.zeros (vocab_size g)) (unk_id g) (- big)
               else inr (Numpy.zeros (vocab_size g))) = inr p1 ->
     length p1 = vocab_size g /\
     (ignore_unk g = true -> Numpy.in_range (vocab_size g) (unk_id g))).
Proof.
  destruct (ignore_unk g); split.
  - intros e H. apply setitem_error in H. rewrite zeros_length in H.
    destruct H as [-> H]. auto.
  - intros p1 H. apply setitem_success_in_range in H. rewrite zeros_length in H.
    destruct H as [H1 H2]. auto.
  - discriminate.
  - intros p1 H. injection H as <-. split; [apply zeros_length|discriminate].
Qed.

Lemma token_penalty_error (g : t) (e : PyError) :
  token_penalty g = inl e -> e = IndexError /\ ~ ids_in_range g.
Proof.
  unfold token_penalty, bind, ret. destruct (unk_step g) as [Hue Hus].
  destruct (if ignore_unk g then _ else _) as [e1|p1].
  - intro H. injection H as <-. destruct (Hue e1 eq_refl) as (-> & Hi & Hn).
    split; [reflexivity|]. intros (_ & Hu & _). auto.
  - destruct (Hus p1 eq_refl) as [Hl _].
    destruct (mask_id g) as [m|] eqn:Em; [|discriminate].
    destruct (Z.leb_spec 0 m) as [Hm0|Hm0]; [|discriminate].
    intro H. apply setitem_error in H. rewrite Hl in H. destruct H as [-> H].
    split; [reflexivity|]. intros (_ & _ & Hm). apply H.
    specialize (Hm m Em Hm0). unfold Numpy.in_range. lia.
Qed.

Lemma token_penalty_success (g : t) (pen : list Q) :
  token_penalty g = inr pen ->
  (ignore_unk g = true -> Numpy.in_range (vocab_size g) (unk_id g)) /\
  (forall m, mask_id g = Some m -> (0 <= m)%Z -> (m < Z.of_nat (vocab_size g))%Z).
Proof.
  unfold token_penalty, bind, ret. destruct (unk_step g) as [Hue Hus].
  destruct (if ignore_unk g then _ else _) as [e1|p1]; [discriminate|].
  destruct (Hus p1 eq_refl) as [Hl Hu]. intro H. split; [exact Hu|].
  intros m Hm Hm0. rewrite Hm in H.
  assert (Hz : (0 <=? m)%Z = true) by now apply Z.leb_le.
  rewrite Hz in H. apply setitem_success_in_range in H.
  rewrite Hl in H. destruct H as [H _]. unfold Numpy.in_range in H. lia.
Qed.

(** X1.  The exceptions [inference] raises while it builds its program come
    in the order of the source: an end-of-sequence id, an unknown-word id
    (under [ignore_unk]) or a non-negative [mask_id] outside the vocabulary
    raises [IndexError] before anything else; with ids in range, a
    temperature of 0 raises [ZeroDivisionError] before the strategy is looked
    at.  A program that is built therefore has its ids in range, a
    temperature other than 0, a strategy the dispatch accepts and, under beam
    search, a [beam_size] of at least 1. *)
Theorem build_errors_in_order (g : t) :
  (~ ids_in_range g -> build g = inl IndexError) /\
  (ids_in_range g -> temperature g == 0 -> build g = inl ZeroDivisionError) /\
  (forall p, build g = inr p ->
     ids_in_range g /\ ~ temperature g == 0 /\
     ~ unknown_strategy (decoding_strategy g) /\
     (decoding_strategy g = "beam_search"%string -> (1 <= beam_size g)%Z)).
Proof.
  split; [|split].
  - intro Hn. unfold build, bind.
    destruct (eos_penalty g) as [e|ep] eqn:E1.
    { now destruct (eos_penalty_error g e E1) as [-> _]. }
    destruct (token_penalty g) as [e|tp] eqn:E2.
    { now destruct (token_penalty_error g e E2) as [-> _]. }
    exfalso. apply Hn. split; [now apply (eos_penalty_success g ep)|].
    now apply (token_penalty_success g tp).
  - intros Hi Ht. unfold build, bind.
    destruct (eos_penalty g) as [e|ep] eqn:E1.
    { exfalso. destruct (eos_penalty_error g e E1) as [_ H]. apply H, Hi. }
    destruct (token_penalty g) as [e|tp] eqn:E2.
    { exfalso. destruct (token_penalty_error g e E2) as [_ H]. now apply H. }
    now rewrite (check_temperature_zero g Ht).
  - intros p Hp.
    destruct (build_inversion g p Hp) as (He & Hk & Ht & Hs & Hc & _).
    split; [|split; [|split]].
    + split; [now apply (eos_penalty_success g _ He)|].
      now apply (token_penalty_success g _ Hk).
    + intro H0. rewrite (check_temperature_zero g H0) in Ht. discriminate.
    + intro Hu. rewrite (strategy_of_unknown _ Hu) in Hs. discriminate.
    + intro Hb. unfold strategy_of in Hs. rewrite Hb in Hs. simpl in Hs.
      injection Hs as Hs. rewrite <- Hs in Hc. simpl in Hc. unfold check_topk in Hc.
      destruct (Z.ltb_spec (beam_size g) 1); [discriminate|lia].
Qed.

End Building.

Section TokenPenalty.

Import Generator.

Lemma setitem_success (a b : list Q) (i : Z) (x : Q) :
  Numpy.setitem a i x = inr b ->
  exists j, Numpy.index (length a) i = inr j /\ b = Numpy.set_nth j x a.
Proof.
  unfold Numpy.setitem, bind, ret. destruct (Numpy.index (length a) i) as [e|j];
    [discriminate|].
  intro H. injection H as <-. eauto.
Qed.

Lemma index_nonnegative (n : nat) (i : Z) (j : nat) :
  Numpy.index n i = inr j -> (0 <= i)%Z -> j = Z.to_nat i.
Proof.
  unfold Numpy.index, ret. intros H Hi.
  destruct ((0 <=? i) && (i <? Z.of_nat n))%Z; [congruence|].
  destruct ((- Z.of_nat n <=? i) && (i <? 0))%Z eqn:E; [|discriminate].
  apply andb_true_iff in E. lia.
Qed.

Lemma set_nth_cases (j i : nat) (x : Q) (a : list Q) :
  (j < length a)%nat ->
  nth i (Numpy.set_nth j x a) 0 = if Nat.eqb i j then x else nth i a 0.
Proof.
  intro Hj. destruct (Nat.eqb_spec i j) as [->|Hne].
  - now apply set_nth_same.
  - apply set_nth_other. congruence.
Qed.

Lemma token_penalty_values (g : t) (pen : list Q) :
  token_penalty g = inr pen ->
  length pen = vocab_size g /\
  forall i, (i < vocab_size g)%nat ->
    let penalised :=
      (ignore_unk g = true /\ Numpy.index (vocab_size g) (unk_id g) = inr i) \/
      (exists m, mask_id g = Some m /\ (0 <= m)%Z /\ Z.to_nat m = i) in
    (penalised -> nth i pen 0 = - big) /\
    (~ penalised -> nth i pen 0 = 0).
Proof.
  unfold token_penalty, bind, ret. intro H.
  set (z := Numpy.zeros (vocab_size g)) in *.
  assert (Hz : length z = vocab_size g) by apply zeros_length.
  assert (Hz0 : forall i, nth i z 0 = 0) by (intro i; apply zeros_nth).
  destruct (ignore_unk g) eqn:Eu.
  - destruct (Numpy.setitem z (unk_id g) (- big)) as [e|p1] eqn:E1; [discriminate|].
    destruct (setitem_success _ _ _ _ E1) as (u & Hu & ->).
    rewrite Hz in Hu. pose proof (index_bound _ _ _ Hu) as Hub.
    destruct (mask_id g) as [m|] eqn:Em.
    + destruct (Z.leb_spec 0 m) as [Hm0|Hm0].
      * destruct (setitem_success _ _ _ _ H) as (k & Hk & ->).
        rewrite set_nth_length, Hz in Hk.
        pose proof (index_bound _ _ _ Hk) as Hkb.
        pose proof (index_nonnegative _ _ _ Hk Hm0) as Hkm.
        split; [now rewrite !set_nth_length|].
        intros i Hi.
        rewrite set_nth_cases by (rewrite set_nth_length; lia).
        rewrite set_nth_cases by lia. rewrite Hz0.
        destruct (Nat.eqb_spec i k) as [->|Hik].
        -- split; [reflexivity|]. intro Hn. exfalso. apply Hn. right.
           exists m. auto.
        -- destruct (Nat.eqb_spec i u) as [->|Hiu].
           ++ split; [reflexivity|]. intro Hn. exfalso. apply Hn. left. auto.
           ++ split; [|reflexivity]. intros [[_ Hp]|(m' & Hm' & _ & Hp)].
              ** congruence.
              ** injection Hm' as <-. congruence.
      * injection H as <-. split; [now rewrite set_nth_length|].
        intros i Hi. rewrite set_nth_cases by lia. rewrite Hz0.
        destruct (Nat.eqb_spec i u) as [->|Hiu].
        -- split; [reflexivity|]. intro Hn. exfalso. apply Hn. left. auto.
        -- split; [|reflexivity]. intros [[_ Hp]|(m' & Hm' & Hp & _)].
           ++ congruence.
           ++ injection Hm' as <-. lia.
    + injection H as <-. split; [now rewrite set_nth_length|].
      intros i Hi. rewrite set_nth_cases by lia. rewrite Hz0.
      destruct (Nat.eqb_spec i u) as [->|Hiu].
      * split; [reflexivity|]. intro Hn. exfalso. apply Hn. left. auto.
      * split; [|reflexivity]. intros [[_ Hp]|(m' & Hm' & _)]; congruence.
  - destruct (mask_id g) as [m|] eqn:Em.
    + destruct (Z.leb_spec 0 m) as [Hm0|Hm0].
      * destruct (setitem_success _ _ _ _ H) as (k & Hk & ->).
        rewrite Hz in Hk.
        pose proof (index_bound _ _ _ Hk) as Hkb.
        pose proof (index_nonnegative _ _ _ Hk Hm0) as Hkm.
        split; [now rewrite set_nth_length|].
        intros i Hi. rewrite set_nth_cases by lia. rewrite Hz0.
        destruct (Nat.eqb_spec i k) as [->|Hik].
        -- split; [reflexivity|]. intro Hn. exfalso. apply Hn. right.
           exists m. auto.
        -- split; [|reflexivity]. intros [[Hp _]|(m' & Hm' & _ & Hp)].
           ++ discriminate.
           ++ injection Hm' as <-. congruence.
      * injection H as <-. split; [exact Hz|].
        intros i Hi. rewrite Hz0.
        split; [|reflexivity]. intros [[Hp _]|(m' & Hm' & Hp & _)].
        -- discriminate.
        -- injection Hm' as <-. lia.
    + injection H as <-. split; [exact Hz|].
      intros i Hi. rewrite Hz0.
      split; [|reflexivity]. intros [[Hp _]|(m' & Hm' & _)]; discriminate.
Qed.

(** X2.  The token penalty of lines 134-139 is [-1e9] at the unknown-word
    token when [ignore_unk] is set (a negative [unk_id] counting from the end
    of the vocabulary) and at [mask_id] when it is given and not negative, and
    0 at every other token.  The penalties are assigned, not added: a token
    that is both the unknown word and the mask carries [-1e9] once. *)
Theorem token_penalty_entries (g : t) (pen : list Q) :
  token_penalty g = inr pen ->
  length pen = vocab_size g /\
  forall i, (i < vocab_size g)%nat ->
    let penalised :=
      (ignore_unk g = true /\ Numpy.index (vocab_size g) (unk_id g) = inr i) \/
      (exists m, mask_id g = Some m /\ (0 <= m)%Z /\ Z.to_nat m = i) in
    (penalised -> nth i pen 0 = - big) /\
    (~ penalised -> nth i pen 0 = 0).
Proof. exact (token_penalty_values g pen). Qed.

End TokenPenalty.

Section Strategies.

Import Generator.

Local Open Scope string_scope.

(** X3.  The sampling branches of the dispatch are chosen by prefix
    ([startswith]), the beam-search branch by equality: any string that
    starts with ["sampling"], ["topk_sampling"] or ["topp_sampling"] selects
    that branch whatever follows, while ["beam_search"] followed by anything
    is refused with [ValueError]. *)
Theorem strategy_is_matched_by_prefix (suffix : string) :
  strategy_of ("sampling" ++ suffix) = inr Sampling /\
  strategy_of ("topk_sampling" ++ suffix) = inr TopkSampling /\
  strategy_of ("topp_sampling" ++ suffix) = inr ToppSampling /\
  (suffix <> "" ->
   strategy_of ("beam_search" ++ suffix) = inl (ValueError ("beam_search" ++ suffix))).
Proof.
  split; [destruct suffix; reflexivity|].
  split; [destruct suffix; reflexivity|].
  split; [destruct suffix; reflexivity|].
  intro Hs. destruct suffix as [|c suffix]; [congruence|]. reflexivity.
Qed.

(** X4.  A strategy the command line accepts is always accepted by the
    dispatch, as beam search, top-k or top-p sampling: from the command line
    the [ValueError] of line 214 cannot be reached, and neither can plain
    sampling. *)
Theorem parsed_strategy_is_dispatched (s s' : string) :
  parse_decoding_strategy s = inr s' ->
  s' = s /\
  (strategy_of s' = inr BeamSearch \/ strategy_of s' = inr TopkSampling \/
   strategy_of s' = inr ToppSampling).
Proof.
  unfold parse_decoding_strategy, ret.
  destruct (existsb (String.eqb s) decoding_strategy_choices) eqn:E; [|discriminate].
  intro H. injection H as <-. split; [reflexivity|].
  apply existsb_exists in E. destruct E as (c & Hc & Hsc).
  apply String.eqb_eq in Hsc. subst c.
  simpl in Hc. destruct Hc as [<-|[<-|[<-|[]]]]; auto.
Qed.

End Strategies.

(** ** Top-k sampling *)

Section TopK.

Context {ops : Generator.Ops}.

Import Generator.

Lemma topk_values (a : list Q) (k : nat) :
  fst (Paddle.topk a k) = firstn k (fst (argsort_desc a)).
Proof.
  unfold Paddle.topk. rewrite split_fst_snd, argsort_fst. simpl.
  symmetry. apply firstn_map.
Qed.

Lemma last_firstn (l : list Q) (k : nat) :
  (1 <= k)%nat -> (k <= length l)%nat -> last (firstn k l) 0 = nth (k - 1) l 0.
Proof.
  revert k. induction l as [|x l IH]; intros k H1 H2; simpl in H2; [lia|].
  destruct k as [|k]; [lia|]. destruct k as [|k].
  - reflexivity.
  - change (firstn (S (S k)) (x :: l)) with (x :: firstn (S k) l).
    destruct l as [|y l]; [simpl in H2; lia|].
    change (last (x :: firstn (S k) (y :: l)) 0)
      with (last (firstn (S k) (y :: l)) 0).
    rewrite IH by (simpl in *; lia).
    replace (S (S k) - 1)%nat with (S (S k - 1)) by lia. reflexivity.
Qed.

Lemma map2_map_same {A B C : Type} (f : A -> B -> C) (h : A -> B) (l : list A) :
  map2 f l (map h l) = map (fun x => f x (h x)) l.
Proof. induction l as [|x l IH]; simpl; [reflexivity|]. now rewrite IH. Qed.

Lemma reduce_sum_perm (a b : list Q) :
  Permutation a b -> reduce_sum a == reduce_sum b.
Proof.
  induction 1 as [|x a b _ IH|x y a|a b c _ IH1 _ IH2]; simpl.
  - reflexivity.
  - now rewrite IH.
  - ring.
  - now rewrite IH1.
Qed.

Lemma reduce_sum_app (a b : list Q) :
  reduce_sum (a ++ b) == reduce_sum a + reduce_sum b.
Proof.
  induction a as [|x a IH]; simpl; [ring|]. rewrite IH. ring.
Qed.

Lemma Forall_firstn_nth (P : Q -> Prop) (l : list Q) (k : nat) :
  (forall r, (r < k)%nat -> (r < length l)%nat -> P (nth r l 0)) ->
  Forall P (firstn k l).
Proof.
  revert k. induction l as [|x l IH]; intros k H.
  - rewrite firstn_nil. constructor.
  - destruct k as [|k]; [constructor|]. simpl. constructor.
    + apply (H 0%nat); simpl; lia.
    + apply IH. intros r Hr Hl. apply (H (S r)); simpl; lia.
Qed.

Lemma Forall_skipn_nth (P : Q -> Prop) (l : list Q) (k : nat) :
  (forall r, (k <= r)%nat -> (r < length l)%nat -> P (nth r l 0)) ->
  Forall P (skipn k l).
Proof.
  revert k. induction l as [|x l IH]; intros k H.
  - rewrite skipn_nil. constructor.
  - destruct k as [|k].
    + simpl. constructor.
      * apply (H 0%nat); simpl; lia.
      * apply (IH 0%nat). intros r Hr Hl. apply (H (S r)); simpl; lia.
    + simpl. apply IH. intros r Hr Hl. apply (H (S r)); simpl; lia.
Qed.

(** The weight line 192 gives a token of probability [p]. *)
Lemma topk_sampling_probs_map (k : nat) (probs : list Q) :
  topk_sampling_probs k probs
  = map (fun p => p * ind (Qle_bool (last (fst (Paddle.topk probs k)) 0) p)
                  / reduce_sum (fst (Paddle.topk probs k))) probs.
Proof.
  unfold topk_sampling_probs. cbv zeta.
  apply (map2_map_same (fun p c => p * c / reduce_sum (fst (Paddle.topk probs k)))).
Qed.

(** X5.  For [1 <= k <= vocabulary size], top-k sampling draws from the
    distribution that gives a token its probability divided by the sum of the
    [k] largest probabilities when that probability is at least the [k]-th
    largest one, and 0 when it is strictly below; the tokens of the first [k]
    ranks are always among those kept. *)
Theorem topk_sampling_keeps_top_k (k : nat) (probs : list Q) :
  (1 <= k)%nat -> (k <= length probs)%nat ->
  let sorted_probs := fst (argsort_desc probs) in
  let sorted_idx := snd (argsort_desc probs) in
  let kth := nth (k - 1) sorted_probs 0 in
  let total := reduce_sum (firstn k sorted_probs) in
  let dist := topk_sampling_probs k probs in
  (forall i, (i < length probs)%nat -> kth <= nth i probs 0 ->
     nth i dist 0 == nth i probs 0 / total) /\
  (forall i, (i < length probs)%nat -> nth i probs 0 < kth ->
     nth i dist 0 == 0) /\
  (forall r, (r < k)%nat -> kth <= nth (nth r sorted_idx 0%nat) probs 0).
Proof.
  intros Hk1 Hk2 sorted_probs sorted_idx kth total dist.
  assert (Hkth : last (fst (Paddle.topk probs k)) 0 = kth).
  { rewrite topk_values. apply last_firstn; [exact Hk1|].
    now rewrite argsort_fst_length. }
  assert (Htot : reduce_sum (fst (Paddle.topk probs k)) = total)
    by now rewrite topk_values.
  assert (Hnth : forall i, (i < length probs)%nat ->
            nth i dist 0 = nth i probs 0 * ind (Qle_bool kth (nth i probs 0)) / total).
  { intros i Hi. unfold dist. rewrite topk_sampling_probs_map, Hkth, Htot.
    rewrite (nth_indep _ 0 (0 * ind (Qle_bool kth 0) / total))
      by now rewrite length_map.
    apply (map_nth (fun p => p * ind (Qle_bool kth p) / total)). }
  split; [|split].
  - intros i Hi Hge. rewrite (Hnth i Hi).
    apply Qle_bool_iff in Hge. rewrite Hge. unfold ind, Qdiv. ring.
  - intros i Hi Hlt. rewrite (Hnth i Hi).
    apply Qltb_lt in Hlt. unfold Qltb in Hlt. apply negb_true_iff in Hlt.
    rewrite Hlt. unfold ind, Qdiv. ring.
  - intros r Hr.
    destruct (argsort_value probs r ltac:(lia)) as [_ Hv].
    fold sorted_probs sorted_idx in Hv. rewrite <- Hv.
    apply argsort_descending; lia.
Qed.

(** X6.  Top-k sampling normalises by the sum of the [k] largest
    probabilities only.  For probabilities that are not negative and a
    positive such sum, the distribution drawn from sums to at least 1; it
    sums to exactly 1 when the probability of rank [k+1] is strictly below
    that of rank [k], that is, when no tie makes line 189 keep more than [k]
    tokens. *)
Theorem topk_sampling_distribution_sum (k : nat) (probs : list Q) :
  (1 <= k)%nat -> (k <= length probs)%nat ->
  Forall (fun x => 0 <= x) probs ->
  let sorted_probs := fst (argsort_desc probs) in
  0 < reduce_sum (firstn k sorted_probs) ->
  1 <= reduce_sum (topk_sampling_probs k probs) /\
  (((k < length probs)%nat ->
    nth k sorted_probs 0 < nth (k - 1) sorted_probs 0) ->
   reduce_sum (topk_sampling_probs k probs) == 1).
Proof.
  intros Hk1 Hk2 Hpos sorted_probs Htot.
  set (kth := nth (k - 1) sorted_probs 0).
  set (total := reduce_sum (firstn k sorted_probs)) in *.
  set (f := fun p => p * ind (Qle_bool kth p) / total).
  assert (Hlen : length sorted_probs = length probs)
    by apply argsort_fst_length.
  assert (Hdist : topk_sampling_probs k probs = map f probs).
  { rewrite topk_sampling_probs_map, topk_values.
    fold sorted_probs. rewrite last_firstn by lia. reflexivity. }
  assert (Hsum : reduce_sum (map f probs)
                 == reduce_sum (map f (firstn k sorted_probs))
                    + reduce_sum (map f (skipn k sorted_probs))).
  { rewrite <- reduce_sum_app, <- map_app, firstn_skipn.
    apply reduce_sum_perm, Permutation_map. symmetry.
    apply argsort_values_permutation. }
  assert (Hspos : Forall (fun x => 0 <= x) sorted_probs).
  { eapply Permutation_Forall; [symmetry; apply argsort_values_permutation|exact Hpos]. }
  assert (Hhead : reduce_sum (map f (firstn k sorted_probs)) == 1).
  { assert (Hall : Forall (fun x => kth <= x) (firstn k sorted_probs)).
    { apply Forall_firstn_nth. intros r Hr Hl. unfold kth, sorted_probs.
      apply argsort_descending; lia. }
    assert (G : forall l, Forall (fun x => kth <= x) l ->
                  reduce_sum (map f l) == reduce_sum l / total).
    { induction 1 as [|x l Hx _ IH].
      - unfold Qdiv. simpl. ring.
      - change (f x + reduce_sum (map f l) == (x + reduce_sum l) / total).
        rewrite IH. unfold f. apply Qle_bool_iff in Hx. rewrite Hx.
        unfold ind, Qdiv. ring. }
    rewrite (G _ Hall). fold total. field. intro H0. rewrite H0 in Htot.
    discriminate. }
  assert (Hf0 : forall x, 0 <= x -> 0 <= f x).
  { intros x Hx. unfold f, Qdiv.
    apply Qmult_le_0_compat; [apply Qmult_le_0_compat; [exact Hx|]|].
    - destruct (Qle_bool kth x); unfold ind; discriminate.
    - apply Qlt_le_weak, Qinv_lt_0_compat, Htot. }
  assert (Htail : 0 <= reduce_sum (map f (skipn k sorted_probs))).
  { assert (Hs : Forall (fun x => 0 <= x) (skipn k sorted_probs)).
    { rewrite <- (firstn_skipn k sorted_probs) in Hspos.
      now apply Forall_app in Hspos. }
    revert Hs. generalize (skipn k sorted_probs) as l.
    induction 1 as [|x l Hx _ IH]; [apply Qle_refl|].
    change (0 <= f x + reduce_sum (map f l)).
    pose proof (Hf0 x Hx). lra. }
  rewrite Hdist, Hsum, Hhead. split; [lra|].
  intro Hgap.
  assert (Hlow : Forall (fun x => x < kth) (skipn k sorted_probs)).
  { apply Forall_skipn_nth. intros r Hr Hl.
    apply Qle_lt_trans with (nth k sorted_probs 0).
    - unfold sorted_probs. apply argsort_descending; lia.
    - apply Hgap. lia. }
  assert (Hzero : reduce_sum (map f (skipn k sorted_probs)) == 0).
  { revert Hlow. generalize (skipn k sorted_probs) as l.
    induction 1 as [|x l Hx _ IH]; [reflexivity|].
    change (f x + reduce_sum (map f l) == 0).
    rewrite IH. unfold f. apply Qltb_lt in Hx. unfold Qltb in Hx.
    apply negb_true_iff in Hx. rewrite Hx. unfold ind, Qdiv. ring. }
  rewrite Hzero. ring.
Qed.

End TopK.

(** ** Top-p sampling at the ends of the range of [topp] *)

Section TopPEdges.

Context {ops : Generator.Ops}.

Import Generator.

Lemma sorted_nonneg (probs : list Q) :
  Forall (fun x => 0 <= x) probs ->
  Forall (fun x => 0 <= x) (fst (argsort_desc probs)).
Proof.
  intro H. eapply Permutation_Forall; [symmetry; apply argsort_values_permutation|exact H].
Qed.

Lemma partial_sum_bounds (l : list Q) (r : nat) :
  Forall (fun x => 0 <= x) l ->
  0 <= reduce_sum (firstn r l) /\ reduce_sum (firstn r l) <= reduce_sum l.
Proof.
  intro H. split.
  - apply (reduce_sum_firstn_mono l 0 r H). lia.
  - destruct (Nat.le_ge_cases r (length l)) as [Hr|Hr].
    + rewrite <- (firstn_all l) at 2. now apply reduce_sum_firstn_mono.
    + rewrite firstn_all2 by assumption. apply Qle_refl.
Qed.

Lemma candidate_kept (topp : Q) (probs : list Q) (r : nat) :
  (r < length probs)%nat ->
  reduce_sum (firstn r (fst (argsort_desc probs))) < topp ->
  nth r (candidate_probs topp probs) 0 == nth r (fst (argsort_desc probs)) 0.
Proof.
  intros Hr Hlt. rewrite candidate_probs_nth by assumption.
  rewrite <- cumsum_exclusive_nth in Hlt by now rewrite argsort_fst_length.
  apply Qltb_lt in Hlt. rewrite Hlt. unfold ind. ring.
Qed.

Lemma candidate_dropped (topp : Q) (probs : list Q) (r : nat) :
  (r < length probs)%nat ->
  topp <= reduce_sum (firstn r (fst (argsort_desc probs))) ->
  nth r (candidate_probs topp probs) 0 == 0.
Proof.
  intros Hr Hge. rewrite candidate_probs_nth by assumption.
  rewrite <- cumsum_exclusive_nth in Hge by now rewrite argsort_fst_length.
  apply Qltb_ge in Hge. rewrite Hge. unfold ind. ring.
Qed.

(** X7.  On probabilities that are not negative: with [topp <= 0] top-p
    sampling keeps no rank, every candidate probability is 0 (so that line
    208 divides by a zero sum); with [topp] above the sum of the
    probabilities it keeps every rank, which makes it plain sampling from the
    sorted distribution; and with [topp > 0] the most probable token is
    always kept. *)
Theorem topp_extreme_thresholds (topp : Q) (probs : list Q) :
  Forall (fun x => 0 <= x) probs ->
  (topp <= 0 ->
     Forall (fun c => c == 0) (candidate_probs topp probs) /\
     reduce_sum (candidate_probs topp probs) == 0) /\
  (reduce_sum probs < topp ->
     Forall2 Qeq (candidate_probs topp probs) (fst (argsort_desc probs))) /\
  (0 < topp -> probs <> [] ->
     nth 0 (candidate_probs topp probs) 0 == nth 0 (fst (argsort_desc probs)) 0).
Proof.
  intro Hpos. pose proof (sorted_nonneg probs Hpos) as Hs.
  split; [|split].
  - intro Ht.
    assert (Hall : Forall (fun c => c == 0) (candidate_probs topp probs)).
    { apply Forall_nth. intros i d Hi. rewrite candidate_probs_length in Hi.
      rewrite (nth_indep _ d 0) by now rewrite candidate_probs_length.
      apply candidate_dropped; [exact Hi|].
      destruct (partial_sum_bounds _ i Hs) as [H0 _]. lra. }
    split; [exact Hall|].
    revert Hall. generalize (candidate_probs topp probs) as l.
    induction 1 as [|x l Hx _ IH]; [reflexivity|].
    change (x + reduce_sum l == 0). rewrite Hx, IH. ring.
  - intro Ht. apply rows_eq_nth.
    + now rewrite candidate_probs_length, argsort_fst_length.
    + intros i Hi. rewrite candidate_probs_length in Hi.
      apply candidate_kept; [exact Hi|].
      destruct (partial_sum_bounds _ i Hs) as [_ H1].
      rewrite (reduce_sum_perm _ _ (argsort_values_permutation probs)) in H1.
      lra.
  - intros Ht Hne. apply candidate_kept.
    + now apply nonempty_length.
    + exact Ht.
Qed.

Lemma head_le_sum (l : list Q) :
  Forall (fun x => 0 <= x) l -> nth 0 l 0 <= reduce_sum l.
Proof.
  intro H. destruct H as [|x l Hx Hl]; [apply Qle_refl|].
  change (x <= x + reduce_sum l).
  destruct (partial_sum_bounds l (length l) Hl) as [H0 _].
  rewrite firstn_all in H0. lra.
Qed.

(** X8.  For [topp > 0] and probabilities that are not negative and not all
    zero, the ranks top-p sampling keeps form a prefix of the descending sort
    order (a rank before a kept rank is kept) and the distribution the rank
    is drawn from sums to 1. *)
Theorem topp_nucleus_is_normalised_prefix (topp : Q) (probs : list Q) :
  Forall (fun x => 0 <= x) probs ->
  0 < topp ->
  0 < reduce_sum probs ->
  reduce_sum (topp_sampling_probs topp probs) == 1 /\
  (forall r r', (r <= r')%nat -> (r' < length probs)%nat ->
     reduce_sum (firstn r' (fst (argsort_desc probs))) < topp ->
     nth r (candidate_probs topp probs) 0 == nth r (fst (argsort_desc probs)) 0).
Proof.
  intros Hpos Ht Hsum. pose proof (sorted_nonneg probs Hpos) as Hs.
  split.
  - apply topp_sampling_probs_normalised.
    assert (Hne : probs <> []).
    { intros ->. simpl in Hsum. discriminate. }
    assert (Hlen : (0 < length probs)%nat) by now apply nonempty_length.
    (* the largest probability is positive *)
    assert (Hmax : 0 < nth 0 (fst (argsort_desc probs)) 0).
    { apply Qnot_le_lt. intro Hle.
      assert (Hz : reduce_sum (fst (argsort_desc probs)) <= 0).
      { assert (Hall : Forall (fun x => x <= 0) (fst (argsort_desc probs))).
        { apply Forall_nth. intros i d Hi. rewrite argsort_fst_length in Hi.
          rewrite (nth_indep _ d 0) by now rewrite argsort_fst_length.
          eapply Qle_trans; [apply argsort_descending with (r := 0%nat); lia|exact Hle]. }
        revert Hall. generalize (fst (argsort_desc probs)) as l.
        induction 1 as [|x l Hx _ IH]; [apply Qle_refl|].
        change (x + reduce_sum l <= 0). lra. }
      rewrite (reduce_sum_perm _ _ (argsort_values_permutation probs)) in Hz.
      lra. }
    (* the candidate probabilities are not negative and the first is kept *)
    assert (Hc0 : nth 0 (candidate_probs topp probs) 0
                  == nth 0 (fst (argsort_desc probs)) 0)
      by (apply candidate_kept; [exact Hlen|exact Ht]).
    assert (Hcpos : Forall (fun x => 0 <= x) (candidate_probs topp probs)).
    { apply Forall_nth. intros i d Hi. rewrite candidate_probs_length in Hi.
      rewrite (nth_indep _ d 0) by now rewrite candidate_probs_length.
      rewrite candidate_probs_nth by assumption.
      apply Qmult_le_0_compat.
      - rewrite Forall_forall in Hs. apply Hs, nth_In.
        now rewrite argsort_fst_length.
      - destruct (Qltb _ topp); unfold ind; discriminate. }
    pose proof (head_le_sum _ Hcpos) as Hh. rewrite Hc0 in Hh.
    intro H0. rewrite H0 in Hh. lra.
  - intros r r' Hrr Hr' Hk. apply candidate_kept; [lia|].
    now apply (kept_ranks_form_prefix topp probs r r').
Qed.

End TopPEdges.

(** ** The score policies over several steps *)

Section Policies.

Context {ops : Generator.Ops}.

Import Generator.

Lemma inject_Z_nonneg (z : Z) : (0 <= z)%Z -> 0 <= inject_Z z.
Proof. intro H. unfold Qle. simpl. lia. Qed.

Lemma inject_Z_pos (z : Z) : (0 < z)%Z -> 0 < inject_Z z.
Proof. intro H. unfold Qlt. simpl. lia. Qed.

Lemma inject_Z_length_succ {A : Type} (x : A) (l : list A) :
  inject_Z (Z.of_nat (length (x :: l))) = inject_Z (Z.of_nat (length l)) + 1.
Proof.
  simpl length. rewrite Nat2Z.inj_succ. unfold Z.succ. apply inject_Z_succ.
Qed.

Lemma accumulate_average (g : t) (ls : list Q) :
  length_average g = true ->
  forall (k : Z) (S : Q), (0 <= k)%Z -> ((0 < k)%Z \/ ls <> []) ->
  accumulate g k S ls
  == (S * inject_Z k + reduce_sum ls)
     / (inject_Z k + inject_Z (Z.of_nat (length ls))).
Proof.
  intro Ha. induction ls as [|l ls IH]; intros k S Hk Hne.
  - destruct Hne as [Hk0|Hne]; [|congruence].
    pose proof (inject_Z_pos k Hk0) as Hq. simpl.
    change (inject_Z 0) with 0. field. lra.
  - assert (Hk1 : (0 <= k + 1)%Z) by lia.
    change (accumulate g k S (l :: ls))
      with (accumulate g (k + 1)
              (accu_scores g l S (inject_Z k) (inject_Z (k + 1))) ls).
    rewrite (IH (k + 1)%Z _ Hk1) by (left; lia).
    unfold accu_scores. rewrite Ha.
    rewrite inject_Z_length_succ, inject_Z_succ.
    change (reduce_sum (l :: ls)) with (l + reduce_sum ls).
    pose proof (inject_Z_nonneg k Hk) as Hq.
    pose proof (inject_Z_nonneg (Z.of_nat (length ls)) (Nat2Z.is_nonneg _)) as Hn.
    field. split; lra.
Qed.

(** X9.  Under length averaging, the score of a candidate that has stayed
    live for [n >= 1] steps from step 0 is the arithmetic mean of the [n]
    log-probabilities of its tokens; the score it started with plays no
    part. *)
Theorem length_average_is_mean (g : t) (S0 : Q) (ls : list Q) :
  length_average g = true -> ls <> [] ->
  accumulate g 0 S0 ls == reduce_sum ls / inject_Z (Z.of_nat (length ls)).
Proof.
  intros Ha Hne.
  rewrite (accumulate_average g ls Ha 0%Z S0) by (try lia; now right).
  change (inject_Z 0) with 0.
  assert (Hn : 0 < inject_Z (Z.of_nat (length ls))).
  { apply inject_Z_pos. destruct ls; [congruence|]. simpl length. lia. }
  field. lra.
Qed.

(** X10.  Without length averaging: when [length_penalty] is not positive the
    score after the steps is the initial score plus the sum of the
    log-probabilities; when it is positive, and the penalty
    [lp L = ((5 + L) / 6) ^ length_penalty] does not vanish, the score times
    the penalty of the current length is the initial score times the penalty
    of the initial length plus the sum of the log-probabilities: the
    intermediate penalties cancel from one step to the next. *)
Theorem unaveraged_scores_telescope (g : t) (ls : list Q) (k : Z) (S : Q) :
  length_average g = false ->
  let lp := fun L : Z => pow ((5 + inject_Z L) / 6) (length_penalty g) in
  (~ 0 < length_penalty g -> accumulate g k S ls == S + reduce_sum ls) /\
  (0 < length_penalty g ->
   (forall L, (k <= L)%Z -> ~ lp L == 0) ->
   accumulate g k S ls * lp (k + Z.of_nat (length ls))%Z
   == S * lp k + reduce_sum ls).
Proof.
  intros Ha lp. split.
  - intro Hp.
    assert (E : Qltb 0 (length_penalty g) = false).
    { destruct (Qltb 0 (length_penalty g)) eqn:E; [|reflexivity].
      apply Qltb_lt in E. contradiction. }
    revert k S. induction ls as [|l ls IH]; intros k S.
    + simpl. ring.
    + change (accumulate g k S (l :: ls))
        with (accumulate g (k + 1)
                (accu_scores g l S (inject_Z k) (inject_Z (k + 1))) ls).
      rewrite IH. unfold accu_scores. rewrite Ha, E.
      change (reduce_sum (l :: ls)) with (l + reduce_sum ls). ring.
  - intros Hp. apply Qltb_lt in Hp. revert k S.
    induction ls as [|l ls IH]; intros k S Hnz.
    + simpl. rewrite Z.add_0_r. ring.
    + change (accumulate g k S (l :: ls))
        with (accumulate g (k + 1)
                (accu_scores g l S (inject_Z k) (inject_Z (k + 1))) ls).
      replace (k + Z.of_nat (length (l :: ls)))%Z
        with (k + 1 + Z.of_nat (length ls))%Z by (simpl length; lia).
      rewrite IH by (intros L HL; apply Hnz; lia).
      unfold accu_scores. rewrite Ha, Hp. cbv zeta.
      change (reduce_sum (l :: ls)) with (l + reduce_sum ls).
      pose proof (Hnz (k + 1)%Z ltac:(lia)) as H1. unfold lp in *.
      set (a := pow ((5 + inject_Z k) / 6) (length_penalty g)) in *.
      set (b := pow ((5 + inject_Z (k + 1)) / 6) (length_penalty g)) in *.
      field. exact H1.
Qed.

End Policies.

(** ** Runs of the decoding loop *)

Section Runs.

Context {ops : Generator.Ops} {model : Generator.Model}
        {blocker : Generator.NGramBlockingProcessor}.

Import Generator.

Lemma while_op_runs (f : Loop -> Loop) (n : nat) :
  forall l, cond (iterate n f l) = false ->
  (forall k, (k < n)%nat -> cond (iterate k f l) = true) ->
  forall fuel, (n <= fuel)%nat -> while_op fuel f l = Some (iterate n f l).
Proof.
  induction n as [|n IH]; intros l Hf Ht fuel Hfuel.
  - simpl in Hf. destruct fuel; simpl; now rewrite Hf.
  - destruct fuel as [|fuel]; [lia|].
    pose proof (Ht 0%nat ltac:(lia)) as H0. simpl in H0.
    simpl. rewrite H0. apply IH; [exact Hf| |lia].
    intros k Hk. apply (Ht (S k)). lia.
Qed.

Lemma build_plan (g : t) (p : Plan) :
  build g = inr p ->
  eos_penalty g = inr (plan_eos_penalty p) /\
  token_penalty g = inr (plan_token_penalty p) /\
  strategy_of (decoding_strategy g) = inr (plan_strategy p).
Proof.
  intro H. destruct (build_inversion g p H) as (He & Hk & _ & Hs & _). auto.
Qed.


(** X12.  The number of iterations is decided by the first iteration after
    which every candidate is finished: if no candidate set is all finished
    after iterations [1 .. n-1] and either [n = max_dec_len] or all
    candidates are finished after iteration [n], the loop performs exactly
    [n] iterations and leaves with step index [n].  In particular a model
    that never finishes all its candidates is run for exactly [max_dec_len]
    iterations. *)
Theorem loop_runs_until_first_stop (g : t) (p : Plan) (inputs : Inputs) (n : nat) :
  let after := fun k => iterate k (body g p) (init g inputs) in
  (1 <= n)%nat ->
  (Z.of_nat n <= max_dec_len g)%Z ->
  (forall k, (1 <= k)%nat -> (k < n)%nat ->
     reduce_all (is_finished (state (after k))) = false) ->
  (Z.of_nat n = max_dec_len g \/
   reduce_all (is_finished (state (after n))) = true) ->
  runs g p inputs n /\
  (forall fuel, (n <= fuel)%nat ->
     while_op fuel (body g p) (init g inputs) = Some (after n)) /\
  step_idx (after n) = Z.of_nat n.
Proof.
  intros after Hn1 Hmax Hlive Hstop.
  assert (Hidx : forall k, step_idx (after k) = Z.of_nat k).
  { intro k. unfold after. rewrite iterate_step_idx. simpl. lia. }
  assert (Hr : runs g p inputs n).
  { split.
    - destruct n as [|n]; [lia|].
      rewrite cond_after_iteration by (simpl step_idx; lia).
      apply negb_false_iff. unfold stop_test. fold (after (S n)).
      rewrite Hidx. destruct Hstop as [Hs|Hs].
      + rewrite Hs, Z.eqb_refl. reflexivity.
      + rewrite Hs. apply orb_true_r.
    - intros [|k] Hk.
      + simpl. apply Z.ltb_lt. lia.
      + rewrite cond_after_iteration by (simpl step_idx; lia).
        apply negb_true_iff. unfold stop_test. fold (after (S k)).
        rewrite Hidx, (Hlive (S k)) by lia.
        rewrite orb_false_r. apply Z.eqb_neq. lia. }
  split; [exact Hr|]. split; [|apply Hidx].
  intros fuel Hfuel. destruct Hr as [Hf Ht].
  now apply while_op_runs.
Qed.

Lemma batch_logits_row (g : t) (p : Plan) (l : Loop) (logits : list (list Q))
    (i : nat) :
  ngram l = None ->
  (i < length logits)%nat -> (i < length (is_finished (state l)))%nat ->
  nth i (batch_logits g p l logits) []
  = penalized_logits (step_idx l) (min_dec_len g)
      (nth i (is_finished (state l)) false) (plan_eos_penalty p)
      (vadd (nth i logits []) (plan_token_penalty p)).
Proof.
  intros Hn Hi Hf. unfold batch_logits. rewrite Hn.
  rewrite (map2_nth _ _ _ i [] false []) by (rewrite ?length_map; assumption).
  f_equal.
  change (@nil Q) with (vadd [] (plan_token_penalty p)) at 1.
  apply (map_nth (fun r => vadd r (plan_token_penalty p))).
Qed.

Lemma ngram_stays_off (g : t) (p : Plan) (inputs : Inputs) (k : nat) :
  (ngram_blocking g <= 0)%Z ->
  ngram (iterate k (body g p) (init g inputs)) = None.
Proof.
  intro H. induction k as [|k IH].
  - simpl. destruct (Z.ltb_spec 0 (ngram_blocking g)); [lia|reflexivity].
  - rewrite iterate_succ. unfold body at 1.
    destruct (prepare_timestep_input _ _) as [[mi ids] sc]. simpl.
    now rewrite IH.
Qed.

(** X13.  In a run without n-gram blocking and with [ignore_unk] set, at
    every iteration and for every candidate, finished or not, the logit of
    the unknown-word token reaches the softmax lowered by exactly [1e9]: the
    minimum-length penalty and the finished-candidate boost only touch the
    end-of-sequence token (taken here to be another token). *)
Theorem unknown_token_is_always_penalised (g : t) (p : Plan) (inputs : Inputs)
    (u j : nat) :
  build g = inr p ->
  (ngram_blocking g <= 0)%Z ->
  ignore_unk g = true ->
  Numpy.index (vocab_size g) (unk_id g) = inr u ->
  Numpy.index (vocab_size g) (eos_id g) = inr j ->
  u <> j ->
  forall (k : nat) (logits : list (list Q)) (i : nat),
    let l := iterate k (body g p) (init g inputs) in
    (i < length logits)%nat -> (i < length (is_finished (state l)))%nat ->
    length (nth i logits []) = vocab_size g ->
    nth u (nth i (batch_logits g p l logits) []) 0
    == nth u (nth i logits []) 0 - big.
Proof.
  intros Hb Hng Hunk Hu Hj Huj k logits i l Hi Hf Hrow.
  destruct (build_plan g p Hb) as (He & Hk & _).
  destruct (eos_penalty_entries g _ j He Hj) as (Hel & _ & Heo).
  destruct (token_penalty_values g _ Hk) as (Htl & Hte).
  pose proof (index_bound _ _ _ Hu) as Hub.
  destruct (Hte u Hub) as [Htu _].
  rewrite batch_logits_row by (try assumption; apply ngram_stays_off; assumption).
  assert (Hvl : length (vadd (nth i logits []) (plan_token_penalty p)) = vocab_size g).
  { unfold vadd. rewrite map2_length. lia. }
  rewrite penalized_logits_nth by lia.
  rewrite (Heo u Huj).
  assert (Hm : nth u (min_len_case (step_idx l) (min_dec_len g)
                        (vadd (nth i logits []) (plan_token_penalty p))
                        (plan_eos_penalty p)) 0
               == nth u (nth i logits []) 0 - big).
  { unfold min_len_case. destruct (step_idx l <? min_dec_len g)%Z.
    - rewrite vadd_nth by lia. rewrite vadd_nth by lia.
      rewrite (Heo u Huj), Htu by (left; auto). ring.
    - rewrite vadd_nth by lia. rewrite Htu by (left; auto). ring. }
  rewrite Hm. ring.
Qed.

End Runs.

(** * Further properties of the negative-sample mixer *)

Section Mixing.

Context {rs : NSPReader.RandomState}.

Import NSPReader.

Variable self : t.

Local Notation "'relabel'" := (fun r : record => replace_label r 1).

Lemma clip_in_bounds {A : Type} (l : list A) (i : Z) :
  (0 <= i <= Z.of_nat (length l))%Z -> clip l i = Z.to_nat i.
Proof.
  intro H. unfold clip. destruct (Z.ltb_spec i 0); [lia|].
  rewrite Z.min_l by lia. reflexivity.
Qed.

Lemma slice_lengths {A : Type} (l : list A) (i : Z) :
  (0 <= i <= Z.of_nat (length l))%Z ->
  length (slice_to l i) = Z.to_nat i /\
  length (slice_from l i) = (length l - Z.to_nat i)%nat.
Proof.
  intro H. unfold slice_to, slice_from. rewrite clip_in_bounds by assumption.
  rewrite length_firstn, length_skipn. lia.
Qed.

Lemma neg_record_fields (ri rj r : record) :
  neg_record self ri rj = inr r ->
  label r = Some 0%Z /\ data_id r = (-1)%Z /\ tgt_start_idx r = tgt_start_idx ri /\
  token_ids r = slice_to (token_ids ri) (tgt_start_idx ri)
                ++ slice_from (token_ids rj) (tgt_start_idx rj) /\
  type_ids r = slice_to (type_ids ri) (tgt_start_idx ri)
               ++ slice_from (type_ids rj) (tgt_start_idx rj) /\
  pos_ids r = (if String.eqb (position_style self) "continuous"
               then map Z.of_nat (seq 0 (length (token_ids r)))
               else slice_to (pos_ids ri) (tgt_start_idx ri)
                    ++ slice_from (pos_ids rj) (tgt_start_idx rj)).
Proof.
  unfold neg_record, bind, ret.
  destruct (if use_role self then _ else _) as [e|roles]; [discriminate|].
  intro H. injection H as <-. simpl. repeat split; reflexivity.
Qed.

Lemma neg_record_without_roles (ri rj : record) :
  use_role self = false -> exists r, neg_record self ri rj = inr r.
Proof.
  intro H. unfold neg_record, bind, ret. rewrite H. eexists. reflexivity.
Qed.

(** X14.  Without roles, the negative record built from the context of one
    well-formed record and the response of another is itself well formed: it
    has one type and one position per token, its [tgt_start_idx] is that of
    the context record and is exactly where the other record's response
    begins in its tokens; it is labelled 0 and carries [data_id = -1].  With
    roles, a record that has no [role_ids] makes the construction raise
    [TypeError]. *)
Theorem neg_record_is_well_formed (ri rj : record) :
  (use_role self = false -> well_formed ri -> well_formed rj ->
   exists r, neg_record self ri rj = inr r /\
     well_formed r /\
     label r = Some 0%Z /\ data_id r = (-1)%Z /\
     tgt_start_idx r = tgt_start_idx ri /\
     firstn (Z.to_nat (tgt_start_idx r)) (token_ids r)
       = firstn (Z.to_nat (tgt_start_idx ri)) (token_ids ri) /\
     skipn (Z.to_nat (tgt_start_idx r)) (token_ids r)
       = skipn (Z.to_nat (tgt_start_idx rj)) (token_ids rj)) /\
  (use_role self = true -> role_ids ri = None \/ role_ids rj = None ->
   neg_record self ri rj = inl TypeError).
Proof.
  split.
  - intros Hu (Hti & Hpi & Hii) (Htj & Hpj & Hij).
    destruct (neg_record_without_roles ri rj Hu) as [r Hr].
    exists r. split; [exact Hr|].
    destruct (neg_record_fields ri rj r Hr) as (Hl & Hd & Hs & Htok & Htyp & Hpos).
    destruct (slice_lengths (token_ids ri) (tgt_start_idx ri) Hii) as [Ha1 _].
    destruct (slice_lengths (token_ids rj) (tgt_start_idx rj) Hij) as [_ Ha2].
    assert (Hlen : length (token_ids r)
                   = (Z.to_nat (tgt_start_idx ri)
                      + (length (token_ids rj) - Z.to_nat (tgt_start_idx rj)))%nat).
    { rewrite Htok, length_app. lia. }
    split; [|repeat split; try assumption].
    + split; [|split].
      * rewrite Htyp, length_app, Hlen.
        destruct (slice_lengths (type_ids ri) (tgt_start_idx ri)) as [-> _]; [lia|].
        destruct (slice_lengths (type_ids rj) (tgt_start_idx rj)) as [_ ->]; [lia|].
        lia.
      * rewrite Hpos. destruct (String.eqb (position_style self) "continuous").
        -- now rewrite length_map, length_seq.
        -- rewrite length_app, Hlen.
           destruct (slice_lengths (pos_ids ri) (tgt_start_idx ri)) as [-> _]; [lia|].
           destruct (slice_lengths (pos_ids rj) (tgt_start_idx rj)) as [_ ->]; [lia|].
           lia.
      * rewrite Hs, Hlen. lia.
    + rewrite Hs, Htok. unfold slice_to. rewrite clip_in_bounds by assumption.
      rewrite firstn_app, length_firstn.
      replace (Z.to_nat (tgt_start_idx ri)
               - Nat.min (Z.to_nat (tgt_start_idx ri)) (length (token_ids ri)))%nat
        with 0%nat by lia.
      rewrite firstn_O, app_nil_r, firstn_firstn, Nat.min_id. reflexivity.
    + rewrite Hs, Htok. unfold slice_to, slice_from.
      rewrite !clip_in_bounds by assumption.
      rewrite skipn_app, length_firstn.
      replace (Z.to_nat (tgt_start_idx ri)
               - Nat.min (Z.to_nat (tgt_start_idx ri)) (length (token_ids ri)))%nat
        with 0%nat by lia.
      rewrite skipn_all2 by (rewrite length_firstn; lia). reflexivity.
  - intros Hu Hn. unfold neg_record, bind. rewrite Hu.
    destruct Hn as [-> | ->]; [reflexivity|].
    destruct (role_ids ri); reflexivity.
Qed.

Lemma set_nth_middle {A : Type} (a : list A) (x y : A) (rest : list A) :
  set_nth (length a) y (a ++ x :: rest) = a ++ y :: rest.
Proof. induction a as [|z a IH]; simpl; [reflexivity|]. now rewrite IH. Qed.

Lemma skipn_cons_nth {A : Type} (l : list A) (i : nat) (d : A) :
  (i < length l)%nat -> skipn i l = nth i l d :: skipn (S i) l.
Proof.
  revert i. induction l as [|x l IH]; intros [|i] H; simpl in *; try lia.
  - reflexivity.
  - apply IH. lia.
Qed.

Lemma firstn_snoc_nth {A : Type} (l : list A) (i : nat) (d : A) :
  (i < length l)%nat -> firstn (S i) l = firstn i l ++ [nth i l d].
Proof.
  revert i. induction l as [|x l IH]; intros [|i] H; simpl in *; try lia.
  - reflexivity.
  - f_equal. apply IH. lia.
Qed.

(** In a pool whose first [i] records are relabelled, a record differs from
    the original one by its label at most. *)
Lemma nth_partly_relabelled (pool : list record) (i j : nat) (negs : list record) :
  (j < length pool)%nat -> (i <= length pool)%nat ->
  let r := nth j (map relabel (firstn i pool) ++ skipn i pool ++ negs) no_record in
  r = nth j pool no_record \/ r = replace_label (nth j pool no_record) 1.
Proof.
  intros Hj Hi r. unfold r.
  assert (Hl : length (map relabel (firstn i pool)) = i)
    by (rewrite length_map, length_firstn; lia).
  destruct (Nat.lt_ge_cases j i) as [Hji|Hji].
  - right. rewrite app_nth1 by lia.
    rewrite (nth_indep _ no_record (replace_label no_record 1)) by lia.
    rewrite (map_nth relabel). rewrite nth_firstn.
    destruct (Nat.ltb_spec j i); [reflexivity|lia].
  - left. rewrite app_nth2 by lia. rewrite Hl.
    rewrite app_nth1 by (rewrite length_skipn; lia).
    rewrite nth_skipn. f_equal. lia.
Qed.

Lemma neg_record_ignores_labels (a a' b b' : record) :
  (a' = a \/ a' = replace_label a 1) -> (b' = b \/ b' = replace_label b 1) ->
  neg_record self a' b' = neg_record self a b.
Proof. intros [-> | ->] [-> | ->]; reflexivity. Qed.

(** The loop of lines 63-83, started on a pool whose first [i] records are
    already relabelled and which already holds the negatives [negs]. *)
Lemma mix_loop_spec (pool : list record) :
  use_role self = false ->
  forall (m i : nat) (negs : list record),
    (i + m = length pool)%nat ->
    exists negs',
      Forall2 (fun idx r =>
                 neg_record self (nth idx pool no_record)
                   (nth ((idx + 1) mod length pool) pool no_record) = inr r)
              (seq i m) negs' /\
      mix_loop self (length pool) (seq i m)
        (map relabel (firstn i pool) ++ skipn i pool ++ negs)
      = inr (map relabel pool ++ negs ++ negs').
Proof.
  intro Hu. induction m as [|m IH]; intros i negs Him.
  - exists []. split; [constructor|]. simpl.
    rewrite firstn_all2, skipn_all2 by lia. now rewrite app_nil_r.
  - assert (Hi : (i < length pool)%nat) by lia.
    assert (Hl : length (map relabel (firstn i pool)) = i)
      by (rewrite length_map, length_firstn; lia).
    set (x := nth i pool no_record).
    set (j := ((i + 1) mod length pool)%nat).
    assert (Hj : (j < length pool)%nat) by (apply Nat.mod_upper_bound; lia).
    destruct (neg_record_without_roles x (nth j pool no_record) Hu) as [neg Hneg].
    destruct (IH (S i) (negs ++ [neg]) ltac:(lia)) as (negs' & Hf & Hm).
    exists (neg :: negs'). split.
    + simpl. constructor; [exact Hneg|exact Hf].
    + change (seq i (S m)) with (i :: seq (S i) m).
      unfold mix_loop; fold (mix_loop self).
      (* the pool after [pool[i] = pool[i]._replace(label=1)] *)
      assert (Hset : set_nth i
                (replace_label
                   (nth i (map relabel (firstn i pool) ++ skipn i pool ++ negs)
                      no_record) 1)
                (map relabel (firstn i pool) ++ skipn i pool ++ negs)
              = map relabel (firstn (S i) pool) ++ skipn (S i) pool ++ negs).
      { pose proof (set_nth_middle (map relabel (firstn i pool)) x
                      (replace_label x 1) (skipn (S i) pool ++ negs)) as Hstep.
        pose proof (nth_middle (map relabel (firstn i pool))
                      (skipn (S i) pool ++ negs) x no_record) as Hmid.
        rewrite Hl in Hstep, Hmid.
        rewrite (skipn_cons_nth pool i no_record Hi). fold x.
        change ((x :: skipn (S i) pool) ++ negs) with (x :: skipn (S i) pool ++ negs).
        rewrite Hmid, Hstep.
        rewrite (firstn_snoc_nth pool i no_record Hi), map_app. fold x.
        rewrite <- app_assoc. reflexivity. }
      rewrite Hset. fold j.
      assert (Hrec : neg_record self
                (nth i (map relabel (firstn (S i) pool) ++ skipn (S i) pool ++ negs)
                   no_record)
                (nth j (map relabel (firstn (S i) pool) ++ skipn (S i) pool ++ negs)
                   no_record)
              = inr neg).
      { rewrite <- Hneg. apply neg_record_ignores_labels.
        - apply (nth_partly_relabelled pool (S i) i negs); lia.
        - apply (nth_partly_relabelled pool (S i) j negs); lia. }
      rewrite Hrec. unfold bind.
      rewrite <- !app_assoc. rewrite <- !app_assoc in Hm.
      rewrite Hm. reflexivity.
Qed.

Lemma Permutation_filter {A : Type} (f : A -> bool) (l l' : list A) :
  Permutation l l' -> Permutation (filter f l) (filter f l').
Proof.
  induction 1 as [|x l l' _ IH|x y l|l l' l'' _ IH1 _ IH2]; simpl.
  - constructor.
  - destruct (f x); [now constructor|exact IH].
  - destruct (f x), (f y); try reflexivity. apply perm_swap.
  - now rewrite IH1.
Qed.

Lemma filter_relabelled (l : list record) :
  filter is_positive (map relabel l) = map relabel l.
Proof. induction l as [|x l IH]; simpl; [reflexivity|]. now rewrite IH. Qed.

Lemma filter_negatives (idxs : list nat) (pool negs : list record) :
  Forall2 (fun idx r =>
             neg_record self (nth idx pool no_record)
               (nth ((idx + 1) mod length pool) pool no_record) = inr r)
          idxs negs ->
  filter is_positive negs = [] /\
  Forall (fun r => label r = Some 0%Z /\ data_id r = (-1)%Z) negs /\
  length negs = length idxs.
Proof.
  induction 1 as [|idx r idxs negs Hr _ (IH1 & IH2 & IH3)]; [repeat split; constructor|].
  destruct (neg_record_fields _ _ _ Hr) as (Hl & Hd & _).
  split; [|split].
  - simpl. unfold is_positive at 1. rewrite Hl. exact IH1.
  - constructor; auto.
  - simpl. now rewrite IH3.
Qed.

(** What [_gen_from_pool] yields for a pool that does not hold exactly one
    record. *)
Lemma gen_from_larger_pool (rng : Rng) (pool : list record) :
  valid_shuffle -> use_role self = false -> length pool <> 1%nat ->
  exists pool1 negs out rng',
    Permutation pool1 pool /\
    Forall2 (fun idx r =>
               neg_record self (nth idx pool1 no_record)
                 (nth ((idx + 1) mod length pool1) pool1 no_record) = inr r)
            (seq 0 (length pool1)) negs /\
    _gen_from_pool self rng pool = (out, None, rng') /\
    Permutation out (map relabel pool1 ++ negs).
Proof.
  intros Hv Hu Hn. unfold _gen_from_pool.
  destruct (Nat.eqb_spec (length pool) 1) as [|_]; [contradiction|].
  pose proof (Hv rng pool) as Hp1.
  destruct (shuffle rng pool) as [pool1 rng1]. simpl in Hp1.
  assert (Hlen : length pool = length pool1)
    by (symmetry; now apply Permutation_length).
  rewrite Hlen.
  destruct (mix_loop_spec pool1 Hu (length pool1) 0 [] eq_refl) as (negs & Hf & Hm).
  simpl in Hm. rewrite app_nil_r in Hm. rewrite Hm.
  pose proof (Hv rng1 (map relabel pool1 ++ negs)) as Hp2.
  destruct (shuffle rng1 (map relabel pool1 ++ negs)) as [out rng2]. simpl in Hp2.
  exists pool1, negs, out, rng2. auto.
Qed.

(** X15.  With a shuffle that permutes and without roles, a pool of [n]
    records, [n] other than 1, is turned into [2 n] records and no exception:
    the [n] records of the pool, each once and labelled 1, and [n] negative
    records labelled 0 with [data_id = -1], the negative at position [i] of
    the shuffled pool joining the context of that record to the response of
    the record at position [(i + 1) mod n]. *)
Theorem gen_from_pool_doubles_the_pool (rng : Rng) (pool : list record) :
  valid_shuffle -> use_role self = false -> length pool <> 1%nat ->
  exists pool1 negs out rng',
    _gen_from_pool self rng pool = (out, None, rng') /\
    Permutation pool1 pool /\
    Forall2 (fun idx r =>
               neg_record self (nth idx pool1 no_record)
                 (nth ((idx + 1) mod length pool1) pool1 no_record) = inr r)
            (seq 0 (length pool1)) negs /\
    Permutation out (map relabel pool1 ++ negs) /\
    length out = (2 * length pool)%nat /\
    Permutation (filter is_positive out) (map relabel pool) /\
    Forall (fun r => label r = Some 0%Z /\ data_id r = (-1)%Z) negs.
Proof.
  intros Hv Hu Hn.
  destruct (gen_from_larger_pool rng pool Hv Hu Hn)
    as (pool1 & negs & out & rng' & Hp1 & Hf & Hg & Hout).
  destruct (filter_negatives _ _ _ Hf) as (Hfn & Hneg & Hnl).
  rewrite length_seq in Hnl.
  exists pool1, negs, out, rng'.
  split; [exact Hg|]. split; [exact Hp1|]. split; [exact Hf|].
  split; [exact Hout|]. split; [|split; [|exact Hneg]].
  - rewrite (Permutation_length Hout), length_app, length_map, Hnl.
    rewrite (Permutation_length Hp1). lia.
  - rewrite (Permutation_filter is_positive _ _ Hout), filter_app.
    rewrite filter_relabelled, Hfn, app_nil_r.
    now apply Permutation_map.
Qed.

(** What any pool yields, whatever its size. *)
Lemma gen_from_any_pool (rng : Rng) (pool : list record) :
  valid_shuffle -> use_role self = false ->
  exists out rng',
    _gen_from_pool self rng pool = (out, None, rng') /\
    Permutation (filter is_positive out) (map relabel pool) /\
    (length pool <= length out)%nat /\ (length out <= 2 * length pool)%nat.
Proof.
  intros Hv Hu. destruct (Nat.eq_dec (length pool) 1) as [H1|H1].
  - exists [replace_label (nth 0 pool no_record) 1], rng.
    unfold _gen_from_pool. rewrite H1. simpl.
    destruct pool as [|x [|y pool]]; try discriminate.
    simpl. repeat split; try lia. reflexivity.
  - destruct (gen_from_larger_pool rng pool Hv Hu H1)
      as (pool1 & negs & out & rng' & Hp1 & Hf & Hg & Hout).
    destruct (filter_negatives _ _ _ Hf) as (Hfn & _ & Hnl).
    rewrite length_seq in Hnl.
    exists out, rng'. split; [exact Hg|].
    assert (Hlen : length out = (2 * length pool)%nat).
    { rewrite (Permutation_length Hout), length_app, length_map, Hnl.
      rewrite (Permutation_length Hp1). lia. }
    split; [|lia].
    rewrite (Permutation_filter is_positive _ _ Hout), filter_app.
    rewrite filter_relabelled, Hfn, app_nil_r.
    now apply Permutation_map.
Qed.

Lemma wrapper_loop_positives (size : Z) :
  valid_shuffle -> use_role self = false ->
  forall (records pool : list record) (rng : Rng),
  exists out rng',
    wrapper_loop self size records pool rng = (out, None, rng') /\
    Permutation (filter is_positive out) (map relabel (pool ++ records)) /\
    (length (pool ++ records) <= length out)%nat /\
    (length out <= 2 * length (pool ++ records))%nat.
Proof.
  intros Hv Hu. induction records as [|r records IH]; intros pool rng.
  - simpl. rewrite app_nil_r. destruct (Nat.ltb_spec 0 (length pool)).
    + apply gen_from_any_pool; assumption.
    + destruct pool; [|simpl in *; lia].
      exists [], rng. simpl. repeat split; auto.
  - simpl. replace (pool ++ r :: records) with ((pool ++ [r]) ++ records)
      by (rewrite <- app_assoc; reflexivity).
    destruct (Z.eqb_spec (Z.of_nat (length (pool ++ [r]))) size) as [_|_].
    + destruct (gen_from_any_pool rng (pool ++ [r]) Hv Hu)
        as (out1 & rng1 & Hg & Hp & Hl1 & Hl2).
      rewrite Hg.
      destruct (IH [] rng1) as (out2 & rng2 & Hw & Hp2 & Hl3 & Hl4).
      rewrite Hw. simpl in Hp2, Hl3, Hl4.
      exists (out1 ++ out2), rng2. split; [reflexivity|].
      rewrite filter_app, map_app, !length_app.
      rewrite !length_app in Hl1, Hl2. split; [|lia].
      now apply Permutation_app.
    + apply IH.
Qed.

(** X16.  With a shuffle that permutes and without roles, mixing never loses
    or duplicates a sample: whatever the pool size, the reader ends without
    an exception and the records it yields with label 1 are exactly the
    records of the underlying reader, each once, labelled 1; it yields at
    least as many records as it read and at most twice as many. *)
Theorem mixing_keeps_every_sample (records : list record) (size : Z) (rng : Rng) :
  valid_shuffle -> use_role self = false ->
  exists out rng',
    _mix_negative_sample self records size rng = (out, None, rng') /\
    Permutation (filter is_positive out) (map relabel records) /\
    (length records <= length out)%nat /\
    (length out <= 2 * length records)%nat.
Proof.
  intros Hv Hu. unfold _mix_negative_sample.
  apply (wrapper_loop_positives size Hv Hu records [] rng).
Qed.

Lemma wrapper_loop_one_pool (size : Z) :
  forall (records pool : list record) (rng : Rng),
    (size <= 0 \/ Z.of_nat (length (pool ++ records)) < size)%Z ->
    wrapper_loop self size records pool rng
    = if (0 <? length (pool ++ records))%nat
      then _gen_from_pool self rng (pool ++ records)
      else ([], None, rng).
Proof.
  induction records as [|r records IH]; intros pool rng Hs.
  - simpl. now rewrite app_nil_r.
  - simpl. replace (pool ++ r :: records) with ((pool ++ [r]) ++ records) in *
      by (rewrite <- app_assoc; reflexivity).
    destruct (Z.eqb_spec (Z.of_nat (length (pool ++ [r]))) size) as [E|_].
    + exfalso. rewrite !length_app in *. simpl in *. lia.
    + apply IH. exact Hs.
Qed.

(** X17.  A pool is handed over only when its size equals [neg_pool_size]
    exactly: with a pool size that is zero or negative, or larger than the
    number of records (65536 by default), every record of the reader lands in
    one single pool, mixed when the reader is exhausted; an empty reader
    yields nothing. *)
Theorem mixing_uses_one_pool (records : list record) (size : Z) (rng : Rng) :
  (size <= 0 \/ Z.of_nat (length records) < size)%Z ->
  (records <> [] ->
   _mix_negative_sample self records size rng = _gen_from_pool self rng records) /\
  _mix_negative_sample self [] size rng = ([], None, rng).
Proof.
  intro Hs. split; [|reflexivity].
  intro Hne. unfold _mix_negative_sample.
  rewrite wrapper_loop_one_pool by exact Hs. simpl.
  destruct records; [congruence|reflexivity].
Qed.

End Mixing.

(** * The proposals of beam search *)

Section BeamProposals.

Context {ops : Generator.Ops}.

Import Generator.

Lemma topk_indices (a : list Q) (k : nat) :
  snd (Paddle.topk a k) = firstn k (snd (argsort_desc a)).
Proof.
  unfold Paddle.topk. rewrite split_fst_snd, argsort_snd. simpl.
  symmetry. apply firstn_map.
Qed.

Lemma build_beam_search (g : t) (p : Plan) :
  build g = inr p -> decoding_strategy g = "beam_search"%string ->
  plan_strategy p = BeamSearch /\ plan_beam_size p = beam_size g.
Proof.
  intros H Hs. destruct (build_inversion g p H) as (_ & _ & _ & Hst & _ & Hb).
  rewrite Hs in Hst, Hb. unfold strategy_of, ret in Hst. simpl in Hst, Hb.
  injection Hst as Hst. split; [now symmetry|exact Hb].
Qed.

(** X18.  Under beam search with [1 <= beam_size <= |vocabulary|], the
    proposals of a candidate are the [beam_size] most probable tokens, each
    scored with its own probability: the proposed tokens are distinct, their
    scores are in descending order, and no token left out is more probable
    than a proposed one. *)
Theorem beam_search_proposes_most_probable (g : t) (p : Plan) (step : Z)
    (row : nat) (probs : list Q) :
  build g = inr p -> decoding_strategy g = "beam_search"%string ->
  (1 <= beam_size g)%Z -> (beam_size g <= Z.of_nat (length probs))%Z ->
  let k := Z.to_nat (beam_size g) in
  let scores := fst (select g p step row probs) in
  let ids := snd (select g p step row probs) in
  length scores = k /\ length ids = k /\ NoDup ids /\
  (forall r, (r < k)%nat ->
     (nth r ids 0 < length probs)%nat /\
     nth r scores 0 = nth (nth r ids 0%nat) probs 0) /\
  (forall r r', (r <= r')%nat -> (r' < k)%nat ->
     nth r' scores 0 <= nth r scores 0) /\
  (forall t, (t < length probs)%nat -> ~ In t ids ->
     forall r, (r < k)%nat -> nth t probs 0 <= nth r scores 0).
Proof.
  intros Hb Hs Hlo Hhi k scores ids.
  destruct (build_beam_search g p Hb Hs) as [Hst Hbeam].
  assert (Hsc : scores = firstn (Z.to_nat (beam_size g)) (fst (argsort_desc probs))).
  { unfold scores, select. rewrite Hst, Hbeam. apply topk_values. }
  assert (Hid : ids = firstn (Z.to_nat (beam_size g)) (snd (argsort_desc probs))).
  { unfold ids, select. rewrite Hst, Hbeam. apply topk_indices. }
  set (b := Z.to_nat (beam_size g)) in *.
  assert (Hnth : forall r, (r < k)%nat ->
            nth r scores 0 = nth r (fst (argsort_desc probs)) 0 /\
            nth r ids 0%nat = nth r (snd (argsort_desc probs)) 0%nat).
  { intros r Hr. rewrite Hsc, Hid, !nth_firstn.
    destruct (Nat.ltb_spec r b); [auto|unfold k in Hr; lia]. }
  assert (Hnd : NoDup (snd (argsort_desc probs))).
  { eapply Permutation_NoDup; [symmetry; apply argsort_permutation|apply seq_NoDup]. }
  split; [rewrite Hsc, length_firstn, argsort_fst_length; unfold k, b; lia|].
  split; [rewrite Hid, length_firstn, argsort_snd_length; unfold k, b; lia|].
  split.
  { rewrite Hid. rewrite <- (firstn_skipn b (snd (argsort_desc probs))) in Hnd.
    now apply NoDup_app_remove_r in Hnd. }
  split.
  { intros r Hr. destruct (Hnth r Hr) as [-> ->].
    apply argsort_value. unfold k in Hr. lia. }
  split.
  { intros r r' Hrr Hr'. destruct (Hnth r ltac:(lia)) as [-> _].
    destruct (Hnth r' Hr') as [-> _].
    apply argsort_descending; [exact Hrr|unfold k in Hr'; lia]. }
  intros t Ht Hnot r Hr.
  assert (Hin : In t (snd (argsort_desc probs))).
  { eapply Permutation_in; [symmetry; apply argsort_permutation|].
    apply in_seq. lia. }
  destruct (In_nth _ _ 0%nat Hin) as (r0 & Hr0 & Hr0t).
  rewrite argsort_snd_length in Hr0.
  assert (Hge : (b <= r0)%nat).
  { destruct (Nat.lt_ge_cases r0 b) as [Hlt|Hge]; [|exact Hge].
    exfalso. apply Hnot. rewrite Hid, <- Hr0t.
    assert (E : nth r0 (firstn b (snd (argsort_desc probs))) 0%nat
                = nth r0 (snd (argsort_desc probs)) 0%nat).
    { rewrite nth_firstn. destruct (Nat.ltb_spec r0 b); [reflexivity|lia]. }
    rewrite <- E. apply nth_In.
    rewrite length_firstn, argsort_snd_length. lia. }
  destruct (Hnth r Hr) as [-> _].
  destruct (argsort_value probs r0 Hr0) as [_ Hv].
  rewrite Hr0t in Hv. rewrite <- Hv.
  apply argsort_descending; [unfold k in Hr; lia|exact Hr0].
Qed.

End BeamProposals.

(** ** The further properties on concrete inputs *)

Section ConcreteFurther.

Import Generator Examples.

Local Open Scope string_scope.

Local Existing Instance rational_ops.
Local Existing Instance model3.
Local Existing Instance no_blocker.

Lemma g_topp_ids_in_range : ids_in_range g_topp.
Proof.
  split; [|split].
  - unfold Numpy.in_range. simpl. lia.
  - intros _. unfold Numpy.in_range. simpl. lia.
  - intros m H. discriminate.
Qed.

Lemma g_topp_strategy_known : ~ unknown_strategy (decoding_strategy g_topp).
Proof. intros (_ & _ & _ & H). discriminate. Qed.

Lemma build_errors_in_order_witness :
  build g_topp = inr topp_plan /\
  ids_in_range g_topp /\ ~ temperature g_topp == 0.
Proof.
  split; [reflexivity|].
  destruct (proj2 (proj2 (build_errors_in_order g_topp)) topp_plan eq_refl)
    as (Hi & Ht & _).
  split; assumption.
Defined.

Lemma token_penalty_entries_witness :
  token_penalty g_penalised = inr [- big; 0; - big; 0] /\
  length [- big; 0; - big; 0] = vocab_size g_penalised.
Proof.
  split; [reflexivity|].
  apply (proj1 (token_penalty_entries g_penalised [- big; 0; - big; 0] eq_refl)).
Defined.

Lemma strategy_is_matched_by_prefix_witness :
  "_v2" <> "" /\
  strategy_of ("beam_search" ++ "_v2") = inl (ValueError ("beam_search" ++ "_v2")).
Proof.
  split; [discriminate|].
  apply (proj2 (proj2 (proj2 (strategy_is_matched_by_prefix "_v2")))).
  discriminate.
Defined.

Lemma parsed_strategy_is_dispatched_witness :
  parse_decoding_strategy "topp_sampling" = inr "topp_sampling" /\
  "topp_sampling" = "topp_sampling".
Proof.
  split; [reflexivity|].
  apply (proj1 (parsed_strategy_is_dispatched "topp_sampling" "topp_sampling" eq_refl)).
Defined.

Lemma topk_sampling_keeps_top_k_witness :
  let probs := [3 # 20; 1 # 2; 1 # 20; 3 # 10] in
  (1 <= 2)%nat /\ (2 <= length probs)%nat /\
  nth 2 probs 0 < nth (2 - 1) (fst (argsort_desc probs)) 0 /\
  nth 2 (topk_sampling_probs 2 probs) 0 == 0.
Proof.
  split; [lia|]. split; [simpl; lia|]. split; [reflexivity|].
  apply (proj1 (proj2 (topk_sampling_keeps_top_k 2
           [3 # 20; 1 # 2; 1 # 20; 3 # 10] ltac:(lia) ltac:(simpl; lia)))
           2%nat ltac:(simpl; lia)).
  reflexivity.
Defined.

Lemma example_probs_nonneg :
  Forall (fun x => 0 <= x) [3 # 20; 1 # 2; 1 # 20; 3 # 10].
Proof. repeat constructor; discriminate. Qed.

Lemma topk_sampling_distribution_sum_witness :
  let probs := [3 # 20; 1 # 2; 1 # 20; 3 # 10] in
  (1 <= 2)%nat /\ (2 <= length probs)%nat /\
  Forall (fun x => 0 <= x) probs /\
  0 < reduce_sum (firstn 2 (fst (argsort_desc probs))) /\
  1 <= reduce_sum (topk_sampling_probs 2 probs).
Proof.
  split; [lia|]. split; [simpl; lia|]. split; [exact example_probs_nonneg|].
  split; [reflexivity|].
  apply (proj1 (topk_sampling_distribution_sum 2 [3 # 20; 1 # 2; 1 # 20; 3 # 10]
                  ltac:(lia) ltac:(simpl; lia) example_probs_nonneg eq_refl)).
Defined.

Lemma topp_extreme_thresholds_witness :
  let probs := [3 # 20; 1 # 2; 1 # 20; 3 # 10] in
  Forall (fun x => 0 <= x) probs /\ 0 <= 0 /\
  reduce_sum (candidate_probs 0 probs) == 0.
Proof.
  split; [exact example_probs_nonneg|]. split; [discriminate|].
  apply (proj2 (proj1 (topp_extreme_thresholds 0 [3 # 20; 1 # 2; 1 # 20; 3 # 10]
                         example_probs_nonneg) ltac:(discriminate))).
Defined.

Lemma topp_nucleus_is_normalised_prefix_witness :
  let probs := [3 # 20; 1 # 2; 1 # 20; 3 # 10] in
  Forall (fun x => 0 <= x) probs /\ 0 < 9 # 10 /\ 0 < reduce_sum probs /\
  reduce_sum (topp_sampling_probs (9 # 10) probs) == 1.
Proof.
  split; [exact example_probs_nonneg|]. split; [reflexivity|].
  split; [reflexivity|].
  apply (proj1 (topp_nucleus_is_normalised_prefix (9 # 10)
                  [3 # 20; 1 # 2; 1 # 20; 3 # 10] example_probs_nonneg
                  eq_refl eq_refl)).
Defined.

Lemma length_average_is_mean_witness :
  length_average g_topp = true /\ [-(1); -(2); -(1); -(4)] <> [] /\
  accumulate g_topp 0 7 [-(1); -(2); -(1); -(4)]
  == reduce_sum [-(1); -(2); -(1); -(4)] / inject_Z (Z.of_nat 4).
Proof.
  split; [reflexivity|]. split; [discriminate|].
  apply (length_average_is_mean g_topp 7 [-(1); -(2); -(1); -(4)] eq_refl).
  discriminate.
Defined.

Lemma penalty_never_vanishes (L : Z) :
  (0 <= L)%Z ->
  ~ pow ((5 + inject_Z L) / 6) (length_penalty g_penalised) == 0.
Proof.
  intros HL H. pose proof (inject_Z_nonneg L HL) as Hq.
  simpl in H. unfold Qdiv in H.
  assert (E : 1 + 1 * ((5 + inject_Z L) * / 6 - 1) == (5 + inject_Z L) * (1 # 6))
    by (change (/ 6) with (1 # 6); ring).
  rewrite E in H. lra.
Qed.

Lemma unaveraged_scores_telescope_witness :
  length_average g_penalised = false /\ 0 < length_penalty g_penalised /\
  accumulate g_penalised 0 0 [-(1); -(2)]
    * pow ((5 + inject_Z (0 + Z.of_nat 2)) / 6) (length_penalty g_penalised)
  == 0 * pow ((5 + inject_Z 0) / 6) (length_penalty g_penalised)
     + reduce_sum [-(1); -(2)].
Proof.
  split; [reflexivity|]. split; [reflexivity|].
  apply (proj2 (unaveraged_scores_telescope g_penalised [-(1); -(2)] 0 0 eq_refl)
           eq_refl penalty_never_vanishes).
Defined.


Lemma loop_runs_until_first_stop_witness :
  (1 <= 1)%nat /\ (Z.of_nat 1 <= max_dec_len g_topk)%Z /\
  reduce_all (is_finished
                (state (iterate 1 (body g_topk topk_plan) (init g_topk finished))))
  = true /\
  runs g_topk topk_plan finished 1.
Proof.
  assert (H : reduce_all (is_finished
                (state (iterate 1 (body g_topk topk_plan) (init g_topk finished))))
              = true) by (vm_compute; reflexivity).
  split; [lia|]. split; [simpl; lia|]. split; [exact H|].
  apply (proj1 (loop_runs_until_first_stop g_topk topk_plan finished 1
                  ltac:(lia) ltac:(simpl; lia) ltac:(intros; lia) (or_intror H))).
Defined.

Lemma unknown_token_is_always_penalised_witness :
  build g_topp = inr topp_plan /\
  (ngram_blocking g_topp <= 0)%Z /\
  ignore_unk g_topp = true /\
  Numpy.index (vocab_size g_topp) (unk_id g_topp) = inr 0%nat /\
  Numpy.index (vocab_size g_topp) (eos_id g_topp) = inr 3%nat /\
  nth 0 (nth 0 (batch_logits g_topp topp_plan
                  (iterate 0 (body g_topp topp_plan) (init g_topp live))
                  [[0; 1; 2; 1]; [0; 3; 1; 2]]) []) 0
  == nth 0 (nth 0 [[0; 1; 2; 1]; [0; 3; 1; 2]] []) 0 - big.
Proof.
  split; [reflexivity|]. split; [simpl; lia|]. split; [reflexivity|].
  split; [reflexivity|]. split; [reflexivity|].
  apply (unknown_token_is_always_penalised g_topp topp_plan live 0 3
           eq_refl ltac:(simpl; lia) eq_refl eq_refl eq_refl ltac:(lia)
           0%nat [[0; 1; 2; 1]; [0; 3; 1; 2]] 0%nat
           ltac:(simpl; lia) ltac:(simpl; lia) eq_refl).
Defined.

Lemma record_a_well_formed : NSPReader.well_formed record_a.
Proof. repeat split; simpl; lia. Qed.

Lemma record_b_well_formed : NSPReader.well_formed record_b.
Proof. repeat split; simpl; lia. Qed.

Lemma neg_record_is_well_formed_witness :
  NSPReader.use_role (reader_config 65536) = false /\
  NSPReader.well_formed record_a /\ NSPReader.well_formed record_b /\
  exists r, NSPReader.neg_record (reader_config 65536) record_a record_b = inr r /\
            NSPReader.well_formed r.
Proof.
  split; [reflexivity|]. split; [exact record_a_well_formed|].
  split; [exact record_b_well_formed|].
  destruct (proj1 (neg_record_is_well_formed (reader_config 65536) record_a record_b)
              eq_refl record_a_well_formed record_b_well_formed)
    as (r & Hr & Hw & _).
  exists r. split; assumption.
Defined.

Lemma reversing_is_valid : NSPReader.valid_shuffle (rs := reversing_rng).
Proof. intros rng l. simpl. symmetry. apply Permutation_rev. Qed.

Lemma gen_from_pool_doubles_the_pool_witness :
  NSPReader.valid_shuffle (rs := reversing_rng) /\
  NSPReader.use_role (reader_config 65536) = false /\
  length [record_a; record_b] <> 1%nat /\
  exists out rng',
    NSPReader._gen_from_pool (rs := reversing_rng) (reader_config 65536) 7%nat
      [record_a; record_b] = (out, None, rng') /\
    length out = (2 * length [record_a; record_b])%nat.
Proof.
  split; [exact reversing_is_valid|]. split; [reflexivity|].
  split; [discriminate|].
  destruct (gen_from_pool_doubles_the_pool (rs := reversing_rng)
              (reader_config 65536) 7%nat [record_a; record_b]
              reversing_is_valid eq_refl ltac:(discriminate))
    as (pool1 & negs & out & rng' & Hg & _ & _ & _ & Hl & _).
  exists out, rng'. split; assumption.
Defined.

Lemma mixing_keeps_every_sample_witness :
  NSPReader.valid_shuffle (rs := reversing_rng) /\
  NSPReader.use_role (reader_config 2) = false /\
  exists out rng',
    NSPReader._mix_negative_sample (rs := reversing_rng) (reader_config 2)
      [record_a; record_b; record_a] 2 7%nat = (out, None, rng') /\
    Permutation (filter NSPReader.is_positive out)
      (map (fun r => NSPReader.replace_label r 1) [record_a; record_b; record_a]).
Proof.
  split; [exact reversing_is_valid|]. split; [reflexivity|].
  destruct (mixing_keeps_every_sample (rs := reversing_rng) (reader_config 2)
              [record_a; record_b; record_a] 2 7%nat reversing_is_valid eq_refl)
    as (out & rng' & Hm & Hp & _).
  exists out, rng'. split; assumption.
Defined.

Lemma mixing_uses_one_pool_witness :
  (65536 <= 0 \/ Z.of_nat (length [record_a; record_b]) < 65536)%Z /\
  [record_a; record_b] <> [] /\
  NSPReader._mix_negative_sample (rs := reversing_rng) (reader_config 65536)
    [record_a; record_b] 65536 7%nat
  = NSPReader._gen_from_pool (rs := reversing_rng) (reader_config 65536) 7%nat
      [record_a; record_b].
Proof.
  assert (H : (65536 <= 0 \/ Z.of_nat (length [record_a; record_b]) < 65536)%Z)
    by (right; simpl; lia).
  split; [exact H|]. split; [discriminate|].
  apply (proj1 (mixing_uses_one_pool (rs := reversing_rng) (reader_config 65536)
                  [record_a; record_b] 65536 7%nat H)).
  discriminate.
Defined.

Lemma beam_search_proposes_most_probable_witness :
  build g_beam = inr beam_plan /\
  decoding_strategy g_beam = "beam_search" /\
  (1 <= beam_size g_beam)%Z /\
  (beam_size g_beam <= Z.of_nat (length [3 # 20; 1 # 2; 1 # 20; 3 # 10]))%Z /\
  length (fst (select g_beam beam_plan 0 0 [3 # 20; 1 # 2; 1 # 20; 3 # 10]))
  = Z.to_nat (beam_size g_beam).
Proof.
  split; [reflexivity|]. split; [reflexivity|].
  split; [simpl; lia|]. split; [simpl; lia|].
  apply (proj1 (beam_search_proposes_most_probable g_beam beam_plan 0 0
                  [3 # 20; 1 # 2; 1 # 20; 3 # 10] eq_refl eq_refl
                  ltac:(simpl; lia) ltac:(simpl; lia))).
Defined.

End ConcreteFurther.
